(** * Write-flow-ai: the suggestion reconciliation code of the editor

    A shallow embedding of
    - [findWordBoundaries], [handleAcceptSuggestion] and
      [handleAcceptAllSuggestions] of the editor page, and
    - the suggestion post-processing of [checkText] in
      [hooks/useGrammarCheck.ts],
    together with the facts the specification states about them.

    Conventions of the embedding.
    - A JavaScript string is a list of code units.  The code units are
      those of Latin-1 (U+0000 .. U+00FF), carried as [ascii]; on that
      range [toLowerCase] is length preserving and stays in range.
    - Offsets sent by the remote model are integers ([Z]); indices
      produced by the regular expression engine are naturals.
    - [while (regex.exec(text))] is a loop that the source does not bound;
      it is run with fuel, and [OutOfFuel] is the only trace of it. *)

From Stdlib Require Import ZArith List Ascii String Bool Lia Permutation Sorted.
From Stdlib Require Import DecimalString.
Import ListNotations.

Open Scope Z_scope.

(** ** Completions *)

(** The three ways a run of the modelled code can end. *)
Inductive run (A : Type) : Type :=
| Done (a : A)      (* normal completion with a value *)
| Thrown            (* abrupt completion: an exception escaped *)
| OutOfFuel.        (* the loop was still running when fuel ran out *)

Arguments Done {A} a.
Arguments Thrown {A}.
Arguments OutOfFuel {A}.

Definition bind {A B : Type} (m : run A) (k : A -> run B) : run B :=
  match m with
  | Done a => k a
  | Thrown => Thrown
  | OutOfFuel => OutOfFuel
  end.

Notation "x <- m ;; k" := (bind m (fun x => k))
  (at level 61, m at next level, right associativity).

(** ** JavaScript strings *)

Module JS.

Definition jsstring : Type := list ascii.

(** A string literal of the source. *)
Definition str (s : string) : jsstring := list_ascii_of_string s.

(** [s.length] *)
Definition length (s : jsstring) : Z := Z.of_nat (List.length s).

Definition code (c : ascii) : N := N_of_ascii c.

Definition between (lo hi : N) (n : N) : bool := ((lo <=? n) && (n <=? hi))%N.

(** [String.prototype.substring(start, end)]: both arguments are clamped
    to [0, length] and swapped when [start > end]. *)
Definition clamp (len i : Z) : Z := Z.min (Z.max i 0) len.

Definition substring (s : jsstring) (start end_ : Z) : jsstring :=
  let finalStart := clamp (length s) start in
  let finalEnd := clamp (length s) end_ in
  let from := Z.min finalStart finalEnd in
  let to := Z.max finalStart finalEnd in
  firstn (Z.to_nat (to - from)) (skipn (Z.to_nat from) s).

(** [s.substring(start)]: the end defaults to the length. *)
Definition substring_from (s : jsstring) (start : Z) : jsstring :=
  substring s start (length s).

(** [toLowerCase] on one code unit: A-Z, and U+00C0 .. U+00DE but for the
    multiplication sign U+00D7. *)
Definition toLowerCase_char (c : ascii) : ascii :=
  let n := code c in
  if between 65 90 n || (between 192 222 n && negb (n =? 215)%N)
  then ascii_of_N (n + 32)
  else c.

Definition toLowerCase (s : jsstring) : jsstring := map toLowerCase_char s.

(** [toUpperCase] on one code unit, as code units of the result: the
    micro sign and y-diaeresis leave Latin-1, sharp s becomes two units. *)
Definition toUpperCase_units (c : ascii) : list N :=
  let n := code c in
  if between 97 122 n || (between 224 254 n && negb (n =? 247)%N)
  then [(n - 32)%N]
  else if (n =? 181)%N then [924%N]
  else if (n =? 255)%N then [376%N]
  else if (n =? 223)%N then [83%N; 83%N]
  else [n].

(** White space and line terminators removed by [trim]. *)
Definition isWhiteSpace (c : ascii) : bool :=
  let n := code c in
  between 9 13 n || (n =? 32)%N || (n =? 160)%N.

Fixpoint trimStart (s : jsstring) : jsstring :=
  match s with
  | [] => []
  | c :: r => if isWhiteSpace c then trimStart r else s
  end.

Definition trimEnd (s : jsstring) : jsstring := rev (trimStart (rev s)).

Definition trim (s : jsstring) : jsstring := trimEnd (trimStart s).

(** Strict equality of strings, [===]. *)
Definition eqb (a b : jsstring) : bool :=
  if list_eq_dec ascii_dec a b then true else false.

End JS.

Import JS.

(** ** The regular expression fragment the locator builds *)

Module RegExp.

(** The characters of the class [[.*+?^${}()|[\]\\]] that the source
    escapes with a backslash. *)
Definition escapedClass : list ascii :=
  str ".*+?^${}()|[]\".

Definition inClass (cls : list ascii) (c : ascii) : bool :=
  existsb (fun d => Ascii.eqb c d) cls.

(** [s.replace(/[.*+?^${}()|[\]\\]/g, '\\$&')] *)
Definition escapeSpecials (s : jsstring) : jsstring :=
  flat_map (fun c => if inClass escapedClass c then ["\"%char; c] else [c]) s.

(** SyntaxCharacter of the pattern grammar. *)
Definition syntaxCharacters : list ascii :=
  str "^$\.*+?()[]{}|".

Definition isSyntaxCharacter (c : ascii) : bool := inClass syntaxCharacters c.

(** Terms of the fragment: the assertion [\b] and a pattern character. *)
Inductive term : Type :=
| WordBoundary
| Char (c : ascii).

(** Reading a pattern source.  [None] stands for a pattern that
    [new RegExp] refuses with a SyntaxError or that leaves the fragment
    (quantifiers, classes, groups, other escapes). *)
Fixpoint parsePattern (p : jsstring) : option (list term) :=
  match p with
  | [] => Some []
  | c :: rest =>
      if Ascii.eqb c "\"%char then
        match rest with
        | [] => None
        | d :: rest' =>
            if Ascii.eqb d "b"%char then
              option_map (cons WordBoundary) (parsePattern rest')
            else if isSyntaxCharacter d then
              option_map (cons (Char d)) (parsePattern rest')
            else None
        end
      else if isSyntaxCharacter c then None
      else option_map (cons (Char c)) (parsePattern rest)
  end.

(** A compiled expression with flags [gi]; [lastIndex] is the mutable
    property that the global flag reads and writes. *)
Record t : Type := mk { terms : list term; lastIndex : nat }.

(** [new RegExp(source, 'gi')] *)
Definition new (source : jsstring) : run t :=
  match parsePattern source with
  | Some ts => Done (mk ts 0)
  | None => Thrown
  end.

(** Canonicalize of a code unit under the [i] flag without [u]. *)
Definition Canonicalize (ch : ascii) : N :=
  match toUpperCase_units ch with
  | [cu] => if (128 <=? code ch)%N && (cu <? 128)%N then code ch else cu
  | _ => code ch
  end.

(** WordCharacters: the basic word characters [A-Za-z0-9_]. *)
Definition isBasicWordChar (c : ascii) : bool :=
  let n := code c in
  between 97 122 n || between 65 90 n || between 48 57 n || (n =? 95)%N.

(** IsWordChar(e): false at [-1] and at the input length. *)
Definition isWordCharAt (input : jsstring) (e : nat) : bool :=
  match nth_error input e with
  | Some c => isBasicWordChar c
  | None => false
  end.

Definition isWordCharBefore (input : jsstring) (e : nat) : bool :=
  match e with
  | O => false
  | S p => isWordCharAt input p
  end.

(** The assertion [\b] at position [e]. *)
Definition atWordBoundary (input : jsstring) (e : nat) : bool :=
  xorb (isWordCharBefore input e) (isWordCharAt input e).

(** Matching a sequence of terms from position [e]; the end position of
    the match when there is one.  The fragment has no alternatives, so
    there is nothing to backtrack into. *)
Fixpoint matchTerms (ts : list term) (input : jsstring) (e : nat) : option nat :=
  match ts with
  | [] => Some e
  | WordBoundary :: ts' =>
      if atWordBoundary input e then matchTerms ts' input e else None
  | Char c :: ts' =>
      match nth_error input e with
      | Some d =>
          if (Canonicalize c =? Canonicalize d)%N
          then matchTerms ts' input (S e)
          else None
      | None => None
      end
  end.

(** The search of RegExpBuiltinExec: start positions [i], [i+1], ... are
    tried in turn, [n] of them. *)
Fixpoint search (ts : list term) (input : jsstring) (i n : nat) : option (nat * nat) :=
  match n with
  | O => None
  | S n' =>
      match matchTerms ts input i with
      | Some e => Some (i, e)
      | None => search ts input (S i) n'
      end
  end.

(** [regex.exec(text)] for a global expression: the search starts at
    [lastIndex] and runs up to the input length inclusive; on success
    [lastIndex] becomes the end of the match, on failure it is reset to 0
    and the result is [null].  The result carries [index] and the end
    index, from which [match[0]] is read off the input. *)
Definition exec (re : t) (input : jsstring) : option (nat * nat) * t :=
  match search (terms re) input (lastIndex re)
               (S (List.length input) - lastIndex re) with
  | Some (i, e) => (Some (i, e), mk (terms re) e)
  | None => (None, mk (terms re) 0)
  end.

End RegExp.

(** ** Data model *)

(** [position: { start: number; end: number }] *)
Record Position : Type := mkPosition { start : Z; end_ : Z }.

Inductive SuggestionType : Type := grammar | spelling | style | punctuation.

(** The id [`suggestion-${Date.now()}-${index}`], kept as its two numbers
    (the rendering is injective). *)
Record SuggestionId : Type := mkId { id_now : Z; id_index : nat }.

Definition SuggestionId_eqb (a b : SuggestionId) : bool :=
  (id_now a =? id_now b) && Nat.eqb (id_index a) (id_index b).

(** [interface Suggestion].  The category travels with the suggestion
    and is never inspected, so it is kept as received. *)
Record Suggestion : Type := mkSuggestion {
  id : SuggestionId;
  type : option SuggestionType;
  position : Position;
  original : jsstring;
  correction : jsstring;
  explanation : jsstring
}.

(** An element pushed on [matches] by the locator. *)
Record Match : Type := mkMatch { m_start : Z; m_end : Z; m_text : jsstring }.

(** ** The locator: [findWordBoundaries] *)

(** The loop [while ((match = regex.exec(text)) !== null)]; [m0] is
    [match[0]], the code units of the input from [index] to the end of
    the match. *)
Fixpoint findWordBoundaries_loop (fuel : nat) (regex : RegExp.t)
    (text : jsstring) (matches : list Match) : run (list Match) :=
  match fuel with
  | O => OutOfFuel
  | S fuel' =>
      match RegExp.exec regex text with
      | (None, _) => Done matches
      | (Some (index, e), regex') =>
          let m0 := firstn (e - index) (skipn index text) in
          findWordBoundaries_loop fuel' regex' text
            (matches ++ [mkMatch (Z.of_nat index)
                                 (Z.of_nat index + JS.length m0) m0])
      end
  end.

(** [word.toLowerCase().trim()] *)
Definition searchWord (word : jsstring) : jsstring := trim (toLowerCase word).

(** The pattern source [`\\b${escaped}\\b`]. *)
Definition patternSource (word : jsstring) : jsstring :=
  str "\b" ++ RegExp.escapeSpecials (searchWord word) ++ str "\b".

(** [findWordBoundaries(text, word, startSearchPos = 0)].  The third
    parameter is declared and never read; [searchText] is computed and
    never read either. *)
Definition findWordBoundaries (fuel : nat) (text word : jsstring)
    (startSearchPos : Z) : run (list Match) :=
  regex <- RegExp.new (patternSource word) ;;
  findWordBoundaries_loop fuel regex text [].

(** ** Accepting one suggestion: [handleAcceptSuggestion] *)

(** The selection loop shared by both handlers:
    [closestMatch = wordMatches[0]], then every match, the first one
    again included, replaces it when strictly closer. *)
Definition closerStep (hint : Z) (acc : Match * Z) (m : Match) : Match * Z :=
  let distance := Z.abs (m_start m - hint) in
  if distance <? snd acc then (m, distance) else acc.

Definition closestMatch (first : Match) (wordMatches : list Match) (hint : Z) : Match :=
  fst (fold_left (closerStep hint) wordMatches
                 (first, Z.abs (m_start first - hint))).

(** Lines 350-391: [correctedPosition] when [foundMatch], else nothing. *)
Definition reconcile (fuel : nat) (content : jsstring) (suggestion : Suggestion)
    : run (option Position) :=
  let actualText :=
    substring content (start (position suggestion)) (end_ (position suggestion)) in
  if JS.eqb actualText (original suggestion) then
    Done (Some (position suggestion))
  else if JS.eqb (trim (toLowerCase actualText))
                 (trim (toLowerCase (original suggestion))) then
    Done (Some (position suggestion))
  else
    wordMatches <- findWordBoundaries fuel content (original suggestion) 0 ;;
    match wordMatches with
    | [] => Done None
    | first :: _ =>
        let closest := closestMatch first wordMatches (start (position suggestion)) in
        Done (Some (mkPosition (m_start closest) (m_end closest)))
    end.

(** What the user is told. *)
Inductive Toast : Type :=
| InvalidPosition        (* "Cannot apply suggestion - invalid position" *)
| TextChanged            (* "Cannot apply suggestion - text has changed ..." *)
| SuggestionApplied      (* "Suggestion applied" *)
| AllApplied (n : nat)   (* "All suggestions applied" *)
| NoneApplied.           (* "No suggestions applied" *)

(** The state the handlers read and write: the document body, the
    suggestion list of the hook, and the caret the handler last set. *)
Record Editor : Type := mkEditor {
  content : jsstring;
  suggestions : list Suggestion;
  caret : option Z
}.

(** [removeSuggestion(suggestionId)] *)
Definition removeSuggestion (sid : SuggestionId) (l : list Suggestion) : list Suggestion :=
  filter (fun s => negb (SuggestionId_eqb (id s) sid)) l.

(** [handleAcceptSuggestion(suggestion)]: the guard on the position,
    the reconciliation, the splice, the removal of the suggestion and the
    caret after the inserted text.  The processing flags and the timers
    are not part of the state kept here; the editing surface is mounted,
    so the caret is set. *)
Definition handleAcceptSuggestion (fuel : nat) (ed : Editor) (suggestion : Suggestion)
    : run (Editor * Toast) :=
  let p := position suggestion in
  if (start p <? 0) || (end_ p >? JS.length (content ed)) || (start p >=? end_ p) then
    Done (ed, InvalidPosition)
  else
    found <- reconcile fuel (content ed) suggestion ;;
    match found with
    | None => Done (ed, TextChanged)
    | Some correctedPosition =>
        let beforeText := substring (content ed) 0 (start correctedPosition) in
        let afterText := substring_from (content ed) (end_ correctedPosition) in
        let newContent := beforeText ++ correction suggestion ++ afterText in
        let newPosition := start correctedPosition + JS.length (correction suggestion) in
        Done (mkEditor newContent
                       (removeSuggestion (id suggestion) (suggestions ed))
                       (Some newPosition),
              SuggestionApplied)
    end.

(** [handleRejectSuggestion(suggestion)]: the suggestion leaves the
    list; text and caret stay. *)
Definition handleRejectSuggestion (ed : Editor) (suggestion : Suggestion) : Editor :=
  mkEditor (content ed) (removeSuggestion (id suggestion) (suggestions ed))
           (caret ed).

(** ** Accepting every suggestion: [handleAcceptAllSuggestions] *)

(** [Array.prototype.sort(compare)]: a stable sort. *)
Section Sort.
Context {A : Type} (compare : A -> A -> Z).

Fixpoint insertSorted (x : A) (l : list A) : list A :=
  match l with
  | [] => [x]
  | y :: r => if compare x y <=? 0 then x :: l else y :: insertSorted x r
  end.

Definition sort (l : list A) : list A := fold_right insertSorted [] l.
End Sort.

(** The callback of [sortedSuggestions.forEach], on the pair
    [(newContent, appliedCount)]. *)
Definition acceptAll_step (fuel : nat) (st : jsstring * nat) (suggestion : Suggestion)
    : run (jsstring * nat) :=
  let '(newContent, appliedCount) := st in
  wordMatches <- findWordBoundaries fuel newContent (original suggestion) 0 ;;
  match wordMatches with
  | [] => Done st
  | first :: _ =>
      let closest := closestMatch first wordMatches (start (position suggestion)) in
      let beforeText := substring newContent 0 (m_start closest) in
      let afterText := substring_from newContent (m_end closest) in
      Done (beforeText ++ correction suggestion ++ afterText, S appliedCount)
  end.

(** [Array.prototype.forEach] with the variables the callback assigns
    threaded through. *)
Fixpoint forEach {S' A : Type} (f : S' -> A -> run S') (l : list A) (st : S') : run S' :=
  match l with
  | [] => Done st
  | x :: r => st' <- f st x ;; forEach f r st'
  end.

(** [[...suggestions].sort((a, b) => b.position.start - a.position.start)] *)
Definition sortedSuggestions (l : list Suggestion) : list Suggestion :=
  sort (fun a b => start (position b) - start (position a)) l.

(** The computation between the two toasts: the new text and the count. *)
Definition applyAll (fuel : nat) (text : jsstring) (l : list Suggestion)
    : run (jsstring * nat) :=
  forEach (acceptAll_step fuel) (sortedSuggestions l) (text, O).

(** [handleAcceptAllSuggestions()]: nothing at all on an empty list;
    otherwise the text is replaced and the list cleared when at least one
    suggestion was applied, and the user is told either way. *)
Definition handleAcceptAllSuggestions (fuel : nat) (ed : Editor)
    : run (Editor * option Toast) :=
  match suggestions ed with
  | [] => Done (ed, None)
  | _ :: _ =>
      r <- applyAll fuel (content ed) (suggestions ed) ;;
      let '(newContent, appliedCount) := r in
      if (0 <? appliedCount)%nat then
        Done (mkEditor newContent [] (caret ed), Some (AllApplied appliedCount))
      else
        Done (ed, Some NoneApplied)
  end.

(** ** The validator: the post-processing of [checkText] *)

(** What arrives from the remote function.  A field that is absent or
    is not a number reads [None]; a string field that is absent reads as
    the empty string, which is as falsy as [undefined]; an array entry
    that is [null] reads [None]. *)
Record RawPosition : Type := mkRawPosition {
  raw_start : option Z;
  raw_end : option Z
}.

Record RawSuggestion : Type := mkRaw {
  raw_type : option SuggestionType;
  raw_position : option RawPosition;
  raw_original : jsstring;
  raw_correction : jsstring;
  raw_explanation : jsstring
}.

(** Truthiness of a string: the empty string is the falsy one. *)
Definition truthy (s : jsstring) : bool :=
  match s with
  | [] => false
  | _ :: _ => true
  end.

(** The predicate of the first [.filter]. *)
Definition filterRaw (textLength : Z) (entry : option RawSuggestion) : bool :=
  match entry with
  | None => false
  | Some suggestion =>
      match raw_position suggestion with
      | None => false
      | Some p =>
          match raw_start p, raw_end p with
          | Some s, Some e =>
              (s >=? 0) && (e <=? textLength) && (s <? e) &&
              truthy (raw_original suggestion) &&
              truthy (raw_correction suggestion) &&
              truthy (raw_explanation suggestion) &&
              negb (JS.eqb (raw_original suggestion) (raw_correction suggestion))
          | _, _ => false
          end
      end
  end.

(** The entries at their static type, with the two offsets read.  On the
    output of the first filter this drops nothing ([typed_filterRaw]). *)
Definition typed (entry : option RawSuggestion) : list (Z * Z * RawSuggestion) :=
  match entry with
  | Some suggestion =>
      match raw_position suggestion with
      | Some (mkRawPosition (Some s) (Some e)) => [(s, e, suggestion)]
      | _ => []
      end
  | None => []
  end.

(** The callback of [.map]: the id, and the offsets through
    [Math.max(0, Math.min(x, text.length))]. *)
Definition withId (now : nat -> Z) (textLength : Z) (index : nat)
    (entry : Z * Z * RawSuggestion) : Suggestion :=
  let '(s, e, suggestion) := entry in
  mkSuggestion (mkId (now index) index) (raw_type suggestion)
    (mkPosition (Z.max 0 (Z.min s textLength)) (Z.max 0 (Z.min e textLength)))
    (raw_original suggestion) (raw_correction suggestion)
    (raw_explanation suggestion).

Fixpoint mapi_from {A B : Type} (f : nat -> A -> B) (index : nat) (l : list A) : list B :=
  match l with
  | [] => []
  | x :: r => f index x :: mapi_from f (S index) r
  end.

(** The test of the second [.filter]: same start, end and original. *)
Definition sameSuggestion (prevSuggestion suggestion : Suggestion) : bool :=
  (start (position prevSuggestion) =? start (position suggestion)) &&
  (end_ (position prevSuggestion) =? end_ (position suggestion)) &&
  JS.eqb (original prevSuggestion) (original suggestion).

(** [.filter((s, index, array) => !array.slice(0, index).some(...))];
    [before] is [array.slice(0, index)]. *)
Fixpoint removeDuplicates_from (before l : list Suggestion) : list Suggestion :=
  match l with
  | [] => []
  | suggestion :: r =>
      (if existsb (fun prevSuggestion => sameSuggestion prevSuggestion suggestion) before
       then [] else [suggestion])
      ++ removeDuplicates_from (before ++ [suggestion]) r
  end.

(** [suggestionsWithIds]; [now index] is what [Date.now()] returns in
    the callback run at [index]. *)
Definition validate (now : nat -> Z) (rawSuggestions : list (option RawSuggestion))
    (textLength : Z) : list Suggestion :=
  let filtered := filter (filterRaw textLength) rawSuggestions in
  let mapped := mapi_from (withId now textLength) 0 (flat_map typed filtered) in
  let unique := removeDuplicates_from [] mapped in
  sort (fun a b => start (position a) - start (position b)) unique.

(** ** Reporting a failed check: the error branch of [checkText] *)

(** [s.startsWith(p)], through which [includes] is read. *)
Fixpoint startsWith (s p : jsstring) {struct p} : bool :=
  match p, s with
  | [], _ => true
  | _ :: _, [] => false
  | c :: p', d :: s' => Ascii.eqb c d && startsWith s' p'
  end.

(** [s.includes(searchString)]: the search string stands at some
    position of [s]. *)
Fixpoint includes (s searchString : jsstring) : bool :=
  startsWith s searchString ||
  match s with
  | [] => false
  | _ :: r => includes r searchString
  end.

(** The three toasts of the error branch. *)
Inductive ErrorToast : Type :=
| KeyNotConfigured  (* "OpenAI API key is not configured. Please contact support." *)
| KeyInvalid        (* "Invalid OpenAI API key. Please contact support." *)
| CheckFailed.      (* "Unable to check grammar. Please try again." *)

(** [error.message?.includes(...)]: [undefined], which is falsy, when
    the error carries no message. *)
Definition messageIncludes (message : option jsstring) (searchString : jsstring) : bool :=
  match message with
  | Some m => includes m searchString
  | None => false
  end.

(** The toast chosen at lines 71-89 of the hook. *)
Definition errorToast (message : option jsstring) : ErrorToast :=
  if messageIncludes message (str "OpenAI API key") then KeyNotConfigured
  else if messageIncludes message (str "Invalid OpenAI API key") then KeyInvalid
  else CheckFailed.

(** ** Placing the caret: [setCursorPosition] *)

(** The walk over the text nodes of the element, each node given by the
    length of its text ([node.textContent?.length || 0]).  The result is
    the node, by its rank, and the offset handed to [range.setStart] and
    [range.setEnd]; nothing when the walk ends without reaching
    [position], in which case the range stays as it was created. *)
Fixpoint walkTextNodes (nodeLengths : list nat) (rank : nat)
    (currentPos position : Z) : option (nat * Z) :=
  match nodeLengths with
  | [] => None
  | nodeLength :: rest =>
      if currentPos + Z.of_nat nodeLength >=? position then
        let offsetInNode := position - currentPos in
        Some (rank, Z.min offsetInNode (Z.of_nat nodeLength))
      else
        walkTextNodes rest (S rank) (currentPos + Z.of_nat nodeLength) position
  end.

Definition setCursorPosition (nodeLengths : list nat) (position : Z)
    : option (nat * Z) :=
  walkTextNodes nodeLengths 0 0 position.


(** ** Counting words, and what the editor does with the count *)

(** [s.split(/\s+/)]: the pieces of [s] between maximal runs of white
    space.  [piece] holds the current piece backwards; [inSeparator]
    tells that the last code unit read was white space.  A run at either
    end leaves an empty piece there, and the empty string splits into one
    empty piece. *)
Fixpoint split_from (piece : jsstring) (inSeparator : bool) (s : jsstring)
    : list jsstring :=
  match s with
  | [] => [rev piece]
  | c :: r =>
      if isWhiteSpace c then
        if inSeparator then split_from [] true r
        else rev piece :: split_from [] true r
      else split_from (c :: piece) false r
  end.

Definition splitWhiteSpace (s : jsstring) : list jsstring := split_from [] false s.

(** [text.trim().split(/\s+/).filter(word => word.length > 0)] *)
Definition words (text : jsstring) : list jsstring :=
  filter (fun word => 0 <? JS.length word) (splitWhiteSpace (trim text)).

Definition wordCount (text : jsstring) : Z := Z.of_nat (List.length (words text)).

(** The effect on [content] (lines 125-136): whether [resetForNewText]
    is called. *)
Definition resetsAnalysis (content lastAnalyzedText : jsstring) : bool :=
  let currentWordCount := wordCount content in
  let lastWordCount := wordCount lastAnalyzedText in
  Z.abs (currentWordCount - lastWordCount) >? 3.

(** The effect that asks for a check (lines 139-147): whether
    [checkText] is called.  [user] and [docId] tell whether the two are
    set. *)
Definition callsCheckText (content : jsstring) (user docId : bool)
    (hasCompletedAnalysis : bool) : bool :=
  truthy content && (JS.length (trim content) >? 20) && user && docId &&
  negb hasCompletedAnalysis && (wordCount content >=? 5).

(** The state of the hook that [checkText] reads. *)
Record CheckState : Type := mkCheckState {
  isProcessingSuggestions : bool;
  lastAnalyzedText : jsstring;
  hasCompletedAnalysis : bool
}.

(** How [checkText] goes on after its guards (lines 26-50). *)
Inductive CheckDecision : Type :=
| Skip               (* return, nothing touched *)
| ClearSuggestions   (* suggestions, last text and completion reset *)
| Analyze.           (* the remote function is called *)

Definition checkText_guards (st : CheckState) (text : jsstring) : CheckDecision :=
  if isProcessingSuggestions st then Skip
  else if JS.eqb text (lastAnalyzedText st) && hasCompletedAnalysis st then Skip
  else if negb (truthy text) || (JS.length (trim text) <? 10) then ClearSuggestions
  else if wordCount text <? 3 then ClearSuggestions
  else Analyze.


(** ** The age of the last save: [formatLastSaved] *)

(** [`${n}`] for an integer [n]. *)
Definition showNumber (n : Z) : jsstring :=
  str (NilZero.string_of_int (Z.to_int n)).

(** [lastSaved] and [now] are the two dates in milliseconds
    ([getTime()]); [lastSaved] is [null] before the first save. *)
Definition formatLastSaved (lastSaved : option Z) (now : Z) : jsstring :=
  match lastSaved with
  | None => str "Never saved"
  | Some saved =>
      let diffMs := now - saved in
      let diffMins := diffMs / 60000 in
      if diffMins <? 1 then str "Just saved"
      else if diffMins =? 1 then str "1 minute ago"
      else if diffMins <? 60 then showNumber diffMins ++ str " minutes ago"
      else
        let diffHours := diffMins / 60 in
        if diffHours =? 1 then str "1 hour ago"
        else showNumber diffHours ++ str " hours ago"
  end.


(** ** The remote function: the validation in [check-text] *)

(** An element of the array parsed from the model's answer; [null]
    elements read [None].  String fields that are absent read as the
    empty string, offsets that are absent or no numbers read [None].
    As in the validator of the hook, a field that is present is taken to
    have the type the prompt asks for: a string for [type], [original],
    [correction] and [explanation], an integer for an offset. *)
Record ModelEntry : Type := mkEntry {
  e_type : jsstring;
  e_position : option RawPosition;
  e_original : jsstring;
  e_correction : jsstring;
  e_explanation : jsstring
}.

(** An entry the remote function keeps, with the position it has after
    the first filter. *)
Record Checked : Type := mkChecked {
  c_type : jsstring;
  c_position : Position;
  c_original : jsstring;
  c_correction : jsstring;
  c_explanation : jsstring
}.

(** [s.indexOf(searchString)]: the first position where the search
    string stands, [-1] when there is none. *)
Fixpoint indexOf_from (s searchString : jsstring) (i : Z) : Z :=
  if startsWith s searchString then i
  else
    match s with
    | [] => -1
    | _ :: r => indexOf_from r searchString (i + 1)
    end.

Definition indexOf (s searchString : jsstring) : Z := indexOf_from s searchString 0.

(** The callback of the first [.filter] (lines 166-211): the entry as
    it stands afterwards when it is kept, nothing when it is dropped.
    Reading [suggestion.type] of [null] throws. *)
Definition serverFilter (text : jsstring) (entry : option ModelEntry)
    : run (option Checked) :=
  match entry with
  | None => Thrown
  | Some suggestion =>
      match e_position suggestion with
      | Some (mkRawPosition (Some s) (Some e)) =>
          if negb (truthy (e_type suggestion)) ||
             negb (truthy (e_original suggestion)) ||
             negb (truthy (e_correction suggestion)) ||
             negb (truthy (e_explanation suggestion))
          then Done None
          else if (s <? 0) || (e >? JS.length text) || (s >=? e)
          then Done None
          else
            let actualText := substring text s e in
            let originalLower := trim (toLowerCase (e_original suggestion)) in
            let actualLower := trim (toLowerCase actualText) in
            let position :=
              if negb (JS.eqb actualLower originalLower) then
                let searchText := toLowerCase text in
                let searchWord := originalLower in
                let index := indexOf searchText searchWord in
                if negb (index =? -1)
                then Some (mkPosition index (index + JS.length searchWord))
                else None
              else Some (mkPosition s e) in
            match position with
            | None => Done None
            | Some p =>
                if JS.eqb (trim (toLowerCase (e_original suggestion)))
                          (trim (toLowerCase (e_correction suggestion)))
                then Done None
                else Done (Some (mkChecked (e_type suggestion) p
                                   (e_original suggestion)
                                   (e_correction suggestion)
                                   (e_explanation suggestion)))
            end
      | _ => Done None
      end
  end.

(** [Array.prototype.filter] with a callback that may throw. *)
Fixpoint filterM {A B : Type} (f : A -> run (option B)) (l : list A) : run (list B) :=
  match l with
  | [] => Done []
  | x :: r =>
      y <- f x ;;
      ys <- filterM f r ;;
      Done (match y with Some b => b :: ys | None => ys end)
  end.

(** The second [.filter] (lines 213-219): the span alone is compared. *)
Definition sameSpan (prev suggestion : Checked) : bool :=
  (start (c_position prev) =? start (c_position suggestion)) &&
  (end_ (c_position prev) =? end_ (c_position suggestion)).

Fixpoint serverDedup_from (before l : list Checked) : list Checked :=
  match l with
  | [] => []
  | suggestion :: r =>
      (if existsb (fun prev => sameSpan prev suggestion) before
       then [] else [suggestion])
      ++ serverDedup_from (before ++ [suggestion]) r
  end.

(** What the remote function answers for the parsed array (lines
    164-229): the two filters and the sort, and the empty list when
    anything in them throws. *)
Definition serverSuggestions (text : jsstring) (entries : list (option ModelEntry))
    : list Checked :=
  match filterM (serverFilter text) entries with
  | Done kept =>
      sort (fun a b => start (c_position a) - start (c_position b))
           (serverDedup_from [] kept)
  | _ => []
  end.




(** * Vocabulary of the properties *)

(** The terms of the expression built for [word]. *)
Definition wordTerms (w : jsstring) : list RegExp.term :=
  RegExp.WordBoundary :: map RegExp.Char w ++ [RegExp.WordBoundary].

(** Equality of two strings under the [i] flag. *)
Definition ciEqual (a b : jsstring) : Prop :=
  map RegExp.Canonicalize a = map RegExp.Canonicalize b.

(** The lower-case code unit read back from a canonical one. *)
Definition lowerOfCanonical (n : N) : ascii :=
  if (n =? 924)%N then ascii_of_N 181
  else if (n =? 376)%N then ascii_of_N 255
  else toLowerCase_char (ascii_of_N n).

(** A match as the locator reports it, for the searched word [w]. *)
Record occurrence (text w : jsstring) (m : Match) : Prop := mkOccurrence {
  occ_start : 0 <= m_start m;
  occ_nonempty : m_start m < m_end m;
  occ_end : m_end m <= JS.length text;
  occ_length : m_end m - m_start m = JS.length w;
  occ_text : m_text m = substring text (m_start m) (m_end m);
  occ_ci : toLowerCase (m_text m) = toLowerCase w;
  occ_left : RegExp.atWordBoundary text (Z.to_nat (m_start m)) = true;
  occ_right : RegExp.atWordBoundary text (Z.to_nat (m_end m)) = true
}.

(** Text order without overlap: each match ends before the next starts. *)
Inductive ascending : list Match -> Prop :=
| ascending_nil : ascending []
| ascending_cons (m : Match) (ms : list Match) :
    Forall (fun m' => m_end m <= m_start m') ms ->
    ascending ms -> ascending (m :: ms).

(** Fuel that is enough for a text. *)
Definition enoughFuel (text : jsstring) : nat := S (S (List.length text)).

(** [Math.abs(match.start - suggestion.position.start)] *)
Definition distance (hint : Z) (m : Match) : Z := Z.abs (m_start m - hint).

(** Starts strictly increase along the list. *)
Definition startsIncrease (ms : list Match) : Prop :=
  forall l1 m l2 m', ms = l1 ++ m :: l2 -> In m' l2 -> m_start m < m_start m'.

(** Order by a key. *)
Definition byKey {A : Type} (key : A -> Z) (x y : A) : Prop := key x <= key y.

(** Starts descend along the list. *)
Definition startsDescend (l : list Suggestion) : Prop :=
  StronglySorted
    (fun a b => start (position b) <= start (position a)) l.

(** [text[a:b]], the half-open slice, for [0 <= a <= b <= len(text)]. *)
Definition slice (text : jsstring) (a b : Z) : jsstring :=
  firstn (Z.to_nat (b - a)) (skipn (Z.to_nat a) text).

(** The word, as searched, begins (ends) with a word character. *)
Definition firstIsWord (w : jsstring) : bool :=
  match nth_error w 0 with
  | Some c => RegExp.isBasicWordChar c
  | None => false
  end.

Definition lastIsWord (w : jsstring) : bool :=
  match nth_error w (List.length w - 1) with
  | Some c => RegExp.isBasicWordChar c
  | None => false
  end.

(** The ordering the contract of the locator promises: by distance of
    the start from the hint, then by start. *)
Definition orderedByDistance (hintStart : Z) (ms : list Match) : Prop :=
  StronglySorted
    (fun a b =>
       distance hintStart a < distance hintStart b \/
       (distance hintStart a = distance hintStart b /\
        m_start a <= m_start b))
    ms.

(** The occurrence is delimited: a non-word character or the string
    edge on either side. *)
Definition delimited (text : jsstring) (m : Match) : Prop :=
  RegExp.isWordCharBefore text (Z.to_nat (m_start m)) = false /\
  RegExp.isWordCharAt text (Z.to_nat (m_end m)) = false.

(** The two ways accepting one suggestion ends without an edit: the
    editor is as it was, and the user is told why. *)
Definition NotFound (ed : Editor) (r : run (Editor * Toast)) : Prop :=
  r = Done (ed, InvalidPosition) \/ r = Done (ed, TextChanged).

(** The span the callback of [handleAcceptAllSuggestions] splices
    (lines 467-480): the closest of the locator's matches, or none. *)
Definition acceptAll_span (fuel : nat) (newContent : jsstring) (suggestion : Suggestion)
    : run (option Position) :=
  wordMatches <- findWordBoundaries fuel newContent (original suggestion) 0 ;;
  match wordMatches with
  | [] => Done None
  | first :: _ =>
      let closest := closestMatch first wordMatches (start (position suggestion)) in
      Done (Some (mkPosition (m_start closest) (m_end closest)))
  end.

(** The word [w] stands at position [j] of the text, up to case and
    between two word boundaries of the pattern language. *)
Definition occursAt (text w : jsstring) (j : nat) : Prop :=
  RegExp.atWordBoundary text j = true /\
  (j + List.length w <= List.length text)%nat /\
  toLowerCase (firstn (List.length w) (skipn j text)) = toLowerCase w /\
  RegExp.atWordBoundary text (j + List.length w) = true.

(** The text has a word character somewhere. *)
Definition hasWordChar (text : jsstring) : bool :=
  existsb RegExp.isBasicWordChar text.

(** What the second filter compares: the span and [original]. *)
Definition triple (s : Suggestion) : Z * Z * jsstring :=
  (start (position s), end_ (position s), original s).

(** A validated suggestion as an entry of a batch again. *)
Definition toRaw (s : Suggestion) : option RawSuggestion :=
  Some (mkRaw (type s)
              (Some (mkRawPosition (Some (start (position s)))
                                   (Some (end_ (position s)))))
              (original s) (correction s) (explanation s)).

(** The same suggestion under a new id. *)
Definition renumber (now : nat -> Z) (index : nat) (s : Suggestion) : Suggestion :=
  mkSuggestion (mkId (now index) index) (type s) (position s) (original s)
               (correction s) (explanation s).

(** The length of the text held by a run of text nodes. *)
Definition totalLength (nodeLengths : list nat) : Z :=
  fold_right (fun n acc => Z.of_nat n + acc) 0 nodeLengths.


(** No white space in the string. *)
Definition noWhiteSpace (s : jsstring) : bool :=
  forallb (fun c => negb (isWhiteSpace c)) s.

(** White space only. *)
Definition blank (s : jsstring) : bool := forallb isWhiteSpace s.


(** The piece that ends a word, when there is one. *)
Definition emit (piece : jsstring) : list jsstring :=
  match piece with
  | [] => []
  | _ :: _ => [rev piece]
  end.

(** The words of a text read directly, with the current piece
    backwards in [piece]. *)
Fixpoint tokens (piece : jsstring) (s : jsstring) : list jsstring :=
  match s with
  | [] => emit piece
  | c :: r =>
      if isWhiteSpace c then emit piece ++ tokens [] r
      else tokens (c :: piece) r
  end.

Definition nonEmpty (l : list jsstring) : list jsstring :=
  filter (fun word => 0 <? JS.length word) l.




(** * Properties *)

(** ** The pattern the locator compiles *)

Module RegExpFacts.
Import RegExp.

Lemma escapedClass_syntax (c : ascii) :
  inClass escapedClass c = isSyntaxCharacter c.
Proof.
  destruct c as [[] [] [] [] [] [] [] []]; reflexivity.
Qed.

Lemma syntax_not_b (c : ascii) :
  isSyntaxCharacter c = true -> Ascii.eqb c "b"%char = false.
Proof.
  destruct c as [[] [] [] [] [] [] [] []]; simpl; intros H;
    try reflexivity; discriminate H.
Qed.

Lemma backslash_is_syntax (c : ascii) :
  Ascii.eqb c "\"%char = true -> isSyntaxCharacter c = true.
Proof.
  intros H. apply Ascii.eqb_eq in H. subst c. reflexivity.
Qed.

Lemma escapeSpecials_cons (c : ascii) (w : jsstring) :
  escapeSpecials (c :: w)
  = (if isSyntaxCharacter c then ["\"%char; c] else [c]) ++ escapeSpecials w.
Proof.
  unfold escapeSpecials. cbn [flat_map]. now rewrite escapedClass_syntax.
Qed.

(** The escaped word reads back as the word, character for character. *)
Lemma parsePattern_escape (w rest : jsstring) :
  parsePattern (escapeSpecials w ++ rest)
  = option_map (app (map Char w)) (parsePattern rest).
Proof.
  induction w as [|c w IH].
  - cbn. destruct (parsePattern rest); reflexivity.
  - rewrite escapeSpecials_cons.
    destruct (isSyntaxCharacter c) eqn:Hc.
    + cbn [app parsePattern]. change (Ascii.eqb "\" "\") with true. cbv iota.
      rewrite (syntax_not_b c Hc), Hc, IH.
      destruct (parsePattern rest); reflexivity.
    + cbn [app parsePattern].
      destruct (Ascii.eqb c "\"%char) eqn:Hb.
      * apply backslash_is_syntax in Hb. congruence.
      * rewrite Hc, IH. destruct (parsePattern rest); reflexivity.
Qed.

Lemma new_wordTerms (w : jsstring) :
  new (str "\b" ++ escapeSpecials w ++ str "\b") = Done (mk (wordTerms w) 0).
Proof.
  unfold new. change (str "\b") with ["\"%char; "b"%char].
  cbn [app parsePattern]. change (Ascii.eqb "\" "\") with true.
  change (Ascii.eqb "b" "b") with true. cbv iota.
  rewrite parsePattern_escape. reflexivity.
Qed.

Lemma skipn_nth_error {A : Type} (l : list A) (e : nat) (d : A) :
  nth_error l e = Some d -> skipn e l = d :: skipn (S e) l.
Proof.
  revert e; induction l as [|x l IH]; intros [|e] H; simpl in *;
    try discriminate.
  - now inversion H.
  - now apply IH.
Qed.

Lemma nth_error_lt {A : Type} (l : list A) (e : nat) (d : A) :
  nth_error l e = Some d -> (e < List.length l)%nat.
Proof.
  intros H. apply nth_error_Some. congruence.
Qed.

(** A run of pattern characters consumes exactly as many input units,
    each equal to its pattern character under [Canonicalize]. *)
Lemma matchTerms_chars (w : jsstring) (ts : list term) (input : jsstring) :
  forall (e r : nat),
    matchTerms (map Char w ++ ts) input e = Some r ->
    ciEqual (firstn (List.length w) (skipn e input)) w /\
    ((e <= List.length input)%nat ->
     (e + List.length w <= List.length input)%nat) /\
    matchTerms ts input (e + List.length w) = Some r.
Proof.
  unfold ciEqual.
  induction w as [|c w IH]; intros e r H.
  - cbn in *. rewrite Nat.add_0_r. repeat split; auto.
  - cbn [map app matchTerms] in H.
    destruct (nth_error input e) as [d|] eqn:Hn; [|discriminate].
    destruct (Canonicalize c =? Canonicalize d)%N eqn:Hc; [|discriminate].
    apply N.eqb_eq in Hc.
    destruct (IH _ _ H) as (Hci & Hlen & Hrest).
    rewrite (skipn_nth_error _ _ _ Hn). cbn [List.length firstn map].
    rewrite Hci, Hc. apply nth_error_lt in Hn. repeat split; auto.
    + lia.
    + now replace (e + S (List.length w))%nat with (S e + List.length w)%nat by lia.
Qed.

(** What a successful match of the expression for [w] at [i] says. *)
Lemma matchTerms_wordTerms (w input : jsstring) (i e : nat) :
  matchTerms (wordTerms w) input i = Some e ->
  atWordBoundary input i = true /\
  e = (i + List.length w)%nat /\
  atWordBoundary input e = true /\
  ((i <= List.length input)%nat -> (e <= List.length input)%nat) /\
  ciEqual (firstn (List.length w) (skipn i input)) w.
Proof.
  unfold wordTerms. cbn [matchTerms]. intros H.
  destruct (atWordBoundary input i) eqn:Hl; [|discriminate].
  apply matchTerms_chars in H. destruct H as (Hci & Hlen & H).
  cbn [matchTerms] in H.
  destruct (atWordBoundary input (i + List.length w)) eqn:Hr; [|discriminate].
  inversion H; subst e. auto.
Qed.

Lemma search_Some (ts : list term) (input : jsstring) :
  forall (n i j e : nat),
    search ts input i n = Some (j, e) ->
    (i <= j < i + n)%nat /\ matchTerms ts input j = Some e.
Proof.
  induction n as [|n IH]; intros i j e H; cbn in H; [discriminate|].
  destruct (matchTerms ts input i) as [r|] eqn:Hm.
  - inversion H; subst. split; [lia|assumption].
  - apply IH in H. destruct H; split; [lia|assumption].
Qed.

(** The search does not pass over a position where the terms match. *)
Lemma search_finds (ts : list term) (input : jsstring) :
  forall (n i j e : nat),
    matchTerms ts input j = Some e ->
    (i <= j < i + n)%nat ->
    exists j' e', search ts input i n = Some (j', e') /\ (j' <= j)%nat.
Proof.
  induction n as [|n IH]; intros i j e Hm Hr; [lia|]. cbn.
  destruct (matchTerms ts input i) as [r|] eqn:Hi.
  - exists i, r. split; [reflexivity|lia].
  - destruct (Nat.eq_dec i j) as [->|Hne]; [congruence|].
    apply (IH (S i) j e Hm). lia.
Qed.

Lemma exec_Some (re re' : t) (input : jsstring) (j e : nat) :
  exec re input = (Some (j, e), re') ->
  (lastIndex re <= j <= List.length input)%nat /\
  matchTerms (terms re) input j = Some e /\
  re' = mk (terms re) e.
Proof.
  unfold exec. intros H.
  destruct (search _ _ _ _) as [[j' e']|] eqn:Hs; inversion H; subst.
  apply search_Some in Hs. destruct Hs as [Hr Hm].
  repeat split; auto; lia.
Qed.

Lemma exec_None (re re' : t) (input : jsstring) :
  exec re input = (None, re') -> re' = mk (terms re) 0.
Proof.
  unfold exec. intros H.
  destruct (search _ _ _ _) as [[j' e']|]; now inversion H.
Qed.

(** An empty match leaves [lastIndex] where the match was found, so the
    next call finds the same match again. *)
Lemma exec_empty_again (re : t) (input : jsstring) (i : nat) :
  matchTerms (terms re) input i = Some i ->
  lastIndex re = i ->
  (i <= List.length input)%nat ->
  exec re input = (Some (i, i), mk (terms re) i).
Proof.
  intros Hm Hl Hi. unfold exec. rewrite Hl.
  replace (S (List.length input) - i)%nat
    with (S (List.length input - i)) by lia.
  cbn [search]. now rewrite Hm.
Qed.

End RegExpFacts.

(** ** Strings *)

Module JSFacts.

Lemma length_nonneg (s : jsstring) : 0 <= JS.length s.
Proof. unfold JS.length. lia. Qed.

Lemma length_app (a b : jsstring) : JS.length (a ++ b) = JS.length a + JS.length b.
Proof. unfold JS.length. rewrite List.length_app. lia. Qed.

Lemma eqb_eq (a b : jsstring) : JS.eqb a b = true <-> a = b.
Proof.
  unfold JS.eqb. destruct (list_eq_dec ascii_dec a b); split; congruence.
Qed.

Lemma eqb_neq (a b : jsstring) : JS.eqb a b = false <-> a <> b.
Proof.
  unfold JS.eqb. destruct (list_eq_dec ascii_dec a b); split; congruence.
Qed.

(** Inside the string, [substring] is the plain slice. *)
Lemma substring_slice (s : jsstring) (a b : Z) :
  0 <= a <= b -> b <= JS.length s ->
  substring s a b = firstn (Z.to_nat (b - a)) (skipn (Z.to_nat a) s).
Proof.
  intros Ha Hb. unfold substring, clamp.
  replace (Z.min (Z.max a 0) (JS.length s)) with a by lia.
  replace (Z.min (Z.max b 0) (JS.length s)) with b by lia.
  replace (Z.min a b) with a by lia.
  replace (Z.max a b) with b by lia.
  reflexivity.
Qed.

Lemma substring_prefix (s : jsstring) (a : Z) :
  0 <= a <= JS.length s -> substring s 0 a = firstn (Z.to_nat a) s.
Proof.
  intros Ha. rewrite substring_slice by lia.
  now rewrite Z.sub_0_r.
Qed.

Lemma substring_suffix (s : jsstring) (b : Z) :
  0 <= b <= JS.length s -> substring_from s b = skipn (Z.to_nat b) s.
Proof.
  intros Hb. unfold substring_from. rewrite substring_slice by lia.
  apply firstn_all2. rewrite List.length_skipn. unfold JS.length. lia.
Qed.

Lemma lower_of_Canonicalize (c : ascii) :
  lowerOfCanonical (RegExp.Canonicalize c) = toLowerCase_char c.
Proof. destruct c as [[] [] [] [] [] [] [] []]; reflexivity. Qed.

Lemma Canonicalize_lower (c : ascii) :
  RegExp.Canonicalize (toLowerCase_char c) = RegExp.Canonicalize c.
Proof. destruct c as [[] [] [] [] [] [] [] []]; reflexivity. Qed.

Lemma Canonicalize_iff_lower (c d : ascii) :
  RegExp.Canonicalize c = RegExp.Canonicalize d
  <-> toLowerCase_char c = toLowerCase_char d.
Proof.
  split; intros H.
  - now rewrite <- !lower_of_Canonicalize, H.
  - now rewrite <- (Canonicalize_lower c), H, Canonicalize_lower.
Qed.

Lemma ciEqual_iff_lower (a b : jsstring) :
  ciEqual a b <-> toLowerCase a = toLowerCase b.
Proof.
  unfold ciEqual, toLowerCase.
  revert b; induction a as [|c a IH]; intros [|d b]; cbn; split;
    intros H; try discriminate; auto;
    inversion H as [[H1 H2]]; f_equal.
  - now apply Canonicalize_iff_lower.
  - now apply IH.
  - now apply Canonicalize_iff_lower.
  - now apply IH.
Qed.

Lemma isWhiteSpace_lower (c : ascii) :
  isWhiteSpace (toLowerCase_char c) = isWhiteSpace c.
Proof. destruct c as [[] [] [] [] [] [] [] []]; reflexivity. Qed.

Lemma isBasicWordChar_lower (c : ascii) :
  RegExp.isBasicWordChar (toLowerCase_char c) = RegExp.isBasicWordChar c.
Proof. destruct c as [[] [] [] [] [] [] [] []]; reflexivity. Qed.

Lemma toLowerCase_idem (s : jsstring) : toLowerCase (toLowerCase s) = toLowerCase s.
Proof.
  unfold toLowerCase. rewrite map_map. apply map_ext.
  intros c. destruct c as [[] [] [] [] [] [] [] []]; reflexivity.
Qed.

Lemma trimStart_lower (s : jsstring) :
  trimStart (toLowerCase s) = toLowerCase (trimStart s).
Proof.
  induction s as [|c s IH]; cbn; auto.
  rewrite isWhiteSpace_lower. destruct (isWhiteSpace c); auto.
Qed.

(** [toLowerCase] and [trim] commute. *)
Lemma trim_lower (s : jsstring) : trim (toLowerCase s) = toLowerCase (trim s).
Proof.
  unfold trim, trimEnd. rewrite trimStart_lower.
  unfold toLowerCase at 1. rewrite <- map_rev.
  fold (toLowerCase (rev (trimStart s))). rewrite trimStart_lower.
  unfold toLowerCase. now rewrite map_rev.
Qed.

Lemma length_lower (s : jsstring) : JS.length (toLowerCase s) = JS.length s.
Proof. unfold JS.length, toLowerCase. now rewrite List.length_map. Qed.

End JSFacts.

(** ** The locator *)

Module LocatorFacts.
Import RegExp RegExpFacts JSFacts.

#[local] Hint Constructors ascending : core.

Section Loop.
Variables (text w : jsstring).

(** Once an empty match is found the loop never leaves it. *)
Lemma loop_empty_match (fuel : nat) :
  forall (re : RegExp.t) (acc : list Match) (i : nat),
    matchTerms (terms re) text i = Some i ->
    lastIndex re = i ->
    (i <= List.length text)%nat ->
    findWordBoundaries_loop fuel re text acc = OutOfFuel.
Proof.
  induction fuel as [|fuel IH]; intros re acc i Hm Hl Hi; cbn; auto.
  rewrite (exec_empty_again re text i Hm Hl Hi).
  apply (IH _ _ i); auto.
Qed.

Lemma loop_not_Thrown (fuel : nat) :
  forall (re : RegExp.t) (acc : list Match),
    findWordBoundaries_loop fuel re text acc <> Thrown.
Proof.
  induction fuel as [|fuel IH]; intros re acc; cbn; [discriminate|].
  destruct (exec re text) as [[[i e]|] re']; [apply IH|discriminate].
Qed.

(** The matches a run adds: occurrences of [w], from [lastIndex] on,
    in text order. *)
Lemma loop_Done (fuel : nat) :
  forall (re : RegExp.t) (acc ms : list Match),
    terms re = wordTerms w ->
    findWordBoundaries_loop fuel re text acc = Done ms ->
    exists added,
      ms = acc ++ added /\
      Forall (fun m => occurrence text w m /\
                       Z.of_nat (lastIndex re) <= m_start m) added /\
      ascending added.
Proof.
  induction fuel as [|fuel IH]; intros re acc ms Hre H; cbn in H;
    [discriminate|].
  destruct (exec re text) as [[[i e]|] re'] eqn:Hx.
  - apply exec_Some in Hx. destruct Hx as (Hi & Hm & ->).
    rewrite Hre in Hm.
    destruct (matchTerms_wordTerms _ _ _ _ Hm) as (Hl & He & Hr & Hle & Hci).
    specialize (Hle (proj2 Hi)).
    destruct w as [|c w'] eqn:Hw.
    + (* the empty word: the loop cannot have returned *)
      cbn in He. rewrite Nat.add_0_r in He. subst e.
      rewrite (loop_empty_match fuel (mk (terms re) i) _ i) in H;
        cbn; auto; [discriminate|]. now rewrite Hre.
    + rewrite <- Hw in *.
      assert (Hpos : (0 < List.length w)%nat) by (rewrite Hw; cbn; lia).
      apply IH in H; [|assumption]. destruct H as (added & -> & Hall & Hasc).
      set (m0 := firstn (e - i) (skipn i text)) in *.
      assert (Hm0 : List.length m0 = List.length w).
      { unfold m0. rewrite List.length_firstn, List.length_skipn. lia. }
      set (m := mkMatch (Z.of_nat i) (Z.of_nat i + JS.length m0) m0).
      exists (m :: added). split; [now rewrite <- app_assoc|].
      assert (Hend : m_end m = Z.of_nat e).
      { cbn. unfold JS.length. lia. }
      split; [constructor; [split|]|constructor; auto].
      * constructor; rewrite ?Hend; cbn [m_start m_text m];
          unfold JS.length; try lia.
        -- rewrite substring_slice by (unfold JS.length; lia).
           unfold m0. f_equal; [lia|]. now rewrite Nat2Z.id.
        -- apply ciEqual_iff_lower. unfold m0.
           replace (e - i)%nat with (List.length w) by lia. exact Hci.
        -- now rewrite Nat2Z.id.
        -- now rewrite Nat2Z.id.
      * cbn. lia.
      * eapply Forall_impl; [|exact Hall]. cbn.
        intros m' [Ho Hs]. split; [assumption|lia].
      * eapply Forall_impl; [|exact Hall]. cbn [lastIndex].
        intros m' [_ Hs]. rewrite Hend. exact Hs.
  - inversion H; subst. exists []. rewrite app_nil_r. auto.
Qed.

(** With a non-empty word every match moves [lastIndex] forward, and
    the loop is over after at most one call per position. *)
Lemma loop_terminates (fuel : nat) :
  w <> [] ->
  forall (re : RegExp.t) (acc : list Match),
    terms re = wordTerms w ->
    (S (List.length text) - lastIndex re < fuel)%nat ->
    exists ms, findWordBoundaries_loop fuel re text acc = Done ms.
Proof.
  intros Hw.
  induction fuel as [|fuel IH]; intros re acc Hre Hf; [lia|]. cbn.
  destruct (exec re text) as [[[i e]|] re'] eqn:Hx; [|eauto].
  apply exec_Some in Hx. destruct Hx as (Hi & Hm & ->).
  rewrite Hre in Hm.
  destruct (matchTerms_wordTerms _ _ _ _ Hm) as (_ & He & _ & Hle & _).
  specialize (Hle (proj2 Hi)).
  assert (0 < List.length w)%nat by (destruct w; [congruence|cbn; lia]).
  apply IH; cbn [terms lastIndex]; [assumption|lia].
Qed.
End Loop.

Lemma findWordBoundaries_unfold (fuel : nat) (text word : jsstring) (hint : Z) :
  findWordBoundaries fuel text word hint
  = findWordBoundaries_loop fuel (mk (wordTerms (searchWord word)) 0) text [].
Proof.
  unfold findWordBoundaries, patternSource. now rewrite new_wordTerms.
Qed.

(** With an empty search word (a word of white space only) the
    expression is [\b\b]: as soon as the text has a word boundary the
    loop finds an empty match there and never returns. *)
Lemma findWordBoundaries_empty_word_hangs (fuel : nat) (text word : jsstring)
    (hint : Z) (i : nat) :
  searchWord word = [] ->
  (i <= List.length text)%nat ->
  atWordBoundary text i = true ->
  findWordBoundaries fuel text word hint = OutOfFuel.
Proof.
  intros Hw Hi Hb. rewrite findWordBoundaries_unfold, Hw.
  destruct fuel as [|fuel]; [reflexivity|]. cbn [findWordBoundaries_loop].
  assert (Hm : matchTerms (wordTerms []) text i = Some i).
  { cbn. now rewrite Hb. }
  destruct (search_finds (wordTerms []) text (S (List.length text)) 0 i i Hm)
    as (j & e & Hs & Hj); [lia|].
  unfold exec. cbn [terms lastIndex]. rewrite Nat.sub_0_r, Hs.
  apply search_Some in Hs. destruct Hs as [_ Hmj].
  destruct (matchTerms_wordTerms _ _ _ _ Hmj) as (_ & He & _).
  cbn in He. rewrite Nat.add_0_r in He. subst e.
  apply (loop_empty_match text fuel _ _ j); cbn [terms lastIndex]; auto. lia.
Qed.

(** The expression is always well formed: the locator never throws. *)
Lemma findWordBoundaries_not_Thrown (fuel : nat) (text word : jsstring) (hint : Z) :
  findWordBoundaries fuel text word hint <> Thrown.
Proof.
  rewrite findWordBoundaries_unfold. apply loop_not_Thrown.
Qed.

Lemma findWordBoundaries_Done (fuel : nat) (text word : jsstring) (hint : Z)
    (ms : list Match) :
  findWordBoundaries fuel text word hint = Done ms ->
  Forall (occurrence text (searchWord word)) ms /\ ascending ms.
Proof.
  rewrite findWordBoundaries_unfold. intros H.
  apply (loop_Done text (searchWord word)) in H; [|reflexivity].
  destruct H as (added & -> & Hall & Hasc). cbn. split; auto.
  eapply Forall_impl; [|exact Hall]. now intros m [Ho _].
Qed.

Lemma findWordBoundaries_terminates (fuel : nat) (text word : jsstring) (hint : Z) :
  searchWord word <> [] ->
  (enoughFuel text <= fuel)%nat ->
  exists ms, findWordBoundaries fuel text word hint = Done ms.
Proof.
  intros Hw Hf. rewrite findWordBoundaries_unfold.
  unfold enoughFuel in Hf.
  apply (loop_terminates text (searchWord word)); cbn [terms lastIndex];
    [assumption|reflexivity|lia].
Qed.

End LocatorFacts.

(** ** The closest match *)

Module ClosestFacts.
Import LocatorFacts.

(** The candidate kept by the selection loop: either the initial one,
    never beaten, or the first element strictly closer than all before
    it and not beaten afterwards. *)
Lemma closerStep_fold (hint : Z) (l : list Match) :
  forall (c : Match) (d : Z),
    d = distance hint c ->
    let r := fold_left (closerStep hint) l (c, d) in
    snd r = distance hint (fst r) /\
    ((fst r = c /\ Forall (fun m => d <= distance hint m) l) \/
     (exists l1 l2,
        l = l1 ++ fst r :: l2 /\
        Forall (fun m => snd r < distance hint m) l1 /\
        Forall (fun m => snd r <= distance hint m) l2 /\
        snd r < d)).
Proof.
  induction l as [|m l IH]; intros c d Hd; cbn [fold_left].
  - cbn. split; [assumption|]. left. split; auto.
  - assert (Hstep : closerStep hint (c, d) m
                    = if distance hint m <? d then (m, distance hint m) else (c, d))
      by reflexivity.
    rewrite Hstep. clear Hstep.
    destruct (distance hint m <? d) eqn:Hlt.
    + apply Z.ltb_lt in Hlt.
      destruct (IH m (distance hint m) eq_refl) as [Hs [[Hf Hall]|(l1 & l2 & Hl & H1 & H2 & H3)]].
      * split; [assumption|]. right. exists [], l. cbn.
        rewrite Hf in *. rewrite Hs. repeat split; auto.
      * split; [assumption|]. right. exists (m :: l1), l2.
        repeat split; auto; [cbn; now f_equal|lia].
    + apply Z.ltb_ge in Hlt.
      destruct (IH c d Hd) as [Hs [[Hf Hall]|(l1 & l2 & Hl & H1 & H2 & H3)]].
      * split; [assumption|]. left. split; auto.
      * split; [assumption|]. right. exists (m :: l1), l2.
        repeat split; auto; [cbn; now f_equal|].
        constructor; [lia|assumption].
Qed.

Lemma ascending_startsIncrease (ms : list Match) :
  Forall (fun m => m_start m < m_end m) ms ->
  ascending ms -> startsIncrease ms.
Proof.
  intros Hne Hasc. induction Hasc as [|m ms Hall Hasc IH];
    intros l1 x l2 x' Heq Hin.
  - destruct l1; discriminate.
  - inversion Hne as [|? ? Hm Hne']; subst.
    destruct l1 as [|y l1]; cbn in Heq; inversion Heq; subst.
    + rewrite Forall_forall in Hall. specialize (Hall _ Hin). lia.
    + eapply IH; eauto.
Qed.

(** The match both handlers pick among the locator's matches: it is
    one of them, none is closer to the hint, and among the equally close
    ones it starts first. *)
Lemma closestMatch_spec (hint : Z) (first : Match) (rest : list Match) :
  startsIncrease (first :: rest) ->
  let c := closestMatch first (first :: rest) hint in
  In c (first :: rest) /\
  (forall m, In m (first :: rest) -> distance hint c <= distance hint m) /\
  (forall m, In m (first :: rest) ->
             distance hint m = distance hint c -> m_start c <= m_start m).
Proof.
  intros Hinc c.
  pose proof (closerStep_fold hint (first :: rest) first
                (distance hint first) eq_refl) as H.
  cbv zeta in H.
  assert (Hc : c = fst (fold_left (closerStep hint) (first :: rest)
                          (first, distance hint first))) by reflexivity.
  rewrite <- Hc in H.
  destruct H as [Hs [[Hf Hall]|(l1 & l2 & Hl & H1 & H2 & H3)]].
  - rewrite Hf. rewrite Forall_forall in Hall.
    split; [now left|]. split; [exact Hall|].
    intros m [<-|Hin] _; [lia|].
    specialize (Hinc [] first rest m eq_refl Hin). lia.
  - rewrite Hs in *. rewrite Forall_forall in H1, H2.
    split; [rewrite Hl; apply in_or_app; right; now left|].
    split.
    + intros m Hin. rewrite Hl in Hin. apply in_app_or in Hin.
      destruct Hin as [Hin|[<-|Hin]]; [specialize (H1 _ Hin)| |auto]; lia.
    + intros m Hin Heq. rewrite Hl in Hin. apply in_app_or in Hin.
      destruct Hin as [Hin|[<-|Hin]].
      * specialize (H1 _ Hin). lia.
      * lia.
      * specialize (Hinc l1 c l2 m Hl Hin). lia.
Qed.

End ClosestFacts.

(** ** Fuel *)

Module FuelFacts.
Import LocatorFacts.

(** A run that has finished is not changed by more fuel. *)
Lemma loop_fuel_mono (text : jsstring) (fuel : nat) :
  forall (fuel' : nat) (re : RegExp.t) (acc ms : list Match),
    (fuel <= fuel')%nat ->
    findWordBoundaries_loop fuel re text acc = Done ms ->
    findWordBoundaries_loop fuel' re text acc = Done ms.
Proof.
  induction fuel as [|fuel IH]; intros [|fuel'] re acc ms Hle H;
    cbn in *; try discriminate; try lia.
  destruct (RegExp.exec re text) as [[[i e]|] re']; auto.
  apply IH; [lia|assumption].
Qed.

Lemma findWordBoundaries_fuel_mono (fuel fuel' : nat) (text word : jsstring)
    (hint : Z) (ms : list Match) :
  (fuel <= fuel')%nat ->
  findWordBoundaries fuel text word hint = Done ms ->
  findWordBoundaries fuel' text word hint = Done ms.
Proof.
  rewrite !findWordBoundaries_unfold. apply loop_fuel_mono.
Qed.

Lemma reconcile_fuel_mono (fuel fuel' : nat) (text : jsstring) (s : Suggestion)
    (r : option Position) :
  (fuel <= fuel')%nat ->
  reconcile fuel text s = Done r -> reconcile fuel' text s = Done r.
Proof.
  intros Hle. unfold reconcile.
  destruct (JS.eqb _ _); auto.
  destruct (JS.eqb _ _); auto.
  destruct (findWordBoundaries fuel text (original s) 0) as [ms| |] eqn:Hf;
    cbn; try discriminate.
  now rewrite (findWordBoundaries_fuel_mono _ _ _ _ _ _ Hle Hf).
Qed.

Lemma handleAcceptSuggestion_fuel_mono (fuel fuel' : nat) (ed : Editor)
    (s : Suggestion) (r : Editor * Toast) :
  (fuel <= fuel')%nat ->
  handleAcceptSuggestion fuel ed s = Done r ->
  handleAcceptSuggestion fuel' ed s = Done r.
Proof.
  intros Hle. unfold handleAcceptSuggestion.
  destruct (_ || _); auto.
  destruct (reconcile fuel (content ed) s) as [p| |] eqn:Hr;
    cbn; try discriminate.
  now rewrite (reconcile_fuel_mono _ _ _ _ _ Hle Hr).
Qed.

Lemma acceptAll_step_fuel_mono (fuel fuel' : nat) (st st' : jsstring * nat)
    (s : Suggestion) :
  (fuel <= fuel')%nat ->
  acceptAll_step fuel st s = Done st' -> acceptAll_step fuel' st s = Done st'.
Proof.
  intros Hle. unfold acceptAll_step. destruct st as [newContent appliedCount].
  destruct (findWordBoundaries fuel newContent (original s) 0) as [ms| |] eqn:Hf;
    cbn; try discriminate.
  now rewrite (findWordBoundaries_fuel_mono _ _ _ _ _ _ Hle Hf).
Qed.

Lemma forEach_fuel_mono (fuel fuel' : nat) (l : list Suggestion) :
  (fuel <= fuel')%nat ->
  forall st st',
    forEach (acceptAll_step fuel) l st = Done st' ->
    forEach (acceptAll_step fuel') l st = Done st'.
Proof.
  intros Hle. induction l as [|s l IH]; intros st st' H; cbn in *; auto.
  destruct (acceptAll_step fuel st s) as [st1| |] eqn:Hs; cbn in H;
    try discriminate.
  rewrite (acceptAll_step_fuel_mono _ _ _ _ _ Hle Hs). cbn. auto.
Qed.

Lemma applyAll_fuel_mono (fuel fuel' : nat) (text : jsstring)
    (l : list Suggestion) (r : jsstring * nat) :
  (fuel <= fuel')%nat ->
  applyAll fuel text l = Done r -> applyAll fuel' text l = Done r.
Proof.
  intros Hle. now apply forEach_fuel_mono.
Qed.

(** Neither handler lets an exception escape. *)
Lemma reconcile_not_Thrown (fuel : nat) (text : jsstring) (s : Suggestion) :
  reconcile fuel text s <> Thrown.
Proof.
  unfold reconcile.
  destruct (JS.eqb _ _); [discriminate|].
  destruct (JS.eqb _ _); [discriminate|].
  pose proof (findWordBoundaries_not_Thrown fuel text (original s) 0) as H.
  destruct (findWordBoundaries fuel text (original s) 0) as [[|m ms]| |];
    cbn; congruence.
Qed.

Lemma acceptAll_step_not_Thrown (fuel : nat) (st : jsstring * nat) (s : Suggestion) :
  acceptAll_step fuel st s <> Thrown.
Proof.
  unfold acceptAll_step. destruct st as [newContent appliedCount].
  pose proof (findWordBoundaries_not_Thrown fuel newContent (original s) 0) as H.
  destruct (findWordBoundaries fuel newContent (original s) 0) as [[|m ms]| |];
    cbn; congruence.
Qed.

End FuelFacts.

(** ** Sorting *)

Module SortFacts.

Section Keyed.
Context {A : Type} (compare : A -> A -> Z) (key : A -> Z).
Hypothesis compare_key : forall x y, compare x y <= 0 <-> key x <= key y.

Lemma insertSorted_Permutation (x : A) (l : list A) :
  Permutation (insertSorted compare x l) (x :: l).
Proof.
  induction l as [|y l IH]; cbn; auto.
  destruct (compare x y <=? 0); auto.
  rewrite IH. apply perm_swap.
Qed.

Lemma sort_Permutation (l : list A) : Permutation (sort compare l) l.
Proof.
  induction l as [|x l IH]; cbn; auto.
  rewrite insertSorted_Permutation. now constructor.
Qed.

Lemma insertSorted_sorted (x : A) (l : list A) :
  StronglySorted (byKey key) l ->
  StronglySorted (byKey key) (insertSorted compare x l).
Proof.
  induction 1 as [|y l Hs IH Hall]; cbn.
  - repeat constructor.
  - destruct (compare x y <=? 0) eqn:Hc.
    + apply Z.leb_le, compare_key in Hc.
      constructor; [now constructor|].
      constructor; [exact Hc|].
      eapply Forall_impl; [|exact Hall]. unfold byKey in *. intros; lia.
    + apply Z.leb_gt in Hc.
      assert (key y <= key x).
      { destruct (Z.le_gt_cases (key x) (key y)) as [Hle|Hgt]; [|lia].
        apply compare_key in Hle. lia. }
      constructor; [assumption|].
      rewrite Forall_forall in *. intros z Hz.
      apply (Permutation_in _ (insertSorted_Permutation x l)) in Hz.
      destruct Hz as [<-|Hz]; [assumption|auto].
Qed.

Lemma sort_sorted (l : list A) : StronglySorted (byKey key) (sort compare l).
Proof.
  induction l as [|x l IH]; cbn; [constructor|].
  now apply insertSorted_sorted.
Qed.
End Keyed.

Lemma sortedSuggestions_Permutation (l : list Suggestion) :
  Permutation (sortedSuggestions l) l.
Proof. apply sort_Permutation. Qed.

Lemma sortedSuggestions_descend (l : list Suggestion) :
  startsDescend (sortedSuggestions l).
Proof.
  unfold startsDescend, sortedSuggestions.
  assert (H : StronglySorted (byKey (fun a => - start (position a)))
                (sort (fun a b => start (position b) - start (position a)) l)).
  { apply sort_sorted. intros x y. lia. }
  induction H as [|a l' Hs IH Hall]; constructor; auto.
  eapply Forall_impl; [|exact Hall]. unfold byKey. intros; lia.
Qed.

End SortFacts.

(** ** The validator *)

Module ValidatorFacts.
Import JSFacts SortFacts.

Lemma truthy_iff (s : jsstring) : truthy s = true <-> s <> [].
Proof. destruct s; cbn; split; congruence. Qed.

(** What the first filter lets through. *)
Lemma filterRaw_true_iff (textLength : Z) (r : RawSuggestion) :
  filterRaw textLength (Some r) = true <->
  exists s e,
    raw_position r = Some (mkRawPosition (Some s) (Some e)) /\
    0 <= s /\ e <= textLength /\ s < e /\
    raw_original r <> [] /\ raw_correction r <> [] /\
    raw_explanation r <> [] /\
    raw_original r <> raw_correction r.
Proof.
  unfold filterRaw.
  destruct (raw_position r) as [[[s|] [e|]]|].
  2-5: cbn; split; [discriminate|intros (s' & e' & H & _); discriminate].
  cbn [raw_start raw_end].
  rewrite !andb_true_iff, negb_true_iff, eqb_neq, !truthy_iff.
  rewrite Z.geb_le, Z.leb_le, Z.ltb_lt.
  split.
  - intros H. exists s, e. intuition.
  - intros (s' & e' & Heq & H). inversion Heq; subst. intuition.
Qed.

Lemma typed_filterRaw (textLength : Z) (entry : option RawSuggestion) :
  filterRaw textLength entry = true -> List.length (typed entry) = 1%nat.
Proof.
  destruct entry as [r|]; [|discriminate]. intros H.
  apply filterRaw_true_iff in H. destruct H as (s & e & Hp & _).
  cbn. now rewrite Hp.
Qed.

Lemma In_typed (entry : option RawSuggestion) (s e : Z) (r : RawSuggestion) :
  In (s, e, r) (typed entry) ->
  entry = Some r /\ raw_position r = Some (mkRawPosition (Some s) (Some e)).
Proof.
  destruct entry as [r'|]; cbn; [|tauto].
  destruct (raw_position r') as [[[s'|] [e'|]]|] eqn:Hp; cbn; try tauto.
  intros [H|[]]. inversion H; subst. auto.
Qed.

Lemma In_mapi_from {A B : Type} (f : nat -> A -> B) (l : list A) :
  forall (index : nat) (y : B),
    In y (mapi_from f index l) -> exists i x, In x l /\ y = f i x.
Proof.
  induction l as [|x l IH]; intros index y H; cbn in H; [tauto|].
  destruct H as [<-|H]; [exists index, x; cbn; auto|].
  destruct (IH _ _ H) as (i & x' & Hin & ->). exists i, x'. cbn; auto.
Qed.

Lemma In_removeDuplicates_from (l : list Suggestion) :
  forall before x, In x (removeDuplicates_from before l) -> In x l.
Proof.
  induction l as [|s l IH]; intros before x H; cbn in H; [tauto|].
  apply in_app_or in H. destruct H as [H|H]; [|right; eauto].
  destruct (existsb _ before); cbn in H; [tauto|]. destruct H; [now left|tauto].
Qed.

(** The clamp of the [.map] callback leaves a span that passed the
    filter as it was. *)
Lemma withId_in_range (now : nat -> Z) (textLength : Z) (index : nat)
    (s e : Z) (r : RawSuggestion) :
  0 <= s -> e <= textLength -> s < e ->
  position (withId now textLength index (s, e, r)) = mkPosition s e.
Proof.
  intros Hs He Hlt. cbn. f_equal; lia.
Qed.

(** Every suggestion of the result is an entry that passed the first
    filter, with its id added. *)
Lemma validate_origin (now : nat -> Z) (raws : list (option RawSuggestion))
    (textLength : Z) (sug : Suggestion) :
  In sug (validate now raws textLength) ->
  exists index s e r,
    In (Some r) raws /\
    filterRaw textLength (Some r) = true /\
    raw_position r = Some (mkRawPosition (Some s) (Some e)) /\
    sug = withId now textLength index (s, e, r).
Proof.
  unfold validate. intros H.
  apply (Permutation_in _ (sort_Permutation _ _)) in H.
  apply In_removeDuplicates_from in H.
  apply In_mapi_from in H. destruct H as (index & [[s e] r] & Hin & ->).
  apply in_flat_map in Hin. destruct Hin as (entry & Hf & Ht).
  apply In_typed in Ht. destruct Ht as [-> Hp].
  apply filter_In in Hf. destruct Hf as [Hin Hf].
  exists index, s, e, r. auto.
Qed.

End ValidatorFacts.

(** * The claims *)

Module ClaimFacts.
Import RegExp RegExpFacts JSFacts LocatorFacts ClosestFacts.

Lemma ascending_disjoint (ms : list Match) :
  ascending ms -> StronglySorted (fun a b => m_end a <= m_start b) ms.
Proof. induction 1; constructor; auto. Qed.

Lemma occurrences_startsIncrease (text w : jsstring) (ms : list Match) :
  Forall (occurrence text w) ms -> ascending ms -> startsIncrease ms.
Proof.
  intros Hall. apply ascending_startsIncrease.
  eapply Forall_impl; [|exact Hall]. intros m Ho. apply (occ_nonempty _ _ _ Ho).
Qed.

Lemma occurrences_starts_sorted (text w : jsstring) (ms : list Match) :
  Forall (occurrence text w) ms -> ascending ms ->
  StronglySorted (fun a b => m_start a < m_start b) ms.
Proof.
  intros Hall Hasc. induction Hasc as [|m ms Hm Hasc IH]; constructor.
  - apply IH. now inversion Hall.
  - inversion Hall as [|? ? Ho _]; subst.
    eapply Forall_impl; [|exact Hm]. cbn. intros m' Hle.
    pose proof (occ_nonempty _ _ _ Ho). lia.
Qed.

(** The code units of an occurrence are those of the word, position by
    position, up to case. *)
Lemma occurrence_nth (text w : jsstring) (m : Match) (k : nat) (c : ascii) :
  occurrence text w m ->
  nth_error w k = Some c ->
  exists d, nth_error text (Z.to_nat (m_start m) + k) = Some d /\
            toLowerCase_char d = toLowerCase_char c.
Proof.
  intros Ho Hk.
  pose proof (occ_ci _ _ _ Ho) as Hci.
  pose proof (occ_text _ _ _ Ho) as Ht.
  pose proof (occ_start _ _ _ Ho). pose proof (occ_nonempty _ _ _ Ho).
  pose proof (occ_end _ _ _ Ho). pose proof (occ_length _ _ _ Ho) as Hlen.
  rewrite substring_slice in Ht by lia.
  assert (Hkl : (k < List.length w)%nat) by (apply nth_error_Some; congruence).
  assert (Hn : nth_error (toLowerCase (m_text m)) k = Some (toLowerCase_char c)).
  { rewrite Hci. unfold toLowerCase. rewrite nth_error_map, Hk. reflexivity. }
  unfold toLowerCase in Hn. rewrite nth_error_map in Hn.
  destruct (nth_error (m_text m) k) as [d|] eqn:Hd; [|discriminate].
  exists d. split; [|now inversion Hn].
  rewrite Ht, nth_error_firstn, nth_error_skipn in Hd.
  destruct (Nat.ltb k _); [assumption|discriminate].
Qed.

Lemma occurrence_left_edge (text w : jsstring) (m : Match) :
  occurrence text w m -> firstIsWord w = true ->
  isWordCharBefore text (Z.to_nat (m_start m)) = false.
Proof.
  intros Ho Hw. unfold firstIsWord in Hw.
  destruct (nth_error w 0) as [c|] eqn:Hc; [|discriminate].
  destruct (occurrence_nth _ _ _ _ _ Ho Hc) as (d & Hd & Hl).
  rewrite Nat.add_0_r in Hd.
  pose proof (occ_left _ _ _ Ho) as Hb. unfold atWordBoundary in Hb.
  assert (Hat : isWordCharAt text (Z.to_nat (m_start m)) = true).
  { unfold isWordCharAt. rewrite Hd.
    now rewrite <- isBasicWordChar_lower, Hl, isBasicWordChar_lower. }
  rewrite Hat in Hb. now destruct (isWordCharBefore _ _).
Qed.

Lemma occurrence_right_edge (text w : jsstring) (m : Match) :
  occurrence text w m -> lastIsWord w = true ->
  isWordCharAt text (Z.to_nat (m_end m)) = false.
Proof.
  intros Ho Hw. unfold lastIsWord in Hw.
  destruct (nth_error w (List.length w - 1)) as [c|] eqn:Hc; [|discriminate].
  destruct (occurrence_nth _ _ _ _ _ Ho Hc) as (d & Hd & Hl).
  pose proof (occ_start _ _ _ Ho). pose proof (occ_nonempty _ _ _ Ho).
  pose proof (occ_length _ _ _ Ho) as Hlen. unfold JS.length in Hlen.
  pose proof (occ_right _ _ _ Ho) as Hb. unfold atWordBoundary in Hb.
  replace (Z.to_nat (m_start m) + (List.length w - 1))%nat
    with (Z.to_nat (m_end m) - 1)%nat in Hd by lia.
  assert (Hbefore : isWordCharBefore text (Z.to_nat (m_end m)) = true).
  { destruct (Z.to_nat (m_end m)) as [|p] eqn:Hp; [lia|].
    cbn. unfold isWordCharAt.
    replace (S p - 1)%nat with p in Hd by lia. rewrite Hd.
    now rewrite <- isBasicWordChar_lower, Hl, isBasicWordChar_lower. }
  rewrite Hbefore in Hb. now destruct (isWordCharAt _ _).
Qed.

Lemma searchWord_trim (word : jsstring) : searchWord word = toLowerCase (trim word).
Proof. apply trim_lower. Qed.

Lemma searchWord_nil_iff (word : jsstring) : searchWord word = [] <-> trim word = [].
Proof.
  rewrite searchWord_trim. unfold toLowerCase.
  destruct (trim word); cbn; split; congruence.
Qed.

End ClaimFacts.

(** ** Claims about the locator *)

Lemma firstIsWord_lower (w : jsstring) : firstIsWord (toLowerCase w) = firstIsWord w.
Proof.
  destruct w as [|c w]; cbn; auto. unfold firstIsWord. cbn.
  apply JSFacts.isBasicWordChar_lower.
Qed.

Lemma lastIsWord_lower (w : jsstring) : lastIsWord (toLowerCase w) = lastIsWord w.
Proof.
  unfold lastIsWord, toLowerCase. rewrite List.length_map, nth_error_map.
  destruct (nth_error w _); cbn; auto. apply JSFacts.isBasicWordChar_lower.
Qed.

(** C5, as stated, fails twice.  For [locate("category of cats", "cat", 0)]
    the code returns no match at all, where the claim wants the
    occurrence at offset 12; and a word that is itself punctuation is
    matched between two word characters: the comma of ["a,b"]. *)
Lemma C5_counterexample :
  (findWordBoundaries 18 (str "category of cats") (str "cat") 0 = Done [] /\
   ~ (exists m, findWordBoundaries 18 (str "category of cats") (str "cat") 0
                = Done [m] /\ m_start m = 12)) /\
  (exists m, findWordBoundaries 5 (str "a,b") (str ",") 0 = Done [m] /\
             ~ delimited (str "a,b") m).
Proof.
  split.
  - split; [reflexivity|]. intros (m & H & _). vm_compute in H. discriminate.
  - eexists. split; [vm_compute; reflexivity|].
    intros [H _]. vm_compute in H. discriminate.
Qed.

(** C5 (amended): every match the locator returns starts and ends at a
    word boundary of the pattern language (exactly one of the two code
    units around the position is a word character, the string edge
    counting as none); hence when the trimmed word begins (ends) with a
    word character the match is preceded (followed) by a non-word
    character or the string edge.  For "category of cats" and "cat" the
    locator returns no match: none inside "category", none inside
    "cats". *)
Theorem C5_matches_at_word_boundaries (fuel : nat) (text word : jsstring)
    (hintStart : Z) :
  (forall ms,
     findWordBoundaries fuel text word hintStart = Done ms ->
     Forall (fun m =>
               RegExp.atWordBoundary text (Z.to_nat (m_start m)) = true /\
               RegExp.atWordBoundary text (Z.to_nat (m_end m)) = true /\
               (firstIsWord (trim word) = true ->
                RegExp.isWordCharBefore text (Z.to_nat (m_start m)) = false) /\
               (lastIsWord (trim word) = true ->
                RegExp.isWordCharAt text (Z.to_nat (m_end m)) = false)) ms) /\
  ((enoughFuel (str "category of cats") <= fuel)%nat ->
   findWordBoundaries fuel (str "category of cats") (str "cat") hintStart = Done []).
Proof.
  split.
  - intros ms H. apply LocatorFacts.findWordBoundaries_Done in H.
    destruct H as [Hall _]. eapply Forall_impl; [|exact Hall].
    intros m Ho. rewrite ClaimFacts.searchWord_trim in Ho.
    repeat split.
    + apply (occ_left _ _ _ Ho).
    + apply (occ_right _ _ _ Ho).
    + intros Hw. apply (ClaimFacts.occurrence_left_edge _ _ _ Ho).
      now rewrite firstIsWord_lower.
    + intros Hw. apply (ClaimFacts.occurrence_right_edge _ _ _ Ho).
      now rewrite lastIsWord_lower.
  - intros Hf.
    apply (FuelFacts.findWordBoundaries_fuel_mono _ _ _ _ 0 _ Hf).
    reflexivity.
Qed.

Lemma C5_matches_at_word_boundaries_witness :
  (exists m,
     findWordBoundaries 23 (str "A cat, a dog.") (str " Cat ") 0 = Done [m] /\
     m_start m = 2 /\ delimited (str "A cat, a dog.") m) /\
  findWordBoundaries 18 (str "category of cats") (str "cat") 0 = Done [].
Proof.
  pose proof (C5_matches_at_word_boundaries 23 (str "A cat, a dog.")
                (str " Cat ") 0) as [H _].
  pose proof (C5_matches_at_word_boundaries 18 (str "A cat, a dog.")
                (str " Cat ") 0) as [_ H'].
  split.
  - eexists. split; [vm_compute; reflexivity|]. split; [reflexivity|].
    specialize (H _ eq_refl). inversion H as [|? ? (_ & _ & Hl & Hr) _]; subst.
    split; [apply Hl|apply Hr]; reflexivity.
  - apply H'. vm_compute. lia.
Defined.

(** C6, as stated, fails: with the hint at the second of two
    occurrences the first one still comes first. *)
Lemma C6_counterexample :
  exists ms,
    findWordBoundaries 7 (str "a b a") (str "a") 4 = Done ms /\
    ~ orderedByDistance 4 ms.
Proof.
  eexists. split; [vm_compute; reflexivity|].
  intros H. inversion H as [|? ? _ Hall]; subst.
  inversion Hall as [|? ? Hd _]; subst.
  vm_compute in Hd. destruct Hd as [Hd|[Hd _]]; discriminate.
Qed.

(** C6 (amended): the matches the locator returns are in text order,
    by strictly ascending start offset, whatever the hint; the hint is
    not read, and picking the match closest to it is left to the
    callers. *)
Theorem C6_matches_in_text_order (fuel : nat) (text word : jsstring)
    (hintStart : Z) :
  (forall ms,
     findWordBoundaries fuel text word hintStart = Done ms ->
     StronglySorted (fun a b => m_start a < m_start b) ms) /\
  (forall hint, findWordBoundaries fuel text word hint
                = findWordBoundaries fuel text word hintStart).
Proof.
  split.
  - intros ms H. apply LocatorFacts.findWordBoundaries_Done in H.
    destruct H as [Hall Hasc].
    now apply (ClaimFacts.occurrences_starts_sorted text (searchWord word)).
  - intros hint. now rewrite !LocatorFacts.findWordBoundaries_unfold.
Qed.

Lemma C6_matches_in_text_order_witness :
  exists m1 m2,
    findWordBoundaries 7 (str "a b a") (str "a") 4 = Done [m1; m2] /\
    m_start m1 < m_start m2.
Proof.
  pose proof (C6_matches_in_text_order 7 (str "a b a") (str "a") 4) as [H _].
  eexists; eexists. split; [vm_compute; reflexivity|].
  specialize (H _ eq_refl). inversion H as [|? ? _ Hall]; subst.
  inversion Hall as [|? ? Hlt _]; subst. exact Hlt.
Defined.

(** C10: a match the locator returns is a well-formed occurrence of the
    trimmed word: [0 <= start < end <= len(text)], its length is that of
    the trimmed word, [matchedText] is [text[start:end]] and equals the
    trimmed word up to case; the matches come by strictly ascending
    start and do not overlap.  The locator does return when the trimmed
    word is not empty. *)
Theorem C10_matches_well_formed (fuel : nat) (text word : jsstring)
    (hintStart : Z) :
  (forall ms,
     findWordBoundaries fuel text word hintStart = Done ms ->
     Forall (fun m =>
               0 <= m_start m /\ m_start m < m_end m /\
               m_end m <= JS.length text /\
               m_end m - m_start m = JS.length (trim word) /\
               m_text m = slice text (m_start m) (m_end m) /\
               toLowerCase (m_text m) = toLowerCase (trim word)) ms /\
     StronglySorted (fun a b => m_start a < m_start b) ms /\
     StronglySorted (fun a b => m_end a <= m_start b) ms) /\
  (trim word <> [] ->
   (enoughFuel text <= fuel)%nat ->
   exists ms, findWordBoundaries fuel text word hintStart = Done ms).
Proof.
  split.
  - intros ms H. apply LocatorFacts.findWordBoundaries_Done in H.
    destruct H as [Hall Hasc]. split; [|split].
    + eapply Forall_impl; [|exact Hall]. intros m Ho.
      pose proof (occ_start _ _ _ Ho).
      pose proof (occ_nonempty _ _ _ Ho).
      pose proof (occ_end _ _ _ Ho).
      repeat split; auto.
      * rewrite (occ_length _ _ _ Ho).
        now rewrite ClaimFacts.searchWord_trim, JSFacts.length_lower.
      * rewrite (occ_text _ _ _ Ho) at 1.
        apply JSFacts.substring_slice; lia.
      * rewrite (occ_ci _ _ _ Ho).
        now rewrite ClaimFacts.searchWord_trim, JSFacts.toLowerCase_idem.
    + now apply (ClaimFacts.occurrences_starts_sorted text (searchWord word)).
    + now apply ClaimFacts.ascending_disjoint.
  - intros Hw Hf. apply LocatorFacts.findWordBoundaries_terminates; auto.
    now rewrite ClaimFacts.searchWord_nil_iff.
Qed.

Lemma C10_matches_well_formed_witness :
  exists m1 m2 m3,
    findWordBoundaries 23 (str "A cat, a Cat and CAT.") (str " Cat ") 0
    = Done [m1; m2; m3] /\
    m_end m1 <= m_start m2 /\ m_end m2 <= m_start m3 /\
    m_end m3 - m_start m3 = 3.
Proof.
  pose proof (C10_matches_well_formed 23 (str "A cat, a Cat and CAT.")
                (str " Cat ") 0) as [H Ht].
  assert (Hex : exists ms,
             findWordBoundaries 23 (str "A cat, a Cat and CAT.") (str " Cat ") 0
             = Done ms)
    by (apply Ht; [vm_compute; discriminate|vm_compute; lia]).
  destruct Hex as [ms Hms].
  specialize (H ms Hms). destruct H as (Hall & _ & Hd).
  vm_compute in Hms. inversion Hms; subst ms.
  do 3 eexists. split; [reflexivity|].
  inversion Hd as [|? ? Hd' H12]; subst.
  inversion H12 as [|? ? H12' _]; subst.
  inversion Hd' as [|? ? _ H23]; subst.
  inversion H23 as [|? ? H23' _]; subst.
  inversion Hall as [|? ? _ Hall']; subst.
  inversion Hall' as [|? ? _ Hall'']; subst.
  inversion Hall'' as [|? ? (_ & _ & _ & Hlen & _) _]; subst.
  split; [exact H12'|split; [exact H23'|exact Hlen]].
Defined.

(** ** Claims about accepting one suggestion *)

Module AcceptFacts.
Import JSFacts LocatorFacts ClosestFacts FuelFacts.

(** The relocation tier: the locator's answer decides. *)
Lemma reconcile_relocate (fuel : nat) (text : jsstring) (s : Suggestion) :
  let actual := substring text (start (position s)) (end_ (position s)) in
  actual <> original s ->
  trim (toLowerCase actual) <> trim (toLowerCase (original s)) ->
  reconcile fuel text s =
  match findWordBoundaries fuel text (original s) (start (position s)) with
  | Done [] => Done None
  | Done (first :: rest) =>
      let c := closestMatch first (first :: rest) (start (position s)) in
      Done (Some (mkPosition (m_start c) (m_end c)))
  | Thrown => Thrown
  | OutOfFuel => OutOfFuel
  end.
Proof.
  intros actual H1 H2. unfold reconcile. fold actual.
  apply eqb_neq in H1. apply eqb_neq in H2. rewrite H1, H2.
  rewrite !findWordBoundaries_unfold.
  destruct (findWordBoundaries_loop _ _ _ _) as [[|first rest]| |]; reflexivity.
Qed.

(** The closest of the matches the locator returned. *)
Lemma closest_of_located (fuel : nat) (text word : jsstring) (hint : Z)
    (first : Match) (rest : list Match) :
  findWordBoundaries fuel text word hint = Done (first :: rest) ->
  let c := closestMatch first (first :: rest) hint in
  (In c (first :: rest) /\
   (forall m, In m (first :: rest) -> distance hint c <= distance hint m) /\
   (forall m, In m (first :: rest) ->
              distance hint m = distance hint c -> m_start c <= m_start m)) /\
  0 <= m_start c /\ m_start c < m_end c /\ m_end c <= JS.length text.
Proof.
  intros H c. apply findWordBoundaries_Done in H. destruct H as [Hall Hasc].
  assert (Hinc : startsIncrease (first :: rest))
    by (eapply ClaimFacts.occurrences_startsIncrease; eauto).
  pose proof (closestMatch_spec hint first rest Hinc) as Hc. fold c in Hc.
  split; [exact Hc|].
  destruct Hc as [Hin _]. rewrite Forall_forall in Hall.
  specialize (Hall _ Hin).
  pose proof (occ_start _ _ _ Hall). pose proof (occ_nonempty _ _ _ Hall).
  pose proof (occ_end _ _ _ Hall). auto.
Qed.

Lemma reconcile_terminates (fuel : nat) (text : jsstring) (s : Suggestion) :
  trim (original s) <> [] ->
  (enoughFuel text <= fuel)%nat ->
  exists r, reconcile fuel text s = Done r.
Proof.
  intros Hw Hf. unfold reconcile.
  destruct (JS.eqb _ _); [eauto|].
  destruct (JS.eqb _ _); [eauto|].
  destruct (findWordBoundaries_terminates fuel text (original s) 0) as [ms Hms];
    auto.
  { now rewrite ClaimFacts.searchWord_nil_iff. }
  rewrite Hms. cbn. destruct ms; eauto.
Qed.

End AcceptFacts.

(** C1: the reconciliation of lines 350-403 is the three-tier fallback.
    With [actual = content.substring(span.start, span.end)], which is
    [text[span.start:span.end]] for a span inside the text: when
    [actual] is [original] the span is returned as it is; when the two
    are equal after lower-casing and trimming, likewise; otherwise the
    locator is asked for [original], and when it returns matches the span
    returned is that of a match at the least distance from [span.start],
    the one that starts first among those.  The reconciliation does
    return when the trimmed [original] is not empty.  For "The qick fox"
    and the span [0,4) given for "qick" the result is [4,8). *)
Theorem C1_reconcile_three_tiers (fuel : nat) (text : jsstring) (s : Suggestion) :
  let span := position s in
  let actual := substring text (start span) (end_ span) in
  let d := distance (start span) in
  (0 <= start span <= end_ span -> end_ span <= JS.length text ->
   actual = slice text (start span) (end_ span)) /\
  (actual = original s -> reconcile fuel text s = Done (Some span)) /\
  (trim (toLowerCase actual) = trim (toLowerCase (original s)) ->
   reconcile fuel text s = Done (Some span)) /\
  (actual <> original s ->
   trim (toLowerCase actual) <> trim (toLowerCase (original s)) ->
   forall ms,
     findWordBoundaries fuel text (original s) (start span) = Done ms ->
     ms <> [] ->
     exists c,
       In c ms /\
       (forall m, In m ms -> d c <= d m) /\
       (forall m, In m ms -> d m = d c -> m_start c <= m_start m) /\
       reconcile fuel text s = Done (Some (mkPosition (m_start c) (m_end c)))) /\
  (trim (original s) <> [] ->
   (enoughFuel text <= fuel)%nat ->
   exists r, reconcile fuel text s = Done r) /\
  ((enoughFuel (str "The qick fox") <= fuel)%nat ->
   reconcile fuel (str "The qick fox")
     (mkSuggestion (id s) (type s) (mkPosition 0 4) (str "qick")
                   (str "quick") (explanation s))
   = Done (Some (mkPosition 4 8))).
Proof.
  intros span actual d. repeat apply conj.
  - intros H1 H2. apply JSFacts.substring_slice; assumption.
  - intros H. unfold reconcile. fold span actual.
    apply JSFacts.eqb_eq in H. now rewrite H.
  - intros H. unfold reconcile. fold span actual.
    apply JSFacts.eqb_eq in H. rewrite H. now destruct (JS.eqb actual _).
  - intros H1 H2 ms Hms Hne.
    rewrite (AcceptFacts.reconcile_relocate fuel text s H1 H2).
    fold span. rewrite Hms.
    destruct ms as [|first rest]; [congruence|].
    destruct (AcceptFacts.closest_of_located _ _ _ _ _ _ Hms)
      as [(Hin & Hmin & Htie) _].
    exists (closestMatch first (first :: rest) (start span)).
    repeat split; auto.
  - apply AcceptFacts.reconcile_terminates.
  - intros Hf.
    apply (FuelFacts.reconcile_fuel_mono _ _ _ _ _ Hf). reflexivity.
Qed.

Lemma C1_reconcile_three_tiers_witness :
  reconcile 14 (str "The qick fox")
    (mkSuggestion (mkId 0 0) (Some spelling) (mkPosition 0 4) (str "qick")
                  (str "quick") (str "Spelling"))
  = Done (Some (mkPosition 4 8)) /\
  reconcile 0 (str "The qick fox")
    (mkSuggestion (mkId 0 0) (Some spelling) (mkPosition 4 8) (str "qick")
                  (str "quick") (str "Spelling"))
  = Done (Some (mkPosition 4 8)) /\
  reconcile 0 (str "The Qick  fox")
    (mkSuggestion (mkId 0 0) (Some spelling) (mkPosition 4 9) (str "qick")
                  (str "quick") (str "Spelling"))
  = Done (Some (mkPosition 4 9)) /\
  exists c,
    reconcile 16 (str "qick or qick")
      (mkSuggestion (mkId 0 0) (Some spelling) (mkPosition 4 7) (str "qick")
                    (str "quick") (str "Spelling"))
    = Done (Some (mkPosition (m_start c) (m_end c))) /\ m_start c = 0.
Proof.
  split; [|split; [|split]].
  - pose proof (C1_reconcile_three_tiers 14 (str "The qick fox")
      (mkSuggestion (mkId 0 0) (Some spelling) (mkPosition 0 4) (str "qick")
                    (str "quick") (str "Spelling"))) as (_ & _ & _ & _ & _ & H).
    apply H. vm_compute. lia.
  - pose proof (C1_reconcile_three_tiers 0 (str "The qick fox")
      (mkSuggestion (mkId 0 0) (Some spelling) (mkPosition 4 8) (str "qick")
                    (str "quick") (str "Spelling"))) as (_ & H & _).
    apply H. reflexivity.
  - pose proof (C1_reconcile_three_tiers 0 (str "The Qick  fox")
      (mkSuggestion (mkId 0 0) (Some spelling) (mkPosition 4 9) (str "qick")
                    (str "quick") (str "Spelling"))) as (_ & _ & H & _).
    apply H. reflexivity.
  - pose proof (C1_reconcile_three_tiers 16 (str "qick or qick")
      (mkSuggestion (mkId 0 0) (Some spelling) (mkPosition 4 7) (str "qick")
                    (str "quick") (str "Spelling"))) as (_ & _ & _ & H & _).
    cbv zeta in H.
    destruct (H ltac:(vm_compute; discriminate) ltac:(vm_compute; discriminate)
                _ eq_refl ltac:(vm_compute; discriminate))
      as (c & Hin & Hmin & Htie & Hr).
    exists c. split; [exact Hr|].
    vm_compute in Hr. inversion Hr as [[Hs He]]. symmetry; exact Hs.
Defined.

(** C2: when [0 <= start < end <= len(text)] and [text[start:end]] is
    [original], accepting the suggestion succeeds, the new text is
    [text[:start] + correction + text[end:]], and the caret is put at
    [start + len(correction)]. *)
Theorem C2_applyOne_splices (fuel : nat) (ed : Editor) (s : Suggestion) :
  let text := content ed in
  let a := start (position s) in
  let b := end_ (position s) in
  0 <= a -> a < b -> b <= JS.length text ->
  slice text a b = original s ->
  handleAcceptSuggestion fuel ed s
  = Done (mkEditor (slice text 0 a ++ correction s ++ slice text b (JS.length text))
                   (removeSuggestion (id s) (suggestions ed))
                   (Some (a + JS.length (correction s))),
          SuggestionApplied).
Proof.
  intros text a b Ha Hab Hb Hs. unfold handleAcceptSuggestion.
  fold text a b.
  replace (a <? 0) with false by (symmetry; apply Z.ltb_ge; lia).
  replace (b >? JS.length text) with false
    by (symmetry; rewrite Z.gtb_ltb; apply Z.ltb_ge; lia).
  replace (a >=? b) with false
    by (symmetry; rewrite Z.geb_leb; apply Z.leb_gt; lia).
  cbn [orb].
  assert (Hr : reconcile fuel text s = Done (Some (position s))).
  { unfold reconcile. fold a b.
    rewrite JSFacts.substring_slice by lia. fold (slice text a b).
    apply JSFacts.eqb_eq in Hs. now rewrite Hs. }
  rewrite Hr. cbn [bind]. fold a b.
  unfold substring_from.
  rewrite !JSFacts.substring_slice
    by (pose proof (JSFacts.length_nonneg text); lia).
  reflexivity.
Qed.

Lemma C2_applyOne_splices_witness :
  handleAcceptSuggestion 0
    (mkEditor (str "The qick fox") [] None)
    (mkSuggestion (mkId 0 0) (Some spelling) (mkPosition 4 8) (str "qick")
                  (str "quick") (str "Spelling"))
  = Done (mkEditor (str "The quick fox") [] (Some 9), SuggestionApplied).
Proof.
  apply (C2_applyOne_splices 0
           (mkEditor (str "The qick fox") [] None)
           (mkSuggestion (mkId 0 0) (Some spelling) (mkPosition 4 8) (str "qick")
                         (str "quick") (str "Spelling")));
    cbn; [lia|lia|lia|reflexivity].
Defined.

(** C4: when the text at the span is not [original], not even up to
    case and surrounding white space, and the locator returns no match,
    accepting the suggestion ends in NotFound with the text unchanged; a
    span out of bounds ([start < 0], [end > len(text)] or [start >= end])
    ends in NotFound as well; no exception escapes; and the handler does
    return when the trimmed [original] is not empty. *)
Theorem C4_applyOne_not_found (fuel : nat) (ed : Editor) (s : Suggestion) :
  let text := content ed in
  let span := position s in
  let actual := substring text (start span) (end_ span) in
  (actual <> original s ->
   trim (toLowerCase actual) <> trim (toLowerCase (original s)) ->
   findWordBoundaries fuel text (original s) (start span) = Done [] ->
   NotFound ed (handleAcceptSuggestion fuel ed s)) /\
  (start span < 0 \/ end_ span > JS.length text \/ start span >= end_ span ->
   handleAcceptSuggestion fuel ed s = Done (ed, InvalidPosition)) /\
  handleAcceptSuggestion fuel ed s <> Thrown /\
  (trim (original s) <> [] ->
   (enoughFuel text <= fuel)%nat ->
   exists r, handleAcceptSuggestion fuel ed s = Done r).
Proof.
  intros text span actual. repeat apply conj.
  - intros H1 H2 Hms. unfold NotFound, handleAcceptSuggestion. fold text span.
    destruct (_ || _); [now left|]. right.
    rewrite (AcceptFacts.reconcile_relocate fuel text s H1 H2).
    fold span. now rewrite Hms.
  - intros H. unfold handleAcceptSuggestion. fold text span.
    replace ((start span <? 0) || (end_ span >? JS.length text)
             || (start span >=? end_ span)) with true; [reflexivity|].
    symmetry. rewrite !orb_true_iff, Z.ltb_lt, Z.gtb_ltb, Z.ltb_lt,
      Z.geb_leb, Z.leb_le. lia.
  - unfold handleAcceptSuggestion. fold text span.
    destruct (_ || _); [discriminate|].
    pose proof (FuelFacts.reconcile_not_Thrown fuel text s) as H.
    destruct (reconcile fuel text s) as [[p|]| |]; cbn; congruence.
  - intros Hw Hf. unfold handleAcceptSuggestion. fold text span.
    destruct (_ || _); [eauto|].
    destruct (AcceptFacts.reconcile_terminates fuel text s Hw Hf) as [r Hr].
    rewrite Hr. cbn. destruct r; eauto.
Qed.

Lemma C4_applyOne_not_found_witness :
  handleAcceptSuggestion 14
    (mkEditor (str "The slow fox") [] None)
    (mkSuggestion (mkId 0 0) (Some spelling) (mkPosition 4 8) (str "qick")
                  (str "quick") (str "Spelling"))
  = Done (mkEditor (str "The slow fox") [] None, TextChanged) /\
  handleAcceptSuggestion 14
    (mkEditor (str "The") [] None)
    (mkSuggestion (mkId 0 0) (Some spelling) (mkPosition 4 8) (str "qick")
                  (str "quick") (str "Spelling"))
  = Done (mkEditor (str "The") [] None, InvalidPosition).
Proof.
  split.
  - pose proof (C4_applyOne_not_found 14
      (mkEditor (str "The slow fox") [] None)
      (mkSuggestion (mkId 0 0) (Some spelling) (mkPosition 4 8) (str "qick")
                    (str "quick") (str "Spelling"))) as (H & _).
    cbv zeta in H.
    destruct (H ltac:(vm_compute; discriminate) ltac:(vm_compute; discriminate)
                eq_refl) as [Hr|Hr].
    + vm_compute in Hr. discriminate Hr.
    + exact Hr.
  - pose proof (C4_applyOne_not_found 14
      (mkEditor (str "The") [] None)
      (mkSuggestion (mkId 0 0) (Some spelling) (mkPosition 4 8) (str "qick")
                    (str "quick") (str "Spelling"))) as (_ & H & _).
    apply H. cbn. lia.
Defined.

(** ** Claims about accepting every suggestion *)

Module AcceptAllFacts.
Import JSFacts LocatorFacts ClosestFacts FuelFacts.

Lemma acceptAll_step_unfold (fuel : nat) (cur : jsstring) (n : nat) (s : Suggestion) :
  acceptAll_step fuel (cur, n) s =
  match findWordBoundaries fuel cur (original s) (start (position s)) with
  | Done [] => Done (cur, n)
  | Done (first :: rest) =>
      let c := closestMatch first (first :: rest) (start (position s)) in
      Done (substring cur 0 (m_start c) ++ correction s
            ++ substring_from cur (m_end c), S n)
  | Thrown => Thrown
  | OutOfFuel => OutOfFuel
  end.
Proof.
  unfold acceptAll_step. rewrite !findWordBoundaries_unfold.
  destruct (findWordBoundaries_loop _ _ _ _) as [[|first rest]| |]; reflexivity.
Qed.

(** A step counts at most one. *)
Lemma acceptAll_step_count (fuel : nat) (st st' : jsstring * nat) (s : Suggestion) :
  acceptAll_step fuel st s = Done st' -> (snd st <= snd st' <= S (snd st))%nat.
Proof.
  destruct st as [cur n]. rewrite acceptAll_step_unfold.
  destruct (findWordBoundaries _ _ _ _) as [[|first rest]| |];
    intros H; inversion H; subst; cbn; lia.
Qed.

Lemma forEach_count (fuel : nat) (l : list Suggestion) :
  forall st st',
    forEach (acceptAll_step fuel) l st = Done st' ->
    (snd st' <= snd st + List.length l)%nat.
Proof.
  induction l as [|s l IH]; intros st st' H; cbn in H.
  - inversion H; subst. lia.
  - destruct (acceptAll_step fuel st s) as [st1| |] eqn:Hs; cbn in H;
      try discriminate.
    apply acceptAll_step_count in Hs. apply IH in H. cbn. lia.
Qed.

Lemma acceptAll_step_terminates (fuel : nat) (st : jsstring * nat) (s : Suggestion) :
  trim (original s) <> [] ->
  (enoughFuel (fst st) <= fuel)%nat ->
  exists st', acceptAll_step fuel st s = Done st'.
Proof.
  intros Hw Hf. destruct st as [cur n]. rewrite acceptAll_step_unfold.
  destruct (findWordBoundaries_terminates fuel cur (original s)
              (start (position s))) as [ms Hms]; auto.
  { now rewrite ClaimFacts.searchWord_nil_iff. }
  rewrite Hms. destruct ms; eauto.
Qed.

(** Some amount of fuel lets the whole batch run to its end. *)
Lemma forEach_terminates (l : list Suggestion) :
  (forall s, In s l -> trim (original s) <> []) ->
  forall st, exists fuel0, forall fuel,
    (fuel0 <= fuel)%nat ->
    exists st', forEach (acceptAll_step fuel) l st = Done st'.
Proof.
  induction l as [|s l IH]; intros Hw st.
  - exists O. intros fuel _. cbn. eauto.
  - destruct (acceptAll_step_terminates (enoughFuel (fst st)) st s)
      as [st1 H1]; [apply Hw; now left|lia|].
    destruct (IH (fun x Hx => Hw x (or_intror Hx)) st1) as [fuel2 H2].
    exists (Nat.max (enoughFuel (fst st)) fuel2). intros fuel Hf.
    cbn [forEach].
    rewrite (acceptAll_step_fuel_mono (enoughFuel (fst st)) fuel st st1 s);
      [|lia|assumption].
    cbn [bind]. apply H2. lia.
Qed.

End AcceptAllFacts.

(** C3: accepting every suggestion works on the suggestions sorted by
    descending start, folding the text and the count through them in
    that order, each step on the text the steps before it left.  A step
    whose suggestion the locator does not find leaves text and count as
    they are; a step that finds it splices the correction over the
    closest match and counts one.  The count never exceeds the number of
    suggestions, and the batch does run to its end when no trimmed
    [original] is empty.  For "a b c" with "a" to "aa" at [0,1) and
    "c" to "cc" at [4,5) the text becomes "aa b cc" and the count 2. *)
Theorem C3_applyAll_right_to_left (fuel : nat) (text : jsstring)
    (l : list Suggestion) :
  Permutation (sortedSuggestions l) l /\
  startsDescend (sortedSuggestions l) /\
  applyAll fuel text l
  = forEach (acceptAll_step fuel) (sortedSuggestions l) (text, O) /\
  (forall s rest st,
     forEach (acceptAll_step fuel) (s :: rest) st
     = (st' <- acceptAll_step fuel st s ;; forEach (acceptAll_step fuel) rest st')) /\
  (forall cur n s,
     findWordBoundaries fuel cur (original s) (start (position s)) = Done [] ->
     acceptAll_step fuel (cur, n) s = Done (cur, n)) /\
  (forall cur n s ms,
     findWordBoundaries fuel cur (original s) (start (position s)) = Done ms ->
     ms <> [] ->
     exists c,
       In c ms /\
       (forall m, In m ms ->
                  distance (start (position s)) c
                  <= distance (start (position s)) m) /\
       acceptAll_step fuel (cur, n) s
       = Done (slice cur 0 (m_start c) ++ correction s
               ++ slice cur (m_end c) (JS.length cur), S n)) /\
  (forall r, applyAll fuel text l = Done r -> (snd r <= List.length l)%nat) /\
  ((forall s, In s l -> trim (original s) <> []) ->
   exists fuel0, forall fuel',
     (fuel0 <= fuel')%nat -> exists r, applyAll fuel' text l = Done r) /\
  (forall sa sc : Suggestion,
     position sa = mkPosition 0 1 -> original sa = str "a" ->
     correction sa = str "aa" ->
     position sc = mkPosition 4 5 -> original sc = str "c" ->
     correction sc = str "cc" ->
     (enoughFuel (str "a b cc") <= fuel)%nat ->
     applyAll fuel (str "a b c") [sa; sc] = Done (str "aa b cc", 2%nat)).
Proof.
  repeat apply conj.
  - apply SortFacts.sortedSuggestions_Permutation.
  - apply SortFacts.sortedSuggestions_descend.
  - reflexivity.
  - reflexivity.
  - intros cur n s H. rewrite AcceptAllFacts.acceptAll_step_unfold. now rewrite H.
  - intros cur n s ms Hms Hne.
    rewrite AcceptAllFacts.acceptAll_step_unfold. rewrite Hms.
    destruct ms as [|first rest]; [congruence|].
    destruct (AcceptFacts.closest_of_located _ _ _ _ _ _ Hms)
      as [(Hin & Hmin & _) (H0 & Hlt & Hlen)].
    exists (closestMatch first (first :: rest) (start (position s))).
    split; [exact Hin|]. split; [exact Hmin|]. cbv zeta.
    unfold substring_from. rewrite !JSFacts.substring_slice by lia.
    reflexivity.
  - intros r H. apply AcceptAllFacts.forEach_count in H.
    rewrite (Permutation_length (SortFacts.sortedSuggestions_Permutation l)) in H.
    exact H.
  - intros Hw.
    apply AcceptAllFacts.forEach_terminates.
    intros s Hs. apply Hw.
    now apply (Permutation_in _ (SortFacts.sortedSuggestions_Permutation l)).
  - intros [ia ta pa oa ca ea] [ic tc pc oc cc ec];
      cbn [position original correction].
    intros -> -> -> -> -> -> Hf.
    apply (FuelFacts.applyAll_fuel_mono _ _ _ _ _ Hf). reflexivity.
Qed.

Lemma C3_applyAll_right_to_left_witness :
  applyAll 8 (str "a b c")
    [mkSuggestion (mkId 0 0) (Some style) (mkPosition 0 1) (str "a") (str "aa")
                  (str "Style");
     mkSuggestion (mkId 0 1) (Some style) (mkPosition 4 5) (str "c") (str "cc")
                  (str "Style")]
  = Done (str "aa b cc", 2%nat) /\
  acceptAll_step 8 (str "a b c", O)
    (mkSuggestion (mkId 0 2) (Some style) (mkPosition 2 3) (str "z") (str "y")
                  (str "Style"))
  = Done (str "a b c", O).
Proof.
  split.
  - pose proof (C3_applyAll_right_to_left 8 (str "a b c") [])
      as (_ & _ & _ & _ & _ & _ & _ & _ & H).
    apply H; reflexivity.
  - pose proof (C3_applyAll_right_to_left 8 (str "a b c") [])
      as (_ & _ & _ & _ & H & _).
    apply H. reflexivity.
Defined.

(** The handler around [applyAll]: the text is replaced and the list
    cleared when at least one suggestion was applied. *)
Lemma handleAcceptAllSuggestions_applyAll (fuel : nat) (ed : Editor)
    (newContent : jsstring) (appliedCount : nat) :
  suggestions ed <> [] ->
  applyAll fuel (content ed) (suggestions ed) = Done (newContent, appliedCount) ->
  handleAcceptAllSuggestions fuel ed
  = Done (if (0 <? appliedCount)%nat
          then (mkEditor newContent [] (caret ed), Some (AllApplied appliedCount))
          else (ed, Some NoneApplied)).
Proof.
  intros Hne H. unfold handleAcceptAllSuggestions.
  destruct (suggestions ed) as [|s l] eqn:Hs; [congruence|].
  rewrite H. cbn [bind]. now destruct (0 <? appliedCount)%nat.
Qed.

(** The callback, read through the span it splices. *)
Lemma acceptAll_step_span (fuel : nat) (cur : jsstring) (n : nat) (s : Suggestion) :
  acceptAll_step fuel (cur, n) s =
  (found <- acceptAll_span fuel cur s ;;
   match found with
   | None => Done (cur, n)
   | Some span =>
       Done (substring cur 0 (start span) ++ correction s
             ++ substring_from cur (end_ span), S n)
   end).
Proof.
  unfold acceptAll_step, acceptAll_span.
  destruct (findWordBoundaries fuel cur (original s) 0) as [[|first rest]| |];
    reflexivity.
Qed.

(** Where the reconciliation reaches its third tier the two agree. *)
Lemma acceptAll_span_relocate (fuel : nat) (text : jsstring) (s : Suggestion) :
  let actual := substring text (start (position s)) (end_ (position s)) in
  actual <> original s ->
  trim (toLowerCase actual) <> trim (toLowerCase (original s)) ->
  acceptAll_span fuel text s = reconcile fuel text s.
Proof.
  intros actual H1 H2. unfold reconcile, acceptAll_span. fold actual.
  apply JSFacts.eqb_neq in H1. apply JSFacts.eqb_neq in H2.
  now rewrite H1, H2.
Qed.

(** C9 on the code: for the text "Hello, a,b" and the suggestion to
    replace the comma at [5,6) by a semicolon, the reconciliation keeps
    the span [5,6), which holds [original] exactly, and accepting the
    suggestion alone gives "Hello; a,b"; accepting all asks the locator
    only, which sees a comma between word characters at [8,9) alone, and
    gives "Hello, a;b".  With "Hello, world" the same suggestion is
    applied when accepted alone and dropped by accepting all. *)
Theorem C9_applyAll_skips_span_tiers :
  let s := mkSuggestion (mkId 0 0) (Some punctuation) (mkPosition 5 6)
                        (str ",") (str ";") (str "Punctuation") in
  (reconcile 12 (str "Hello, a,b") s = Done (Some (mkPosition 5 6)) /\
   acceptAll_span 12 (str "Hello, a,b") s = Done (Some (mkPosition 8 9)) /\
   handleAcceptSuggestion 12 (mkEditor (str "Hello, a,b") [s] None) s
   = Done (mkEditor (str "Hello; a,b") [] (Some 6), SuggestionApplied) /\
   handleAcceptAllSuggestions 12 (mkEditor (str "Hello, a,b") [s] None)
   = Done (mkEditor (str "Hello, a;b") [] None, Some (AllApplied 1))) /\
  (reconcile 14 (str "Hello, world") s = Done (Some (mkPosition 5 6)) /\
   acceptAll_span 14 (str "Hello, world") s = Done None /\
   handleAcceptAllSuggestions 14 (mkEditor (str "Hello, world") [s] None)
   = Done (mkEditor (str "Hello, world") [s] None, Some NoneApplied)).
Proof.
  cbv zeta. repeat split; reflexivity.
Qed.

(** ** Claims about the validator *)

Lemma validate_singleton (now : nat -> Z) (textLength : Z) (r : RawSuggestion)
    (s e : Z) :
  raw_position r = Some (mkRawPosition (Some s) (Some e)) ->
  filterRaw textLength (Some r) = true ->
  validate now [Some r] textLength = [withId now textLength 0 (s, e, r)].
Proof.
  intros Hp Hf. unfold validate. cbn [filter]. rewrite Hf.
  cbn [flat_map typed]. rewrite Hp. reflexivity.
Qed.

(** C7, as stated, fails: an entry whose start is negative, and one
    whose end lies beyond the text, are dropped although their clamped
    bounds still satisfy [start < end]. *)
Lemma C7_counterexample :
  let before :=
    mkRaw (Some spelling) (Some (mkRawPosition (Some (-1)) (Some 3)))
          (str "Teh") (str "The") (str "Spelling") in
  let beyond :=
    mkRaw (Some spelling) (Some (mkRawPosition (Some 2) (Some 9)))
          (str "h cat") (str "he cat") (str "Spelling") in
  (Z.max 0 (Z.min (-1) 5) < Z.max 0 (Z.min 3 5) /\
   validate (fun _ => 0) [Some before] 5 = []) /\
  (Z.max 0 (Z.min 2 5) < Z.max 0 (Z.min 9 5) /\
   validate (fun _ => 0) [Some beyond] 5 = []).
Proof.
  cbv zeta. repeat split.
Qed.

(** C7 (amended): the validator rejects every entry whose start is
    negative, whose end exceeds [textLength] or whose start is not below
    its end; the clamp into [0, textLength] that follows changes no span.
    Every suggestion kept carries the span of an entry as it was
    received, and that span satisfies [0 <= start < end <= textLength]. *)
Theorem C7_out_of_range_rejected (now : nat -> Z)
    (rawSuggestions : list (option RawSuggestion)) (textLength : Z) :
  (forall r s e,
     raw_position r = Some (mkRawPosition (Some s) (Some e)) ->
     s < 0 \/ textLength < e \/ e <= s ->
     filterRaw textLength (Some r) = false) /\
  (forall sug,
     In sug (validate now rawSuggestions textLength) ->
     0 <= start (position sug) /\
     start (position sug) < end_ (position sug) /\
     end_ (position sug) <= textLength /\
     exists r,
       In (Some r) rawSuggestions /\
       raw_position r
       = Some (mkRawPosition (Some (start (position sug)))
                             (Some (end_ (position sug)))) /\
       raw_original r = original sug /\
       raw_correction r = correction sug).
Proof.
  split.
  - intros r s e Hp Hout.
    destruct (filterRaw textLength (Some r)) eqn:Hf; [|reflexivity].
    apply ValidatorFacts.filterRaw_true_iff in Hf.
    destruct Hf as (s' & e' & Hp' & H0 & He & Hlt & _).
    rewrite Hp in Hp'. inversion Hp'; subst. lia.
  - intros sug Hin.
    apply ValidatorFacts.validate_origin in Hin.
    destruct Hin as (index & s & e & r & Hr & Hf & Hp & ->).
    apply ValidatorFacts.filterRaw_true_iff in Hf.
    destruct Hf as (s' & e' & Hp' & H0 & He & Hlt & _).
    rewrite Hp in Hp'. inversion Hp'; subst s' e'.
    rewrite (ValidatorFacts.withId_in_range now textLength index s e r H0 He Hlt).
    cbn [start end_]. repeat split; auto.
    exists r. repeat split; auto.
Qed.

Lemma C7_out_of_range_rejected_witness :
  filterRaw 5
    (Some (mkRaw (Some spelling) (Some (mkRawPosition (Some (-1)) (Some 3)))
                 (str "Teh") (str "The") (str "Spelling")))
  = false /\
  exists sug,
    validate (fun _ => 0)
      [Some (mkRaw (Some spelling) (Some (mkRawPosition (Some 0) (Some 3)))
                   (str "Teh") (str "The") (str "Spelling"))] 5
    = [sug] /\
    0 <= start (position sug) /\ end_ (position sug) <= 5.
Proof.
  pose proof (C7_out_of_range_rejected (fun _ => 0)
    [Some (mkRaw (Some spelling) (Some (mkRawPosition (Some 0) (Some 3)))
                 (str "Teh") (str "The") (str "Spelling"))] 5) as [H1 H2].
  split.
  - apply (H1 _ (-1) 3); [reflexivity|lia].
  - eexists. split; [reflexivity|].
    destruct (H2 _ (or_introl eq_refl)) as (H0 & _ & He & _).
    split; [exact H0|exact He].
Defined.

(** C8, as stated, fails: ["Teh "] and ["teh"] are equal after trimming
    and lower-casing, and the suggestion is kept. *)
Lemma C8_counterexample :
  let r :=
    mkRaw (Some spelling) (Some (mkRawPosition (Some 0) (Some 4)))
          (str "Teh ") (str "teh") (str "Spelling") in
  trim (toLowerCase (raw_original r)) = trim (toLowerCase (raw_correction r)) /\
  validate (fun _ => 0) [Some r] 10
  = [mkSuggestion (mkId 0 0) (Some spelling) (mkPosition 0 4)
                  (str "Teh ") (str "teh") (str "Spelling")].
Proof.
  cbv zeta. split; reflexivity.
Qed.

(** C8 (amended): the validator compares [original] and [correction]
    with strict equality only.  An entry whose two strings are the same,
    code unit for code unit, is rejected, and every suggestion kept has
    an [original] that differs from its [correction]; an entry that passes
    the other checks and whose two strings differ is kept, also when they
    differ in case or surrounding white space alone. *)
Theorem C8_exact_noop_rejected (now : nat -> Z)
    (rawSuggestions : list (option RawSuggestion)) (textLength : Z) :
  (forall r, raw_original r = raw_correction r ->
             filterRaw textLength (Some r) = false) /\
  (forall sug, In sug (validate now rawSuggestions textLength) ->
               original sug <> correction sug) /\
  (forall r s e,
     raw_position r = Some (mkRawPosition (Some s) (Some e)) ->
     0 <= s -> s < e -> e <= textLength ->
     raw_original r <> [] -> raw_correction r <> [] ->
     raw_explanation r <> [] ->
     raw_original r <> raw_correction r ->
     validate now [Some r] textLength
     = [mkSuggestion (mkId (now O) O) (raw_type r) (mkPosition s e)
                     (raw_original r) (raw_correction r) (raw_explanation r)]).
Proof.
  repeat apply conj.
  - intros r Heq.
    destruct (filterRaw textLength (Some r)) eqn:Hf; [|reflexivity].
    apply ValidatorFacts.filterRaw_true_iff in Hf.
    destruct Hf as (s & e & _ & _ & _ & _ & _ & _ & _ & Hne). congruence.
  - intros sug Hin.
    apply ValidatorFacts.validate_origin in Hin.
    destruct Hin as (index & s & e & r & Hr & Hf & Hp & ->).
    apply ValidatorFacts.filterRaw_true_iff in Hf.
    destruct Hf as (s' & e' & _ & _ & _ & _ & _ & _ & _ & Hne). exact Hne.
  - intros r s e Hp H0 Hlt He Ho Hc Hx Hne.
    assert (Hf : filterRaw textLength (Some r) = true).
    { apply ValidatorFacts.filterRaw_true_iff. exists s, e. auto 10. }
    rewrite (validate_singleton now textLength r s e Hp Hf).
    unfold withId. do 2 f_equal. f_equal; lia.
Qed.

Lemma C8_exact_noop_rejected_witness :
  filterRaw 10
    (Some (mkRaw (Some spelling) (Some (mkRawPosition (Some 0) (Some 3)))
                 (str "teh") (str "teh") (str "Spelling")))
  = false /\
  validate (fun _ => 0)
    [Some (mkRaw (Some spelling) (Some (mkRawPosition (Some 0) (Some 4)))
                 (str "Teh ") (str "teh") (str "Spelling"))] 10
  = [mkSuggestion (mkId 0 0) (Some spelling) (mkPosition 0 4)
                  (str "Teh ") (str "teh") (str "Spelling")].
Proof.
  pose proof (C8_exact_noop_rejected (fun _ => 0) [] 10) as (H1 & _ & H3).
  split.
  - apply H1. reflexivity.
  - apply (H3 (mkRaw (Some spelling) (Some (mkRawPosition (Some 0) (Some 4)))
                     (str "Teh ") (str "teh") (str "Spelling")) 0 4);
      cbn; try reflexivity; try lia; discriminate.
Defined.

(** * Further properties of the code *)

(** ** The locator finds what is there *)

Module LocatorMore.
Import RegExp RegExpFacts JSFacts LocatorFacts.

Lemma search_first (ts : list term) (input : jsstring) :
  forall (n i j e : nat),
    search ts input i n = Some (j, e) ->
    forall k, (i <= k < j)%nat -> matchTerms ts input k = None.
Proof.
  induction n as [|n IH]; intros i j e H k Hk; cbn in H; [discriminate|].
  destruct (matchTerms ts input i) as [r|] eqn:Hm.
  - inversion H; subst. lia.
  - destruct (Nat.eq_dec k i) as [->|Hne]; [assumption|].
    apply (IH _ _ _ H). lia.
Qed.

Lemma search_None (ts : list term) (input : jsstring) :
  forall (n i : nat),
    search ts input i n = None ->
    forall k, (i <= k < i + n)%nat -> matchTerms ts input k = None.
Proof.
  induction n as [|n IH]; intros i H k Hk; cbn in H; [lia|].
  destruct (matchTerms ts input i) as [r|] eqn:Hm; [discriminate|].
  destruct (Nat.eq_dec k i) as [->|Hne]; [assumption|].
  apply (IH _ H). lia.
Qed.

(** Pattern characters that agree with the input are consumed. *)
Lemma matchTerms_chars_intro (w : jsstring) (ts : list term) (input : jsstring) :
  forall e,
    ciEqual (firstn (List.length w) (skipn e input)) w ->
    (e + List.length w <= List.length input)%nat ->
    matchTerms (map Char w ++ ts) input e
    = matchTerms ts input (e + List.length w).
Proof.
  unfold ciEqual.
  induction w as [|c w IH]; intros e Hci Hlen.
  - cbn. now rewrite Nat.add_0_r.
  - cbn [List.length] in *.
    destruct (nth_error input e) as [d|] eqn:Hn.
    2:{ apply nth_error_None in Hn. lia. }
    rewrite (skipn_nth_error _ _ _ Hn) in Hci. cbn [firstn map] in Hci.
    inversion Hci as [[Hc Hrest]].
    cbn [map app matchTerms]. rewrite Hn, Hc, N.eqb_refl.
    rewrite (IH (S e) Hrest) by lia. f_equal. lia.
Qed.

Lemma occursAt_matchTerms (text w : jsstring) (j : nat) :
  occursAt text w j ->
  matchTerms (wordTerms w) text j = Some (j + List.length w)%nat.
Proof.
  intros (Hl & Hlen & Hci & Hr). unfold wordTerms. cbn [matchTerms].
  rewrite Hl. rewrite matchTerms_chars_intro; auto.
  - cbn. now rewrite Hr.
  - now apply ciEqual_iff_lower.
Qed.

Lemma matchTerms_occursAt (text w : jsstring) (j e : nat) :
  (j <= List.length text)%nat ->
  matchTerms (wordTerms w) text j = Some e ->
  occursAt text w j.
Proof.
  intros Hj Hm.
  destruct (matchTerms_wordTerms _ _ _ _ Hm) as (Hl & -> & Hr & Hle & Hci).
  repeat split; auto. now apply ciEqual_iff_lower.
Qed.

Section Loop.
Variables (text w : jsstring).

(** Every position from [lastIndex] on where the expression matches is
    covered by a match of the result. *)
Lemma loop_complete (fuel : nat) :
  forall (re : RegExp.t) (acc ms : list Match),
    terms re = wordTerms w ->
    findWordBoundaries_loop fuel re text acc = Done ms ->
    forall j e,
      (lastIndex re <= j <= List.length text)%nat ->
      matchTerms (wordTerms w) text j = Some e ->
      exists m, In m ms /\ m_start m <= Z.of_nat j < m_end m.
Proof.
  induction fuel as [|fuel IH]; intros re acc ms Hre H j e Hj Hm; cbn in H;
    [discriminate|].
  destruct (exec re text) as [[[i e']|] re'] eqn:Hx.
  - unfold exec in Hx.
    destruct (search _ _ _ _) as [[i0 e0]|] eqn:Hs; inversion Hx; subst.
    pose proof (search_first _ _ _ _ _ _ Hs) as Hfirst.
    apply search_Some in Hs. destruct Hs as [Hi Hmi].
    rewrite Hre in Hmi, Hfirst.
    destruct (matchTerms_wordTerms _ _ _ _ Hmi) as (_ & He & _ & Hle & _).
    assert (Hile : (i <= List.length text)%nat) by lia.
    specialize (Hle Hile).
    assert (Hij : (i <= j)%nat).
    { destruct (Nat.le_gt_cases i j) as [|Hlt]; [assumption|].
      rewrite (Hfirst j) in Hm; [discriminate|lia]. }
    destruct (Nat.eq_dec (List.length w) 0) as [Hz|Hnz].
    + rewrite Hz, Nat.add_0_r in He. subst e'.
      rewrite (loop_empty_match text fuel (mk (terms re) i) _ i) in H;
        cbn [terms lastIndex]; auto; [discriminate|]. now rewrite Hre.
    + destruct (Nat.lt_ge_cases j e') as [Hlt|Hge].
      * pose proof H as Hd.
        apply (loop_Done text w) in Hd; [|assumption].
        destruct Hd as (added & -> & _).
        eexists. split.
        { apply in_or_app. left. apply in_or_app. right. now left. }
        cbn [m_start m_end]. unfold JS.length.
        rewrite List.length_firstn, List.length_skipn. lia.
      * apply (IH (mk (terms re) e') _ _ Hre H j e);
          [cbn [lastIndex]; lia|assumption].
  - unfold exec in Hx.
    destruct (search _ _ _ _) as [[i0 e0]|] eqn:Hs; inversion Hx; subst.
    rewrite Hre in Hs.
    rewrite (search_None _ _ _ _ Hs j) in Hm; [discriminate|lia].
Qed.
End Loop.

(** The first word character of a text has a word boundary in front. *)
Lemma hasWordChar_boundary (text : jsstring) :
  hasWordChar text = true ->
  exists i, (i <= List.length text)%nat /\ atWordBoundary text i = true.
Proof.
  unfold hasWordChar.
  assert (H : forall pre l,
             existsb isBasicWordChar l = true ->
             forallb (fun c => negb (isBasicWordChar c)) pre = true ->
             exists i, (i <= List.length (pre ++ l))%nat /\
                       atWordBoundary (pre ++ l) i = true).
  { intros pre l. revert pre. induction l as [|c l IH]; intros pre He Hp;
      [discriminate|]. cbn in He.
    destruct (isBasicWordChar c) eqn:Hc.
    - exists (List.length pre). split; [rewrite List.length_app; lia|].
      unfold atWordBoundary, isWordCharAt.
      rewrite nth_error_app2, Nat.sub_diag by lia. cbn. rewrite Hc.
      destruct pre as [|p pre'] using rev_ind; [reflexivity|].
      rewrite List.length_app, Nat.add_1_r. cbn [isWordCharBefore].
      unfold isWordCharAt. rewrite <- app_assoc.
      rewrite nth_error_app2, Nat.sub_diag by lia. cbn.
      rewrite forallb_app in Hp. cbn in Hp.
      destruct (isBasicWordChar p); [|reflexivity].
      rewrite andb_false_r in Hp. discriminate.
    - cbn in He.
      destruct (IH (pre ++ [c]) He) as (i & Hi & Hb).
      { rewrite forallb_app. cbn. now rewrite Hp, Hc. }
      rewrite <- app_assoc in Hi, Hb. exists i. auto. }
  intros He. apply (H [] text He eq_refl).
Qed.

(** A text without word characters has no word boundary at all. *)
Lemma noWordChar_no_boundary (text : jsstring) (i : nat) :
  hasWordChar text = false -> atWordBoundary text i = false.
Proof.
  unfold hasWordChar. intros H.
  assert (Hat : forall k, isWordCharAt text k = false).
  { intros k. unfold isWordCharAt.
    destruct (nth_error text k) as [c|] eqn:Hk; [|reflexivity].
    apply nth_error_In in Hk.
    destruct (isBasicWordChar c) eqn:Hc; [|reflexivity].
    assert (existsb isBasicWordChar text = true)
      by (apply existsb_exists; eauto).
    congruence. }
  unfold atWordBoundary. rewrite Hat.
  destruct i; cbn; [reflexivity|]. now rewrite Hat.
Qed.

Lemma search_no_boundary (w text : jsstring) :
  hasWordChar text = false ->
  forall n i, search (wordTerms w) text i n = None.
Proof.
  intros H. induction n as [|n IH]; intros i; cbn; [reflexivity|].
  rewrite (noWordChar_no_boundary text i H). apply IH.
Qed.

Lemma ascending_count (text w : jsstring) (ms : list Match) :
  ascending ms ->
  Forall (occurrence text w) ms ->
  forall lo,
    Forall (fun m => lo <= m_start m) ms ->
    Z.of_nat (List.length ms) * JS.length w <= JS.length text - lo \/ ms = [].
Proof.
  induction 1 as [|m ms Hall Hasc IH]; intros Hocc lo Hlo; [now right|].
  left. inversion Hocc as [|? ? Ho Hocc']; subst.
  inversion Hlo as [|? ? Hm _]; subst.
  pose proof (occ_length _ _ _ Ho). pose proof (occ_end _ _ _ Ho).
  destruct (IH Hocc' (m_end m) Hall) as [Hb| ->].
  - cbn [List.length]. rewrite Nat2Z.inj_succ. nia.
  - cbn [List.length]. change (Z.of_nat 1) with 1. lia.
Qed.

End LocatorMore.

Lemma occursAt_lower (text w : jsstring) (j : nat) :
  occursAt text (toLowerCase w) j <-> occursAt text w j.
Proof.
  unfold occursAt.
  assert (Hl : List.length (toLowerCase w) = List.length w)
    by apply List.length_map.
  now rewrite Hl, JSFacts.toLowerCase_idem.
Qed.

(** X1: the locator passes over no occurrence.  Wherever the trimmed
    word stands in the text, up to case and between word boundaries, a
    returned match starts there or, having started earlier, still covers
    that position. *)
Theorem locator_covers_every_occurrence (fuel : nat) (text word : jsstring)
    (hintStart : Z) (ms : list Match) (j : nat) :
  findWordBoundaries fuel text word hintStart = Done ms ->
  occursAt text (trim word) j ->
  exists m, In m ms /\ m_start m <= Z.of_nat j < m_end m.
Proof.
  intros H Ho. rewrite LocatorFacts.findWordBoundaries_unfold in H.
  apply occursAt_lower in Ho. rewrite <- ClaimFacts.searchWord_trim in Ho.
  pose proof Ho as (_ & Hlen & _).
  apply (LocatorMore.loop_complete text (searchWord word) fuel
           (RegExp.mk (wordTerms (searchWord word)) 0) [] ms eq_refl H j
           (j + List.length (searchWord word))%nat).
  - cbn [RegExp.lastIndex]. lia.
  - now apply LocatorMore.occursAt_matchTerms.
Qed.

Lemma locator_covers_every_occurrence_witness :
  exists m,
    In m [mkMatch 2 5 (str "Cat")] /\ m_start m <= 2 < m_end m.
Proof.
  apply (locator_covers_every_occurrence 8 (str "a Cat.") (str " cat ") 0
           [mkMatch 2 5 (str "Cat")] 2).
  - reflexivity.
  - repeat split. cbn. lia.
Defined.

(** X2: a word of white space only makes the expression [\b\b].  On a
    text with a word character the loop then finds an empty match, does
    not move on, and never returns, whatever the fuel. *)
Theorem locator_blank_word_hangs (fuel : nat) (text word : jsstring)
    (hintStart : Z) :
  trim word = [] ->
  hasWordChar text = true ->
  findWordBoundaries fuel text word hintStart = OutOfFuel.
Proof.
  intros Hw Ht.
  destruct (LocatorMore.hasWordChar_boundary text Ht) as (i & Hi & Hb).
  apply (LocatorFacts.findWordBoundaries_empty_word_hangs fuel text word _ i);
    auto.
  now apply ClaimFacts.searchWord_nil_iff.
Qed.

Lemma locator_blank_word_hangs_witness :
  findWordBoundaries 1000 (str "ab") (str "  ") 0 = OutOfFuel.
Proof.
  apply locator_blank_word_hangs; reflexivity.
Defined.

(** X3: on a text without any word character (punctuation and white
    space only, or empty) the locator returns no match, for every word,
    after a single call of [exec]. *)
Theorem locator_no_word_character (fuel : nat) (text word : jsstring)
    (hintStart : Z) :
  hasWordChar text = false ->
  findWordBoundaries (S fuel) text word hintStart = Done [].
Proof.
  intros H. rewrite LocatorFacts.findWordBoundaries_unfold.
  cbn [findWordBoundaries_loop]. unfold RegExp.exec. cbn [RegExp.terms].
  now rewrite (LocatorMore.search_no_boundary (searchWord word) text H).
Qed.

Lemma locator_no_word_character_witness :
  findWordBoundaries 1 (str "... , !") (str ",") 0 = Done [].
Proof.
  apply locator_no_word_character. reflexivity.
Defined.

(** X4: the matches do not overlap, so there are at most
    [len(text) / len(trimmed word)] of them. *)
Theorem locator_match_count (fuel : nat) (text word : jsstring)
    (hintStart : Z) (ms : list Match) :
  findWordBoundaries fuel text word hintStart = Done ms ->
  Z.of_nat (List.length ms) * JS.length (trim word) <= JS.length text.
Proof.
  intros H. apply LocatorFacts.findWordBoundaries_Done in H.
  destruct H as [Hall Hasc].
  assert (Hlen : JS.length (searchWord word) = JS.length (trim word))
    by (rewrite ClaimFacts.searchWord_trim; apply JSFacts.length_lower).
  destruct (LocatorMore.ascending_count text (searchWord word) ms Hasc Hall 0)
    as [Hb| ->].
  - eapply Forall_impl; [|exact Hall]. intros m Ho.
    apply (occ_start _ _ _ Ho).
  - rewrite <- Hlen. lia.
  - cbn. apply JSFacts.length_nonneg.
Qed.

Lemma locator_match_count_witness :
  Z.of_nat (List.length [mkMatch 0 1 (str "a"); mkMatch 4 5 (str "a")])
  * JS.length (trim (str "a")) <= JS.length (str "a b a").
Proof.
  apply (locator_match_count 7 (str "a b a") (str "a") 0). reflexivity.
Defined.

(** ** Accepting one suggestion *)

Module TrimFacts.

Lemma trimStart_head (s : jsstring) (c : ascii) (r : jsstring) :
  trimStart s = c :: r -> isWhiteSpace c = false.
Proof.
  induction s as [|d s IH]; cbn; [discriminate|].
  destruct (isWhiteSpace d) eqn:Hd; [assumption|].
  intros H. inversion H; subst. assumption.
Qed.

Lemma trimStart_fixed (c : ascii) (r : jsstring) :
  isWhiteSpace c = false -> trimStart (c :: r) = c :: r.
Proof. intros H. cbn. now rewrite H. Qed.

Lemma trimStart_idem (s : jsstring) : trimStart (trimStart s) = trimStart s.
Proof.
  destruct (trimStart s) as [|c r] eqn:H; [reflexivity|].
  apply trimStart_fixed. eapply trimStart_head; eauto.
Qed.

Lemma trimStart_snoc (l : jsstring) (c : ascii) :
  isWhiteSpace c = false -> trimStart (l ++ [c]) = trimStart l ++ [c].
Proof.
  intros Hc. induction l as [|d l IH]; cbn; [now rewrite Hc|].
  destruct (isWhiteSpace d); auto.
Qed.

Lemma trimEnd_cons (c : ascii) (r : jsstring) :
  isWhiteSpace c = false -> trimEnd (c :: r) = c :: trimEnd r.
Proof.
  intros Hc. unfold trimEnd. cbn [rev].
  rewrite (trimStart_snoc _ _ Hc), rev_app_distr. reflexivity.
Qed.

Lemma trimEnd_idem (s : jsstring) : trimEnd (trimEnd s) = trimEnd s.
Proof.
  unfold trimEnd. now rewrite rev_involutive, trimStart_idem.
Qed.

(** [trim] is idempotent. *)
Lemma trim_idem (s : jsstring) : trim (trim s) = trim s.
Proof.
  unfold trim.
  destruct (trimStart s) as [|c r] eqn:H; [reflexivity|].
  pose proof (trimStart_head _ _ _ H) as Hc.
  rewrite (trimEnd_cons c r Hc), (trimStart_fixed _ _ Hc).
  rewrite <- (trimEnd_cons c r Hc). apply trimEnd_idem.
Qed.

(** A string without white space is its own trim. *)
Lemma trim_no_whiteSpace (s : jsstring) :
  forallb (fun c => negb (isWhiteSpace c)) s = true -> trim s = s.
Proof.
  intros H. unfold trim.
  assert (Hs : forall t, forallb (fun c => negb (isWhiteSpace c)) t = true ->
                         trimStart t = t).
  { intros [|c t] Ht; [reflexivity|]. cbn in Ht.
    apply andb_true_iff in Ht. destruct Ht as [Hc _].
    apply trimStart_fixed. now destruct (isWhiteSpace c). }
  rewrite (Hs s H). unfold trimEnd. rewrite Hs, rev_involutive; auto.
  rewrite forallb_forall in *. intros c Hc. apply H. now apply in_rev.
Qed.

Lemma wordChar_not_whiteSpace (c : ascii) :
  RegExp.isBasicWordChar c = true -> isWhiteSpace c = false.
Proof.
  destruct c as [[] [] [] [] [] [] [] []]; cbn; intros H;
    try reflexivity; discriminate H.
Qed.

End TrimFacts.

(** Cutting a text at two offsets inside it. *)
Lemma slice_split (text : jsstring) (a b : Z) :
  0 <= a <= b -> b <= JS.length text ->
  text = slice text 0 a ++ slice text a b ++ slice text b (JS.length text).
Proof.
  intros Ha Hb. unfold slice, JS.length in *.
  rewrite Z.sub_0_r. cbn [Z.to_nat skipn].
  rewrite <- (firstn_skipn (Z.to_nat a) text) at 1. f_equal.
  rewrite <- (firstn_skipn (Z.to_nat (b - a)) (skipn (Z.to_nat a) text)) at 1.
  f_equal. rewrite skipn_skipn.
  replace (Z.to_nat (b - a) + Z.to_nat a)%nat with (Z.to_nat b) by lia.
  symmetry. apply firstn_all2. rewrite List.length_skipn. lia.
Qed.

Lemma slice_length (text : jsstring) (a b : Z) :
  0 <= a <= b -> b <= JS.length text -> JS.length (slice text a b) = b - a.
Proof.
  intros Ha Hb. unfold slice, JS.length in *.
  rewrite List.length_firstn, List.length_skipn. lia.
Qed.

(** The span a successful reconciliation returns lies in the text, and
    the text it holds is [original] up to case and surrounding white
    space. *)
Lemma reconcile_Some (fuel : nat) (text : jsstring) (s : Suggestion) (p : Position) :
  0 <= start (position s) -> start (position s) < end_ (position s) ->
  end_ (position s) <= JS.length text ->
  reconcile fuel text s = Done (Some p) ->
  0 <= start p /\ start p < end_ p /\ end_ p <= JS.length text /\
  trim (toLowerCase (slice text (start p) (end_ p)))
  = trim (toLowerCase (original s)).
Proof.
  intros H0 Hlt Hlen H.
  set (actual := substring text (start (position s)) (end_ (position s))).
  assert (Hact : actual = slice text (start (position s)) (end_ (position s)))
    by (apply JSFacts.substring_slice; lia).
  destruct (JS.eqb actual (original s)) eqn:H1.
  { unfold reconcile in H. fold actual in H. rewrite H1 in H.
    inversion H; subst p. apply JSFacts.eqb_eq in H1.
    rewrite <- Hact, H1. auto. }
  destruct (JS.eqb (trim (toLowerCase actual))
                   (trim (toLowerCase (original s)))) eqn:H2.
  { unfold reconcile in H. fold actual in H. rewrite H1, H2 in H.
    inversion H; subst p. apply JSFacts.eqb_eq in H2.
    rewrite <- Hact, H2. auto. }
  apply JSFacts.eqb_neq in H1. apply JSFacts.eqb_neq in H2.
  rewrite (AcceptFacts.reconcile_relocate fuel text s H1 H2) in H.
  destruct (findWordBoundaries fuel text (original s) (start (position s)))
    as [[|first rest]| |] eqn:Hf; try discriminate.
  cbv zeta in H. inversion H; subst p. cbn [start end_].
  destruct (AcceptFacts.closest_of_located _ _ _ _ _ _ Hf)
    as [(Hin & _) (Hs & Hl & He)].
  apply LocatorFacts.findWordBoundaries_Done in Hf. destruct Hf as [Hall _].
  rewrite Forall_forall in Hall. specialize (Hall _ Hin).
  repeat split; auto.
  unfold slice. rewrite <- (JSFacts.substring_slice text _ _) by lia.
  rewrite <- (occ_text _ _ _ Hall), (occ_ci _ _ _ Hall).
  rewrite ClaimFacts.searchWord_trim, JSFacts.toLowerCase_idem.
  rewrite <- JSFacts.trim_lower. rewrite TrimFacts.trim_idem.
  reflexivity.
Qed.

(** X5: accepting a suggestion replaces nothing but its [original].
    Whenever the handler applies a suggestion, the text splits into a
    part before, the part replaced and a part after; the part replaced is
    not empty and is [original] up to case and surrounding white space;
    the new text is the part before, [correction], the part after; the
    caret stands right behind the correction; and the suggestion list has
    lost the suggestions of that id. *)
Theorem acceptOne_replaces_original (fuel : nat) (ed ed' : Editor) (s : Suggestion) :
  handleAcceptSuggestion fuel ed s = Done (ed', SuggestionApplied) ->
  exists pre replaced post,
    content ed = pre ++ replaced ++ post /\
    content ed' = pre ++ correction s ++ post /\
    replaced <> [] /\
    trim (toLowerCase replaced) = trim (toLowerCase (original s)) /\
    caret ed' = Some (JS.length pre + JS.length (correction s)) /\
    suggestions ed' = removeSuggestion (id s) (suggestions ed).
Proof.
  unfold handleAcceptSuggestion. intros H.
  destruct (_ || _) eqn:Hg; [discriminate|].
  rewrite !orb_false_iff in Hg. destruct Hg as [[Hg1 Hg2] Hg3].
  apply Z.ltb_ge in Hg1. rewrite Z.gtb_ltb in Hg2. apply Z.ltb_ge in Hg2.
  rewrite Z.geb_leb in Hg3. apply Z.leb_gt in Hg3.
  destruct (reconcile fuel (content ed) s) as [[p|]| |] eqn:Hr;
    cbn [bind] in H; try discriminate.
  inversion H; subst ed'. clear H. cbn [content caret suggestions].
  destruct (reconcile_Some fuel (content ed) s p Hg1 Hg3 Hg2 Hr)
    as (Hp0 & Hplt & Hpe & Hci).
  exists (slice (content ed) 0 (start p)),
         (slice (content ed) (start p) (end_ p)),
         (slice (content ed) (end_ p) (JS.length (content ed))).
  unfold substring_from. rewrite !JSFacts.substring_slice by lia.
  fold (slice (content ed) 0 (start p)).
  fold (slice (content ed) (end_ p) (JS.length (content ed))).
  repeat split; auto.
  - apply slice_split; lia.
  - intros Hnil.
    pose proof (slice_length (content ed) (start p) (end_ p)) as Hl.
    rewrite Hnil in Hl. cbn in Hl. lia.
  - rewrite slice_length by lia. do 2 f_equal. lia.
Qed.

Lemma acceptOne_replaces_original_witness :
  exists pre replaced post,
    str "The Qick fox" = pre ++ replaced ++ post /\
    str "The quick fox" = pre ++ str "quick" ++ post /\
    replaced <> [] /\
    trim (toLowerCase replaced) = trim (toLowerCase (str "qick")) /\
    Some 9 = Some (JS.length pre + JS.length (str "quick")) /\
    [] = removeSuggestion (mkId 0 0) [].
Proof.
  apply (acceptOne_replaces_original 14
           (mkEditor (str "The Qick fox") [] None)
           (mkEditor (str "The quick fox") [] (Some 9))
           (mkSuggestion (mkId 0 0) (Some spelling) (mkPosition 0 4) (str "qick")
                         (str "quick") (str "Spelling"))).
  reflexivity.
Defined.

Lemma trim_lower_nil (x : jsstring) :
  trim (toLowerCase x) = [] <-> trim x = [].
Proof.
  rewrite JSFacts.trim_lower. unfold toLowerCase.
  destruct (trim x); cbn; split; congruence.
Qed.

(** X6: a suggestion whose [original] is white space only can hang
    either handler.  With its span inside the text, the text at the span
    not blank, and a word character anywhere in the text, accepting it
    never returns; accepting all with that suggestion as the whole list
    never returns either. *)
Theorem accept_blank_original_hangs (fuel : nat) (ed : Editor) (s : Suggestion) :
  trim (original s) = [] ->
  hasWordChar (content ed) = true ->
  (0 <= start (position s) -> start (position s) < end_ (position s) ->
   end_ (position s) <= JS.length (content ed) ->
   trim (slice (content ed) (start (position s)) (end_ (position s))) <> [] ->
   handleAcceptSuggestion fuel ed s = OutOfFuel) /\
  (suggestions ed = [s] -> handleAcceptAllSuggestions fuel ed = OutOfFuel).
Proof.
  intros Hw Ht.
  assert (Hhang : forall hint,
             findWordBoundaries fuel (content ed) (original s) hint = OutOfFuel).
  { intros hint.
    destruct (LocatorMore.hasWordChar_boundary (content ed) Ht) as (i & Hi & Hb).
    apply (LocatorFacts.findWordBoundaries_empty_word_hangs _ _ _ _ i); auto.
    now apply ClaimFacts.searchWord_nil_iff. }
  split.
  - intros H0 Hlt Hlen Hact. unfold handleAcceptSuggestion.
    replace (start (position s) <? 0) with false
      by (symmetry; apply Z.ltb_ge; lia).
    replace (end_ (position s) >? JS.length (content ed)) with false
      by (symmetry; rewrite Z.gtb_ltb; apply Z.ltb_ge; lia).
    replace (start (position s) >=? end_ (position s)) with false
      by (symmetry; rewrite Z.geb_leb; apply Z.leb_gt; lia).
    cbn [orb].
    assert (H2 : trim (toLowerCase (substring (content ed)
                   (start (position s)) (end_ (position s))))
                 <> trim (toLowerCase (original s))).
    { rewrite JSFacts.substring_slice by lia. fold (slice (content ed)
        (start (position s)) (end_ (position s))).
      rewrite (proj2 (trim_lower_nil (original s)) Hw).
      now rewrite trim_lower_nil. }
    assert (H1 : substring (content ed) (start (position s)) (end_ (position s))
                 <> original s) by congruence.
    rewrite (AcceptFacts.reconcile_relocate fuel (content ed) s H1 H2).
    now rewrite Hhang.
  - intros Hl. unfold handleAcceptAllSuggestions. rewrite Hl.
    unfold applyAll. cbn [sortedSuggestions sort fold_right insertSorted forEach].
    rewrite AcceptAllFacts.acceptAll_step_unfold.
    now rewrite Hhang.
Qed.

Lemma accept_blank_original_hangs_witness :
  handleAcceptSuggestion 1000
    (mkEditor (str "a  b") [] None)
    (mkSuggestion (mkId 0 0) (Some punctuation) (mkPosition 0 2) (str "  ")
                  (str " ") (str "Spacing"))
  = OutOfFuel /\
  handleAcceptAllSuggestions 1000
    (mkEditor (str "a  b")
       [mkSuggestion (mkId 0 0) (Some punctuation) (mkPosition 1 3) (str "  ")
                     (str " ") (str "Spacing")] None)
  = OutOfFuel.
Proof.
  split.
  - destruct (accept_blank_original_hangs 1000
                (mkEditor (str "a  b") [] None)
                (mkSuggestion (mkId 0 0) (Some punctuation) (mkPosition 0 2)
                   (str "  ") (str " ") (str "Spacing")) eq_refl eq_refl)
      as [H _].
    apply H; cbn; try lia; discriminate.
  - destruct (accept_blank_original_hangs 1000
                (mkEditor (str "a  b")
                   [mkSuggestion (mkId 0 0) (Some punctuation) (mkPosition 1 3)
                      (str "  ") (str " ") (str "Spacing")] None)
                (mkSuggestion (mkId 0 0) (Some punctuation) (mkPosition 1 3)
                   (str "  ") (str " ") (str "Spacing")) eq_refl eq_refl)
      as [_ H].
    apply H. reflexivity.
Defined.

(** ** Accepting every suggestion *)

Module AcceptAllMore.
Import AcceptAllFacts.

Lemma acceptAll_step_cases (fuel : nat) (st st' : jsstring * nat) (s : Suggestion) :
  acceptAll_step fuel st s = Done st' ->
  st' = st \/ snd st' = S (snd st).
Proof.
  destruct st as [cur n]. rewrite acceptAll_step_unfold.
  destruct (findWordBoundaries _ _ _ _) as [[|first rest]| |];
    intros H; inversion H; subst; cbn; auto.
Qed.

Lemma forEach_count_mono (fuel : nat) (l : list Suggestion) :
  forall st st',
    forEach (acceptAll_step fuel) l st = Done st' -> (snd st <= snd st')%nat.
Proof.
  induction l as [|s l IH]; intros st st' H; cbn in H.
  - inversion H; subst. lia.
  - destruct (acceptAll_step fuel st s) as [st1| |] eqn:Hs; cbn in H;
      try discriminate.
    apply acceptAll_step_count in Hs. apply IH in H. lia.
Qed.

(** A batch that counts nothing has changed nothing. *)
Lemma forEach_zero (fuel : nat) (l : list Suggestion) :
  forall st st',
    forEach (acceptAll_step fuel) l st = Done st' ->
    snd st' = snd st -> st' = st.
Proof.
  induction l as [|s l IH]; intros st st' H Hn; cbn in H.
  - now inversion H.
  - destruct (acceptAll_step fuel st s) as [st1| |] eqn:Hs; cbn in H;
      try discriminate.
    pose proof (forEach_count_mono _ _ _ _ H).
    destruct (acceptAll_step_cases _ _ _ _ Hs) as [->|Hc]; [auto|lia].
Qed.

End AcceptAllMore.

(** X7: what accepting all leaves behind.  On an empty list nothing
    happens and nothing is said.  Otherwise, either at least one
    suggestion was applied, and then the whole list is cleared, the
    suggestions that were not located included, and the count reported
    lies between 1 and the length of the list; or none was, and then the
    editor is as it was, list included, and the working text the handler
    drops is the unchanged text. *)
Theorem acceptAll_outcomes (fuel : nat) (ed ed' : Editor) (toast : option Toast) :
  handleAcceptAllSuggestions fuel ed = Done (ed', toast) ->
  (suggestions ed = [] -> ed' = ed /\ toast = None) /\
  (suggestions ed <> [] ->
   (exists n newContent,
      toast = Some (AllApplied n) /\
      (0 < n <= List.length (suggestions ed))%nat /\
      applyAll fuel (content ed) (suggestions ed) = Done (newContent, n) /\
      ed' = mkEditor newContent [] (caret ed)) \/
   (toast = Some NoneApplied /\ ed' = ed /\
    applyAll fuel (content ed) (suggestions ed) = Done (content ed, O))).
Proof.
  unfold handleAcceptAllSuggestions. intros H. split.
  - intros Hn. rewrite Hn in H. now inversion H.
  - intros Hne. destruct (suggestions ed) as [|s l] eqn:Hl; [congruence|].
    destruct (applyAll fuel (content ed) (s :: l)) as [[t n]| |] eqn:Ha;
      cbn [bind] in H; try discriminate.
    destruct (0 <? n)%nat eqn:Hn; inversion H; subst.
    + left. exists n, t. apply Nat.ltb_lt in Hn.
      repeat split; auto.
      pose proof Ha as Hc. unfold applyAll in Hc.
      apply AcceptAllFacts.forEach_count in Hc.
      rewrite (Permutation_length
                 (SortFacts.sortedSuggestions_Permutation (s :: l))) in Hc.
      exact Hc.
    + right. apply Nat.ltb_ge in Hn. assert (n = O) by lia. subst n.
      repeat split; auto.
      apply AcceptAllMore.forEach_zero in Ha; [|reflexivity].
      now inversion Ha.
Qed.

Lemma acceptAll_outcomes_witness :
  (exists n newContent,
     Some (AllApplied 1) = Some (AllApplied n) /\
     (0 < n <= 2)%nat /\
     applyAll 9 (str "a b c")
       [mkSuggestion (mkId 0 0) (Some style) (mkPosition 0 1) (str "a")
                     (str "aa") (str "Style");
        mkSuggestion (mkId 0 1) (Some style) (mkPosition 4 5) (str "z")
                     (str "zz") (str "Style")]
     = Done (newContent, n) /\
     mkEditor (str "aa b c") [] None = mkEditor newContent [] None) \/
  (Some (AllApplied 1) = Some NoneApplied /\
   mkEditor (str "aa b c") [] None
   = mkEditor (str "a b c")
       [mkSuggestion (mkId 0 0) (Some style) (mkPosition 0 1) (str "a")
                     (str "aa") (str "Style");
        mkSuggestion (mkId 0 1) (Some style) (mkPosition 4 5) (str "z")
                     (str "zz") (str "Style")] None /\
   applyAll 9 (str "a b c")
     [mkSuggestion (mkId 0 0) (Some style) (mkPosition 0 1) (str "a")
                   (str "aa") (str "Style");
      mkSuggestion (mkId 0 1) (Some style) (mkPosition 4 5) (str "z")
                   (str "zz") (str "Style")]
   = Done (str "a b c", O)).
Proof.
  destruct (acceptAll_outcomes 9
    (mkEditor (str "a b c")
       [mkSuggestion (mkId 0 0) (Some style) (mkPosition 0 1) (str "a")
                     (str "aa") (str "Style");
        mkSuggestion (mkId 0 1) (Some style) (mkPosition 4 5) (str "z")
                     (str "zz") (str "Style")] None)
    (mkEditor (str "aa b c") [] None)
    (Some (AllApplied 1)) eq_refl) as [_ H].
  apply H. discriminate.
Defined.

Lemma slice_nth (text : jsstring) (a b : Z) (k : nat) :
  0 <= a <= b -> b <= JS.length text -> Z.of_nat k < b - a ->
  nth_error (slice text a b) k = nth_error text (Z.to_nat a + k).
Proof.
  intros Ha Hb Hk. unfold slice.
  rewrite nth_error_firstn, nth_error_skipn.
  destruct (Nat.ltb_spec k (Z.to_nat (b - a))); [reflexivity|lia].
Qed.

Lemma forallb_nth {A : Type} (f : A -> bool) (l : list A) (k : nat) (x : A) :
  forallb f l = true -> nth_error l k = Some x -> f x = true.
Proof.
  intros H Hk. rewrite forallb_forall in H. apply H.
  eapply nth_error_In; eauto.
Qed.

(** X8: on a one-word suggestion that is where it says, both handlers
    splice the same span.  When [original] consists of word characters
    only, stands at its span exactly, and has no word character right
    before or right after it, the span accepting all splices is the
    stated span, as is the span the reconciliation returns. *)
Theorem acceptAll_agrees_on_words (fuel : nat) (text : jsstring) (s : Suggestion) :
  let a := start (position s) in
  let b := end_ (position s) in
  0 <= a -> a < b -> b <= JS.length text ->
  slice text a b = original s ->
  forallb RegExp.isBasicWordChar (original s) = true ->
  RegExp.isWordCharBefore text (Z.to_nat a) = false ->
  RegExp.isWordCharAt text (Z.to_nat b) = false ->
  (enoughFuel text <= fuel)%nat ->
  acceptAll_span fuel text s = Done (Some (position s)) /\
  reconcile fuel text s = Done (Some (position s)).
Proof.
  intros a b H0 Hlt Hlen Hex Hword Hbefore Hafter Hfuel.
  set (o := original s) in *.
  assert (Holen : JS.length o = b - a)
    by (rewrite <- Hex; apply slice_length; lia).
  assert (Htrim : trim o = o).
  { apply TrimFacts.trim_no_whiteSpace. rewrite forallb_forall in *.
    intros c Hc. rewrite (TrimFacts.wordChar_not_whiteSpace c); auto. }
  assert (Hat : forall k, (k < List.length o)%nat ->
                          RegExp.isWordCharAt text (Z.to_nat a + k) = true).
  { intros k Hk. unfold RegExp.isWordCharAt.
    rewrite <- (slice_nth text a b k) by (unfold JS.length in *; lia).
    rewrite Hex. destruct (nth_error o k) as [c|] eqn:Hn.
    - apply (forallb_nth _ _ _ _ Hword Hn).
    - apply nth_error_None in Hn. lia. }
  assert (Hocc : occursAt text (trim o) (Z.to_nat a)).
  { rewrite Htrim. unfold occursAt, JS.length in *. repeat split.
    - unfold RegExp.atWordBoundary. rewrite Hbefore.
      specialize (Hat O). rewrite Nat.add_0_r in Hat. rewrite Hat; [reflexivity|lia].
    - lia.
    - f_equal. rewrite <- Hex at 2. unfold slice. f_equal. lia.
    - replace (Z.to_nat a + List.length o)%nat with (Z.to_nat b) by lia.
      unfold RegExp.atWordBoundary. rewrite Hafter.
      destruct (Z.to_nat b) as [|p] eqn:Hp; [lia|]. cbn [RegExp.isWordCharBefore].
      specialize (Hat (List.length o - 1)%nat).
      replace (Z.to_nat a + (List.length o - 1))%nat with p in Hat by lia.
      rewrite Hat; [reflexivity|lia]. }
  assert (Hne : trim o <> []).
  { rewrite Htrim. intros Hnil. rewrite Hnil in Holen. cbn in Holen. lia. }
  destruct (LocatorFacts.findWordBoundaries_terminates fuel text o 0) as [ms Hms];
    auto.
  { now rewrite ClaimFacts.searchWord_nil_iff. }
  assert (Hcov : exists m, In m ms /\ m_start m <= Z.of_nat (Z.to_nat a) < m_end m).
  { pose proof Hms as Hl. rewrite LocatorFacts.findWordBoundaries_unfold in Hl.
    rewrite Htrim in Hocc. apply occursAt_lower in Hocc.
    rewrite <- Htrim, <- ClaimFacts.searchWord_trim in Hocc.
    pose proof Hocc as (_ & Hj & _).
    apply (LocatorMore.loop_complete text (searchWord o) fuel
             (RegExp.mk (wordTerms (searchWord o)) 0) [] ms eq_refl Hl
             (Z.to_nat a) (Z.to_nat a + List.length (searchWord o))%nat).
    - cbn [RegExp.lastIndex]. lia.
    - now apply LocatorMore.occursAt_matchTerms. }
  destruct Hcov as (m & Hin & Hm).
  pose proof (LocatorFacts.findWordBoundaries_Done _ _ _ _ _ Hms) as [Hall _].
  rewrite Forall_forall in Hall.
  assert (Hstart : m_start m = a).
  { destruct (Z.eq_dec (m_start m) a) as [|Hneq]; [assumption|exfalso].
    pose proof (Hall _ Hin) as Ho.
    pose proof (occ_start _ _ _ Ho). pose proof (occ_length _ _ _ Ho) as Hl.
    unfold JS.length in Hl.
    set (k := (Z.to_nat a - 1 - Z.to_nat (m_start m))%nat).
    assert (Hk : (k < List.length (searchWord o))%nat) by (unfold k; lia).
    destruct (nth_error (searchWord o) k) as [c|] eqn:Hc.
    2:{ apply nth_error_None in Hc. lia. }
    destruct (ClaimFacts.occurrence_nth _ _ _ _ _ Ho Hc) as (d & Hd & Hld).
    assert (Hcw : RegExp.isBasicWordChar c = true).
    { rewrite ClaimFacts.searchWord_trim, Htrim in Hc.
      unfold toLowerCase in Hc. rewrite nth_error_map in Hc.
      destruct (nth_error o k) as [c0|] eqn:Hc0; [|discriminate].
      inversion Hc; subst c. rewrite JSFacts.isBasicWordChar_lower.
      apply (forallb_nth _ _ _ _ Hword Hc0). }
    assert (Hdw : RegExp.isBasicWordChar d = true).
    { now rewrite <- JSFacts.isBasicWordChar_lower, Hld,
        JSFacts.isBasicWordChar_lower. }
    replace (Z.to_nat (m_start m) + k)%nat with (Z.to_nat a - 1)%nat in Hd
      by (unfold k; lia).
    destruct (Z.to_nat a) as [|p] eqn:Hp; [lia|].
    cbn [RegExp.isWordCharBefore] in Hbefore. unfold RegExp.isWordCharAt in Hbefore.
    replace (S p - 1)%nat with p in Hd by lia. rewrite Hd in Hbefore. congruence. }
  assert (Hspan : acceptAll_span fuel text s = Done (Some (position s))).
  { unfold acceptAll_span. fold o.
    rewrite (LocatorFacts.findWordBoundaries_unfold fuel text o 0).
    rewrite <- (LocatorFacts.findWordBoundaries_unfold fuel text o 0), Hms.
    cbn [bind]. destruct ms as [|first rest]; [destruct Hin|].
    assert (Hms' : findWordBoundaries fuel text o (start (position s))
                   = Done (first :: rest)).
    { rewrite (LocatorFacts.findWordBoundaries_unfold fuel text o _).
      now rewrite <- (LocatorFacts.findWordBoundaries_unfold fuel text o 0). }
    destruct (AcceptFacts.closest_of_located
                fuel text o (start (position s)) first rest Hms')
      as [(Hcin & Hmin & _) _].
    set (c := closestMatch first (first :: rest) (start (position s))) in *.
    pose proof (Hmin m Hin) as Hd. unfold distance in Hd. fold a in Hd.
    pose proof (Hall _ Hcin) as Hoc. pose proof (occ_length _ _ _ Hoc) as Hl.
    rewrite ClaimFacts.searchWord_trim, JSFacts.length_lower, Htrim in Hl.
    assert (m_start c = a) by lia.
    do 2 f_equal. destruct (position s) as [pa pb]. cbn in *. f_equal; lia. }
  split; [exact Hspan|].
  unfold reconcile. fold a b o.
  rewrite JSFacts.substring_slice by lia. fold (slice text a b).
  apply JSFacts.eqb_eq in Hex. now rewrite Hex.
Qed.

Lemma acceptAll_agrees_on_words_witness :
  acceptAll_span 14 (str "The qick fox")
    (mkSuggestion (mkId 0 0) (Some spelling) (mkPosition 4 8) (str "qick")
                  (str "quick") (str "Spelling"))
  = Done (Some (mkPosition 4 8)) /\
  reconcile 14 (str "The qick fox")
    (mkSuggestion (mkId 0 0) (Some spelling) (mkPosition 4 8) (str "qick")
                  (str "quick") (str "Spelling"))
  = Done (Some (mkPosition 4 8)).
Proof.
  apply (acceptAll_agrees_on_words 14 (str "The qick fox")
           (mkSuggestion (mkId 0 0) (Some spelling) (mkPosition 4 8) (str "qick")
                         (str "quick") (str "Spelling")));
    cbn; try reflexivity; lia.
Defined.

Module SortMore.
Import SortFacts.

Section Keyed.
Context {A : Type} (compare : A -> A -> Z) (key : A -> Z).
Hypothesis compare_key : forall x y, compare x y <= 0 <-> key x <= key y.

Lemma sorted_strict (l : list A) :
  StronglySorted (byKey key) l -> NoDup (map key l) ->
  StronglySorted (fun a b => key a < key b) l.
Proof.
  induction 1 as [|a l Hs IH Hall]; intros Hnd; constructor.
  - apply IH. now inversion Hnd.
  - inversion Hnd as [|? ? Hnin _]; subst.
    rewrite Forall_forall in *. intros b Hb.
    specialize (Hall b Hb). unfold byKey in Hall.
    assert (key a <> key b).
    { intros Heq. apply Hnin. rewrite Heq. now apply in_map. }
    lia.
Qed.

(** Two strictly sorted lists with the same elements are the same list. *)
Lemma strict_sorted_unique (l1 : list A) :
  forall l2,
    StronglySorted (fun a b => key a < key b) l1 ->
    StronglySorted (fun a b => key a < key b) l2 ->
    Permutation l1 l2 -> l1 = l2.
Proof.
  induction l1 as [|a l1 IH]; intros l2 H1 H2 Hp.
  - apply Permutation_nil in Hp. now subst.
  - destruct l2 as [|b l2].
    { apply Permutation_sym, Permutation_nil in Hp. discriminate. }
    inversion H1 as [|? ? H1' Ha]; subst.
    inversion H2 as [|? ? H2' Hb]; subst.
    rewrite Forall_forall in Ha, Hb.
    assert (Hab : a = b).
    { assert (Hina : In a (b :: l2))
        by (eapply Permutation_in; [exact Hp|now left]).
      assert (Hinb : In b (a :: l1))
        by (eapply Permutation_in; [apply Permutation_sym; exact Hp|now left]).
      destruct Hina as [->|Hina]; [reflexivity|].
      destruct Hinb as [->|Hinb]; [reflexivity|].
      specialize (Ha _ Hinb). specialize (Hb _ Hina). lia. }
    subst b. f_equal. apply IH; auto.
    eapply Permutation_cons_inv; eauto.
Qed.

(** With pairwise distinct keys the sorted list depends on the elements
    only, not on the order they came in. *)
Lemma sort_Permutation_eq (l l' : list A) :
  Permutation l l' -> NoDup (map key l) ->
  sort compare l = sort compare l'.
Proof.
  intros Hp Hnd.
  apply strict_sorted_unique.
  - apply sorted_strict; [now apply sort_sorted|].
    eapply Permutation_NoDup; [|exact Hnd].
    apply Permutation_map, Permutation_sym, sort_Permutation.
  - apply sorted_strict; [now apply sort_sorted|].
    eapply Permutation_NoDup; [|exact Hnd].
    apply Permutation_map.
    eapply Permutation_trans; [exact Hp|].
    apply Permutation_sym, sort_Permutation.
  - eapply Permutation_trans; [apply sort_Permutation|].
    eapply Permutation_trans; [exact Hp|].
    apply Permutation_sym, sort_Permutation.
Qed.

(** Sorting a sorted list changes nothing. *)
Lemma sort_sorted_id (l : list A) :
  StronglySorted (byKey key) l -> sort compare l = l.
Proof.
  induction 1 as [|a l Hs IH Hall]; [reflexivity|].
  cbn [sort fold_right]. fold (sort compare l). rewrite IH.
  destruct l as [|b l]; [reflexivity|]. cbn.
  inversion Hall as [|? ? Hab _]; subst. unfold byKey in Hab.
  apply compare_key in Hab. apply Z.leb_le in Hab. now rewrite Hab.
Qed.
End Keyed.

End SortMore.

(** X9: the order in which the suggestions sit in the list does not
    matter to accepting all, as long as no two of them start at the same
    offset: any rearrangement of the list gives the same run, text and
    count. *)
Theorem applyAll_order_independent (fuel : nat) (text : jsstring)
    (l l' : list Suggestion) :
  Permutation l l' ->
  NoDup (map (fun s => start (position s)) l) ->
  applyAll fuel text l = applyAll fuel text l'.
Proof.
  intros Hp Hnd. unfold applyAll, sortedSuggestions.
  rewrite (SortMore.sort_Permutation_eq
             (fun a b => start (position b) - start (position a))
             (fun s => - start (position s))
             ltac:(intros; lia) l l' Hp); [reflexivity|].
  assert (Hinj : map (fun s => - start (position s)) l
                 = map Z.opp (map (fun s => start (position s)) l))
    by (now rewrite map_map).
  rewrite Hinj. clear Hinj Hp.
  induction Hnd as [|x xs Hnin Hnd IH]; cbn; constructor; auto.
  rewrite in_map_iff. intros (y & Hy & Hin).
  assert (y = x) by lia. subst y. contradiction.
Qed.

Lemma applyAll_order_independent_witness :
  applyAll 9 (str "a b c")
    [mkSuggestion (mkId 0 0) (Some style) (mkPosition 0 1) (str "a")
                  (str "aa") (str "Style");
     mkSuggestion (mkId 0 1) (Some style) (mkPosition 4 5) (str "c")
                  (str "cc") (str "Style")]
  = applyAll 9 (str "a b c")
      [mkSuggestion (mkId 0 1) (Some style) (mkPosition 4 5) (str "c")
                    (str "cc") (str "Style");
       mkSuggestion (mkId 0 0) (Some style) (mkPosition 0 1) (str "a")
                    (str "aa") (str "Style")].
Proof.
  apply applyAll_order_independent.
  - apply perm_swap.
  - cbn. repeat constructor; cbn; intuition discriminate.
Defined.

(** X10: a step of accepting all either leaves text and count alone or
    counts one and replaces one occurrence of the trimmed [original]:
    the text splits into a part before, the part replaced and a part
    after, the part replaced is not empty and is the trimmed [original]
    up to case, and the new text is the part before, [correction], the
    part after. *)
Theorem acceptAll_step_replaces_original (fuel : nat) (cur cur' : jsstring)
    (n n' : nat) (s : Suggestion) :
  acceptAll_step fuel (cur, n) s = Done (cur', n') ->
  (n' = n /\ cur' = cur) \/
  (n' = S n /\
   exists pre replaced post,
     cur = pre ++ replaced ++ post /\
     cur' = pre ++ correction s ++ post /\
     replaced <> [] /\
     toLowerCase replaced = toLowerCase (trim (original s))).
Proof.
  rewrite AcceptAllFacts.acceptAll_step_unfold.
  destruct (findWordBoundaries fuel cur (original s) (start (position s)))
    as [[|first rest]| |] eqn:Hf; intros H; try discriminate.
  - left. now inversion H.
  - right. cbv zeta in H. inversion H; subst. clear H. split; [reflexivity|].
    destruct (AcceptFacts.closest_of_located _ _ _ _ _ _ Hf)
      as [(Hin & _) (Hs & Hl & He)].
    apply LocatorFacts.findWordBoundaries_Done in Hf. destruct Hf as [Hall _].
    rewrite Forall_forall in Hall. specialize (Hall _ Hin).
    set (c := closestMatch first (first :: rest) (start (position s))) in *.
    exists (slice cur 0 (m_start c)), (slice cur (m_start c) (m_end c)),
           (slice cur (m_end c) (JS.length cur)).
    unfold substring_from. rewrite !JSFacts.substring_slice by lia.
    repeat split.
    + apply slice_split; lia.
    + intros Hnil. pose proof (slice_length cur (m_start c) (m_end c)) as Hl'.
      rewrite Hnil in Hl'. cbn in Hl'. lia.
    + unfold slice. rewrite <- (JSFacts.substring_slice cur _ _) by lia.
      rewrite <- (occ_text _ _ _ Hall), (occ_ci _ _ _ Hall).
      now rewrite ClaimFacts.searchWord_trim, JSFacts.toLowerCase_idem.
Qed.

Lemma acceptAll_step_replaces_original_witness :
  (2%nat = 1%nat /\ str "The quick fox" = str "The Qick fox") \/
  (2%nat = 2%nat /\
   exists pre replaced post,
     str "The Qick fox" = pre ++ replaced ++ post /\
     str "The quick fox" = pre ++ str "quick" ++ post /\
     replaced <> [] /\
     toLowerCase replaced = toLowerCase (trim (str " qick"))).
Proof.
  apply (acceptAll_step_replaces_original 14 (str "The Qick fox")
           (str "The quick fox") 1 2
           (mkSuggestion (mkId 0 0) (Some spelling) (mkPosition 0 4) (str " qick")
                         (str "quick") (str "Spelling"))).
  reflexivity.
Defined.

(** ** The validator *)

Module ValidatorMore.
Import JSFacts SortFacts ValidatorFacts.

Lemma sameSuggestion_triple (a b : Suggestion) :
  sameSuggestion a b = true <-> triple a = triple b.
Proof.
  unfold sameSuggestion, triple.
  rewrite !andb_true_iff, !Z.eqb_eq, eqb_eq. split.
  - intros [[-> ->] ->]. reflexivity.
  - intros H. inversion H. auto.
Qed.

Lemma existsb_same (before : list Suggestion) (s : Suggestion) :
  existsb (fun prev => sameSuggestion prev s) before = true
  <-> In (triple s) (map triple before).
Proof.
  rewrite existsb_exists, in_map_iff. split.
  - intros (x & Hin & Hs). apply sameSuggestion_triple in Hs. eauto.
  - intros (x & Heq & Hin). exists x. split; [assumption|].
    now apply sameSuggestion_triple.
Qed.

(** The second filter keeps one suggestion per triple, none of them a
    triple seen before. *)
Lemma removeDuplicates_NoDup (l : list Suggestion) :
  forall before,
    NoDup (map triple (removeDuplicates_from before l)) /\
    (forall x, In x (removeDuplicates_from before l) ->
               ~ In (triple x) (map triple before)).
Proof.
  induction l as [|s l IH]; intros before; cbn.
  - split; [constructor|tauto].
  - destruct (IH (before ++ [s])) as [Hnd Hout].
    assert (Hrest : forall x, In x (removeDuplicates_from (before ++ [s]) l) ->
                              triple x <> triple s /\
                              ~ In (triple x) (map triple before)).
    { intros x Hx. specialize (Hout x Hx).
      rewrite map_app, in_app_iff in Hout. cbn in Hout. split; intro; apply Hout; auto. }
    destruct (existsb _ before) eqn:He; cbn.
    + split; [assumption|]. intros x Hx. now apply Hrest.
    + split.
      * constructor; [|assumption]. rewrite in_map_iff.
        intros (x & Heq & Hx). destruct (Hrest x Hx) as [Hne _]. congruence.
      * intros x [<-|Hx]; [|now apply Hrest].
        intros Hin. apply existsb_same in Hin. congruence.
Qed.

(** Nothing is lost but duplicates: every suggestion has its triple
    among the ones seen before or among the ones kept. *)
Lemma removeDuplicates_complete (l : list Suggestion) :
  forall before x,
    In x l ->
    In (triple x) (map triple before) \/
    In (triple x) (map triple (removeDuplicates_from before l)).
Proof.
  induction l as [|s l IH]; intros before x Hx; [destruct Hx|]. cbn.
  destruct Hx as [->|Hx].
  - destruct (existsb _ before) eqn:He.
    + left. now apply existsb_same.
    + right. cbn. now left.
  - destruct (IH (before ++ [s]) x Hx) as [Hin|Hin].
    + rewrite map_app, in_app_iff in Hin. cbn in Hin.
      destruct Hin as [Hin|[Heq|[]]]; [now left|].
      destruct (existsb _ before) eqn:He.
      * left. rewrite <- Heq. now apply existsb_same.
      * right. cbn. now left.
    + right. rewrite map_app, in_app_iff. now right.
Qed.

Lemma removeDuplicates_ids (l : list Suggestion) :
  forall before,
    NoDup (map id l) -> NoDup (map id (removeDuplicates_from before l)).
Proof.
  induction l as [|s l IH]; intros before Hnd; cbn; [constructor|].
  inversion Hnd as [|? ? Hnin Hnd']; subst.
  destruct (existsb _ before); cbn; [now apply IH|].
  constructor; [|now apply IH].
  rewrite in_map_iff. intros (x & Heq & Hx).
  apply In_removeDuplicates_from in Hx. apply Hnin.
  rewrite <- Heq. now apply in_map.
Qed.

Lemma removeDuplicates_length (l : list Suggestion) :
  forall before,
    (List.length (removeDuplicates_from before l) <= List.length l)%nat.
Proof.
  induction l as [|s l IH]; intros before; cbn; [lia|].
  rewrite List.length_app. specialize (IH (before ++ [s])).
  destruct (existsb _ before); cbn; lia.
Qed.

(** Without duplicates the second filter keeps everything. *)
Lemma removeDuplicates_id (l : list Suggestion) :
  forall before,
    NoDup (map triple l) ->
    (forall x, In x l -> ~ In (triple x) (map triple before)) ->
    removeDuplicates_from before l = l.
Proof.
  induction l as [|s l IH]; intros before Hnd Hout; [reflexivity|]. cbn.
  inversion Hnd as [|? ? Hnin Hnd']; subst.
  destruct (existsb _ before) eqn:He.
  - apply existsb_same in He. exfalso. apply (Hout s); [now left|assumption].
  - cbn. f_equal. apply IH; [assumption|].
    intros x Hx. rewrite map_app, in_app_iff. cbn.
    intros [Hin|[Heq|[]]].
    + apply (Hout x); [now right|assumption].
    + apply Hnin. rewrite Heq. now apply in_map.
Qed.

Lemma mapi_from_ids {A : Type} (f : nat -> A -> Suggestion) (l : list A) :
  (forall i x, id_index (id (f i x)) = i) ->
  forall index,
    map (fun s => id_index (id s)) (mapi_from f index l)
    = seq index (List.length l).
Proof.
  intros Hf. induction l as [|x l IH]; intros index; cbn; [reflexivity|].
  now rewrite Hf, IH.
Qed.

Lemma mapi_from_length {A B : Type} (f : nat -> A -> B) (l : list A) :
  forall index, List.length (mapi_from f index l) = List.length l.
Proof.
  induction l as [|x l IH]; intros index; cbn; [reflexivity|]. now rewrite IH.
Qed.

Lemma In_mapi_from_intro {A B : Type} (f : nat -> A -> B) (l : list A) (x : A) :
  In x l -> forall index, exists i, In (f i x) (mapi_from f index l).
Proof.
  induction l as [|y l IH]; intros Hx index; [destruct Hx|].
  destruct Hx as [->|Hx].
  - exists index. now left.
  - destruct (IH Hx (S index)) as [i Hi]. exists i. now right.
Qed.

End ValidatorMore.

Lemma validate_Permutation (now : nat -> Z) (raws : list (option RawSuggestion))
    (textLength : Z) :
  Permutation
    (validate now raws textLength)
    (removeDuplicates_from []
       (mapi_from (withId now textLength) 0
                  (flat_map typed (filter (filterRaw textLength) raws)))).
Proof. apply SortFacts.sort_Permutation. Qed.

Lemma validate_sorted (now : nat -> Z) (raws : list (option RawSuggestion))
    (textLength : Z) :
  StronglySorted (byKey (fun a => start (position a)))
                 (validate now raws textLength).
Proof.
  apply (SortFacts.sort_sorted
           (fun a b => start (position a) - start (position b))
           (fun a => start (position a))).
  intros x y. lia.
Qed.

Lemma validate_NoDup_triple (now : nat -> Z) (raws : list (option RawSuggestion))
    (textLength : Z) :
  NoDup (map triple (validate now raws textLength)).
Proof.
  eapply Permutation_NoDup.
  - apply Permutation_map, Permutation_sym, validate_Permutation.
  - apply ValidatorMore.removeDuplicates_NoDup.
Qed.

Lemma validate_NoDup_id (now : nat -> Z) (raws : list (option RawSuggestion))
    (textLength : Z) :
  NoDup (map id (validate now raws textLength)).
Proof.
  eapply Permutation_NoDup.
  - apply Permutation_map, Permutation_sym, validate_Permutation.
  - apply ValidatorMore.removeDuplicates_ids.
    apply (NoDup_map_inv (fun i => id_index i)). rewrite map_map.
    rewrite (ValidatorMore.mapi_from_ids (withId now textLength)).
    + apply seq_NoDup.
    + intros i [[s e] r]. reflexivity.
Qed.

(** X11: the list the validator returns is sorted by ascending start,
    holds no two suggestions with the same start, end and [original],
    and gives every suggestion an id of its own. *)
Theorem validate_sorted_distinct (now : nat -> Z)
    (rawSuggestions : list (option RawSuggestion)) (textLength : Z) :
  let l := validate now rawSuggestions textLength in
  StronglySorted (fun a b => start (position a) <= start (position b)) l /\
  NoDup (map triple l) /\
  NoDup (map id l).
Proof.
  intros l. split; [|split].
  - exact (validate_sorted now rawSuggestions textLength).
  - apply validate_NoDup_triple.
  - apply validate_NoDup_id.
Qed.

(** X12: the validator loses nothing but duplicates.  An entry that
    passes the first filter is represented in the result: some suggestion
    kept has its start, its end and its [original]. *)
Theorem validate_keeps_valid (now : nat -> Z)
    (rawSuggestions : list (option RawSuggestion)) (textLength : Z)
    (r : RawSuggestion) (s e : Z) :
  In (Some r) rawSuggestions ->
  raw_position r = Some (mkRawPosition (Some s) (Some e)) ->
  filterRaw textLength (Some r) = true ->
  exists sug,
    In sug (validate now rawSuggestions textLength) /\
    triple sug = (s, e, raw_original r).
Proof.
  intros Hin Hp Hf.
  assert (Ht : In (s, e, r)
                 (flat_map typed (filter (filterRaw textLength) rawSuggestions))).
  { apply in_flat_map. exists (Some r). split.
    - apply filter_In. auto.
    - cbn. rewrite Hp. now left. }
  destruct (ValidatorMore.In_mapi_from_intro (withId now textLength) _ _ Ht 0%nat)
    as [i Hi].
  destruct (ValidatorMore.removeDuplicates_complete _ [] _ Hi) as [[]|Hd].
  apply in_map_iff in Hd. destruct Hd as (y & Hy & Hyin).
  exists y. split.
  - eapply Permutation_in; [apply Permutation_sym, validate_Permutation|].
    exact Hyin.
  - rewrite Hy. apply ValidatorFacts.filterRaw_true_iff in Hf.
    destruct Hf as (s' & e' & Hp' & H0 & He & Hlt & _).
    rewrite Hp in Hp'. inversion Hp'; subst s' e'.
    unfold triple.
    rewrite (ValidatorFacts.withId_in_range now textLength i s e r H0 He Hlt).
    reflexivity.
Qed.

Lemma validate_keeps_valid_witness :
  exists sug,
    In sug (validate (fun _ => 7)
              [None;
               Some (mkRaw (Some spelling) (Some (mkRawPosition (Some 0) (Some 3)))
                           (str "Teh") (str "The") (str "Spelling"));
               Some (mkRaw (Some style) (Some (mkRawPosition (Some 0) (Some 3)))
                           (str "Teh") (str "A") (str "Style"))] 10) /\
    triple sug = (0, 3, str "Teh").
Proof.
  apply (validate_keeps_valid (fun _ => 7) _ 10
           (mkRaw (Some style) (Some (mkRawPosition (Some 0) (Some 3)))
                  (str "Teh") (str "A") (str "Style")) 0 3).
  - right. right. now left.
  - reflexivity.
  - reflexivity.
Defined.

Lemma flat_map_typed_length (l : list (option RawSuggestion)) :
  (List.length (flat_map typed l) <= List.length l)%nat.
Proof.
  induction l as [|x l IH]; cbn; [lia|]. rewrite List.length_app.
  assert (List.length (typed x) <= 1)%nat.
  { destruct x as [r|]; cbn; [|lia].
    destruct (raw_position r) as [[[s|] [e|]]|]; cbn; lia. }
  lia.
Qed.

(** X13: the validator returns no more suggestions than it was given
    entries, and every suggestion it returns has a non-empty [original],
    [correction] and [explanation]. *)
Theorem validate_fields (now : nat -> Z)
    (rawSuggestions : list (option RawSuggestion)) (textLength : Z) :
  (List.length (validate now rawSuggestions textLength)
   <= List.length rawSuggestions)%nat /\
  (forall sug,
     In sug (validate now rawSuggestions textLength) ->
     original sug <> [] /\ correction sug <> [] /\ explanation sug <> []).
Proof.
  split.
  - rewrite (Permutation_length (validate_Permutation _ _ _)).
    eapply Nat.le_trans; [apply ValidatorMore.removeDuplicates_length|].
    rewrite ValidatorMore.mapi_from_length.
    eapply Nat.le_trans; [apply flat_map_typed_length|].
    apply filter_length_le.
  - intros sug Hin. apply ValidatorFacts.validate_origin in Hin.
    destruct Hin as (index & s & e & r & Hr & Hf & Hp & ->).
    apply ValidatorFacts.filterRaw_true_iff in Hf.
    destruct Hf as (s' & e' & _ & _ & _ & _ & Ho & Hc & Hx & _).
    cbn. auto.
Qed.

Lemma validate_fields_witness :
  let sug := mkSuggestion (mkId 7 0) (Some spelling) (mkPosition 0 3)
               (str "Teh") (str "The") (str "Spelling") in
  original sug <> [] /\ correction sug <> [] /\ explanation sug <> [].
Proof.
  intros sug.
  destruct (validate_fields (fun _ => 7)
    [Some (mkRaw (Some spelling) (Some (mkRawPosition (Some 0) (Some 3)))
                 (str "Teh") (str "The") (str "Spelling")); None] 10) as [_ H].
  apply (H sug). left. reflexivity.
Defined.

Module IdempotenceFacts.
Import ValidatorFacts ValidatorMore SortFacts.

Lemma filter_all {A : Type} (f : A -> bool) (l : list A) :
  (forall x, In x l -> f x = true) -> filter f l = l.
Proof.
  induction l as [|x l IH]; intros H; cbn; [reflexivity|].
  rewrite (H x (or_introl eq_refl)). f_equal. apply IH.
  intros y Hy. apply H. now right.
Qed.

(** What every validated suggestion satisfies. *)
Lemma validate_valid (now : nat -> Z) (raws : list (option RawSuggestion))
    (textLength : Z) (sug : Suggestion) :
  In sug (validate now raws textLength) ->
  0 <= start (position sug) /\ start (position sug) < end_ (position sug) /\
  end_ (position sug) <= textLength /\
  original sug <> [] /\ correction sug <> [] /\ explanation sug <> [] /\
  original sug <> correction sug.
Proof.
  intros Hin. apply validate_origin in Hin.
  destruct Hin as (index & s & e & r & Hr & Hf & Hp & ->).
  apply filterRaw_true_iff in Hf.
  destruct Hf as (s' & e' & Hp' & H0 & He & Hlt & Ho & Hc & Hx & Hne).
  rewrite Hp in Hp'. inversion Hp'; subst s' e'.
  rewrite (withId_in_range now textLength index s e r H0 He Hlt).
  cbn. auto 10.
Qed.

Lemma mapi_from_renumber_triple (now : nat -> Z) (l : list Suggestion) :
  forall index, map triple (mapi_from (renumber now) index l) = map triple l.
Proof.
  induction l as [|s l IH]; intros index; cbn; [reflexivity|].
  now rewrite IH.
Qed.

Lemma mapi_from_renumber_sorted (now : nat -> Z) (l : list Suggestion) :
  StronglySorted (byKey (fun s => start (position s))) l ->
  forall index,
    StronglySorted (byKey (fun s => start (position s)))
                   (mapi_from (renumber now) index l).
Proof.
  induction 1 as [|a l Hs IH Hall]; intros index; cbn; constructor.
  - apply IH.
  - rewrite Forall_forall in *. intros y Hy.
    apply In_mapi_from in Hy. destruct Hy as (i & x & Hx & ->).
    apply (Hall x Hx).
Qed.

(** The first three stages on an already validated list: only the ids
    change. *)
Lemma revalidate_mapped (now : nat -> Z) (textLength : Z) (l : list Suggestion) :
  (forall s, In s l ->
     0 <= start (position s) /\ start (position s) < end_ (position s) /\
     end_ (position s) <= textLength /\
     original s <> [] /\ correction s <> [] /\ explanation s <> [] /\
     original s <> correction s) ->
  forall index,
    mapi_from (withId now textLength) index
      (flat_map typed (filter (filterRaw textLength) (map toRaw l)))
    = mapi_from (renumber now) index l.
Proof.
  induction l as [|s l IH]; intros Hv index; [reflexivity|].
  destruct (Hv s (or_introl eq_refl)) as (H0 & Hlt & He & Ho & Hc & Hx & Hne).
  assert (Hf : filterRaw textLength (toRaw s) = true).
  { apply filterRaw_true_iff. exists (start (position s)), (end_ (position s)).
    cbn. auto 10. }
  cbn [map filter]. rewrite Hf. cbn [flat_map typed toRaw raw_position app].
  cbn [mapi_from]. f_equal.
  - unfold withId, renumber. cbn. destruct (position s) as [a b]. cbn in *.
    repeat f_equal; lia.
  - apply IH. intros x Hx'. apply Hv. now right.
Qed.

End IdempotenceFacts.

(** X14: validating a validated list again changes nothing but the
    ids.  Fed back as a batch, for the same text length, the result of the
    validator comes out in the same order with the same spans and
    strings. *)
Theorem validate_idempotent (now now' : nat -> Z)
    (rawSuggestions : list (option RawSuggestion)) (textLength : Z) :
  let l := validate now rawSuggestions textLength in
  validate now' (map toRaw l) textLength = mapi_from (renumber now') 0 l.
Proof.
  intros l.
  pose proof (validate_sorted now rawSuggestions textLength) as Hs.
  pose proof (validate_NoDup_triple now rawSuggestions textLength) as Hnd.
  fold l in Hs, Hnd.
  unfold validate at 1.
  rewrite (IdempotenceFacts.revalidate_mapped now' textLength l).
  2:{ intros s Hs'. now apply (IdempotenceFacts.validate_valid now rawSuggestions). }
  rewrite ValidatorMore.removeDuplicates_id.
  - apply (SortMore.sort_sorted_id _ (fun s => start (position s))).
    + intros x y. lia.
    + now apply IdempotenceFacts.mapi_from_renumber_sorted.
  - now rewrite IdempotenceFacts.mapi_from_renumber_triple.
  - intros x _ [].
Qed.

Lemma SuggestionId_eqb_eq (a b : SuggestionId) :
  SuggestionId_eqb a b = true <-> a = b.
Proof.
  unfold SuggestionId_eqb. rewrite andb_true_iff, Z.eqb_eq, Nat.eqb_eq.
  destruct a, b; cbn. split; [intros [-> ->]; reflexivity|].
  intros H; inversion H; auto.
Qed.

Lemma removeSuggestion_absent (sid : SuggestionId) (l : list Suggestion) :
  ~ In sid (map id l) -> removeSuggestion sid l = l.
Proof.
  intros H. apply IdempotenceFacts.filter_all. intros x Hx.
  destruct (SuggestionId_eqb (id x) sid) eqn:He; [|reflexivity].
  apply SuggestionId_eqb_eq in He. exfalso. apply H. rewrite <- He.
  now apply in_map.
Qed.

Lemma removeSuggestion_unique (l : list Suggestion) (s : Suggestion) :
  NoDup (map id l) -> In s l ->
  exists l1 l2, l = l1 ++ s :: l2 /\ removeSuggestion (id s) l = l1 ++ l2.
Proof.
  intros Hnd Hin. apply in_split in Hin. destruct Hin as (l1 & l2 & ->).
  exists l1, l2. split; [reflexivity|].
  rewrite map_app in Hnd. cbn in Hnd.
  pose proof (NoDup_remove_2 _ _ _ Hnd) as Hnot.
  rewrite in_app_iff in Hnot.
  unfold removeSuggestion. rewrite filter_app. cbn [filter].
  assert (He : SuggestionId_eqb (id s) (id s) = true)
    by now apply SuggestionId_eqb_eq.
  rewrite He. cbn [negb].
  fold (removeSuggestion (id s) l1). fold (removeSuggestion (id s) l2).
  rewrite !removeSuggestion_absent; auto.
Qed.

(** X15: in a list the validator returned, rejecting a suggestion, or
    accepting one that is applied, takes exactly that suggestion out: the
    list is cut at its place and closed again, everything else staying in
    order.  Removing an id that is not in the list changes nothing. *)
Theorem remove_exactly_one (now : nat -> Z)
    (rawSuggestions : list (option RawSuggestion)) (textLength : Z)
    (ed : Editor) (s : Suggestion) :
  suggestions ed = validate now rawSuggestions textLength ->
  (In s (suggestions ed) ->
   exists l1 l2,
     suggestions ed = l1 ++ s :: l2 /\
     suggestions (handleRejectSuggestion ed s) = l1 ++ l2 /\
     (forall fuel ed',
        handleAcceptSuggestion fuel ed s = Done (ed', SuggestionApplied) ->
        suggestions ed' = l1 ++ l2)) /\
  (~ In (id s) (map id (suggestions ed)) ->
   handleRejectSuggestion ed s = ed).
Proof.
  intros Hv. split.
  - intros Hin.
    pose proof (validate_NoDup_id now rawSuggestions textLength) as Hids.
    rewrite <- Hv in Hids.
    destruct (removeSuggestion_unique _ _ Hids Hin) as (l1 & l2 & Hl & Hr).
    exists l1, l2. repeat split; auto.
    intros fuel ed' Ha. unfold handleAcceptSuggestion in Ha.
    destruct (_ || _); [discriminate|].
    destruct (reconcile fuel (content ed) s) as [[p|]| |];
      cbn [bind] in Ha; try discriminate.
    inversion Ha; subst ed'. cbn [suggestions]. exact Hr.
  - intros Hn. unfold handleRejectSuggestion.
    rewrite (removeSuggestion_absent _ _ Hn). now destruct ed.
Qed.

Lemma remove_exactly_one_witness :
  exists l1 l2,
    validate (fun _ => 7)
      [Some (mkRaw (Some spelling) (Some (mkRawPosition (Some 4) (Some 8)))
                   (str "qick") (str "quick") (str "Spelling"));
       Some (mkRaw (Some spelling) (Some (mkRawPosition (Some 0) (Some 3)))
                   (str "Teh") (str "The") (str "Spelling"))] 12
    = l1 ++ mkSuggestion (mkId 7 0) (Some spelling) (mkPosition 4 8)
                         (str "qick") (str "quick") (str "Spelling") :: l2 /\
    l1 = [mkSuggestion (mkId 7 1) (Some spelling) (mkPosition 0 3)
                       (str "Teh") (str "The") (str "Spelling")] /\
    l2 = [].
Proof.
  destruct (remove_exactly_one (fun _ => 7)
    [Some (mkRaw (Some spelling) (Some (mkRawPosition (Some 4) (Some 8)))
                 (str "qick") (str "quick") (str "Spelling"));
     Some (mkRaw (Some spelling) (Some (mkRawPosition (Some 0) (Some 3)))
                 (str "Teh") (str "The") (str "Spelling"))] 12
    (mkEditor (str "Teh qick fox")
       (validate (fun _ => 7)
          [Some (mkRaw (Some spelling) (Some (mkRawPosition (Some 4) (Some 8)))
                       (str "qick") (str "quick") (str "Spelling"));
           Some (mkRaw (Some spelling) (Some (mkRawPosition (Some 0) (Some 3)))
                       (str "Teh") (str "The") (str "Spelling"))] 12) None)
    (mkSuggestion (mkId 7 0) (Some spelling) (mkPosition 4 8)
                  (str "qick") (str "quick") (str "Spelling")) eq_refl)
    as [H _].
  destruct H as (l1 & l2 & Hl & Hr & _); [right; now left|].
  exists l1, l2. split; [exact Hl|].
  vm_compute in Hr. cbn [suggestions] in Hl. vm_compute in Hl.
  destruct l1 as [|x [|y l1]]; cbn in Hr, Hl.
  - inversion Hl.
  - inversion Hl; subst. split; reflexivity.
  - inversion Hl; subst. destruct l1; discriminate.
Defined.

(** ** The toast for a failed check *)

Module IncludesFacts.

Lemma startsWith_iff (s p : jsstring) :
  startsWith s p = true <-> exists post, s = p ++ post.
Proof.
  revert s. induction p as [|c p IH]; intros s; cbn.
  - split; [eauto|reflexivity].
  - destruct s as [|d s].
    + split; [discriminate|intros [post H]; discriminate].
    + rewrite andb_true_iff, Ascii.eqb_eq, IH. split.
      * intros [-> [post ->]]. eauto.
      * intros [post H]. inversion H. eauto.
Qed.

Lemma includes_iff (s sub : jsstring) :
  includes s sub = true <-> exists pre post, s = pre ++ sub ++ post.
Proof.
  induction s as [|d s IH]; cbn [includes]; rewrite orb_true_iff.
  - rewrite startsWith_iff. split.
    + intros [[post H]|H]; [exists [], post; exact H|discriminate].
    + intros (pre & post & H). left.
      destruct pre; [exists post; exact H|discriminate].
  - rewrite startsWith_iff, IH. split.
    + intros [[post H]|(pre & post & H)].
      * exists [], post. exact H.
      * exists (d :: pre), post. cbn. now rewrite H.
    + intros (pre & post & H). destruct pre as [|x pre]; cbn in H.
      * left. eauto.
      * right. inversion H. eauto.
Qed.

(** A string that includes [a ++ b] includes [b]. *)
Lemma includes_suffix (s a b : jsstring) :
  includes s (a ++ b) = true -> includes s b = true.
Proof.
  rewrite !includes_iff. intros (pre & post & ->).
  exists (pre ++ a), post. now rewrite <- !app_assoc.
Qed.

End IncludesFacts.

(** X16: the toast "Invalid OpenAI API key" is never shown.  Every
    message that includes "Invalid OpenAI API key" includes
    "OpenAI API key" as well, and that test comes first: such a message
    gets the toast saying that the key is not configured. *)
Theorem errorToast_never_invalid (message : option jsstring) :
  errorToast message <> KeyInvalid /\
  (messageIncludes message (str "Invalid OpenAI API key") = true ->
   errorToast message = KeyNotConfigured).
Proof.
  assert (H : messageIncludes message (str "Invalid OpenAI API key") = true ->
              messageIncludes message (str "OpenAI API key") = true).
  { destruct message as [m|]; cbn [messageIncludes]; [|discriminate].
    apply (IncludesFacts.includes_suffix m (str "Invalid ") (str "OpenAI API key")). }
  unfold errorToast. split.
  - destruct (messageIncludes message (str "OpenAI API key")) eqn:H1;
      [discriminate|].
    destruct (messageIncludes message (str "Invalid OpenAI API key")) eqn:H2;
      [|discriminate].
    specialize (H eq_refl). discriminate H.
  - intros H2. now rewrite (H H2).
Qed.

Lemma errorToast_never_invalid_witness :
  errorToast
    (Some (str "Invalid OpenAI API key. Please check your OPENAI_API_KEY in Edge Function Secrets."))
  = KeyNotConfigured.
Proof.
  apply (errorToast_never_invalid
           (Some (str "Invalid OpenAI API key. Please check your OPENAI_API_KEY in Edge Function Secrets."))).
  reflexivity.
Defined.

(** ** The caret *)

Module CaretFacts.

Lemma totalLength_nonneg (l : list nat) : 0 <= totalLength l.
Proof. unfold totalLength. induction l; cbn [fold_right]; lia. Qed.

Lemma totalLength_cons (n : nat) (l : list nat) :
  totalLength (n :: l) = Z.of_nat n + totalLength l.
Proof. reflexivity. Qed.

(** The walk stops in the first node whose end reaches [position]. *)
Lemma walk_reaches (nodeLengths : list nat) :
  forall rank currentPos position,
    nodeLengths <> [] ->
    currentPos <= position <= currentPos + totalLength nodeLengths ->
    exists k nodeLength,
      nth_error nodeLengths k = Some nodeLength /\
      walkTextNodes nodeLengths rank currentPos position
      = Some ((rank + k)%nat,
              position - (currentPos + totalLength (firstn k nodeLengths))) /\
      0 <= position - (currentPos + totalLength (firstn k nodeLengths))
        <= Z.of_nat nodeLength /\
      (forall j, (j < k)%nat ->
                 currentPos + totalLength (firstn (S j) nodeLengths) < position).
Proof.
  induction nodeLengths as [|n l IH]; intros rank cur pos Hne Hr; [congruence|].
  cbn [walkTextNodes]. rewrite totalLength_cons in Hr.
  destruct (cur + Z.of_nat n >=? pos) eqn:Hg.
  - rewrite Z.geb_leb in Hg. apply Z.leb_le in Hg.
    exists O, n. cbn [nth_error firstn totalLength fold_right].
    rewrite Nat.add_0_r, Z.add_0_r. repeat split; try lia.
    all: try (do 2 f_equal; lia).
    all: try (intros j Hj; lia).
  - rewrite Z.geb_leb in Hg. apply Z.leb_gt in Hg.
    destruct l as [|n' l'].
    { cbn in Hr. lia. }
    destruct (IH (S rank) (cur + Z.of_nat n) pos) as (k & len & Hk & Hw & Ho & Hf);
      [discriminate|lia|].
    exists (S k), len. cbn [nth_error]. rewrite Hw.
    rewrite firstn_cons, totalLength_cons.
    repeat split; try lia.
    + exact Hk.
    + do 2 f_equal; lia.
    + intros j Hj. destruct j as [|j].
      * cbn [firstn]. rewrite !totalLength_cons. cbn. lia.
      * rewrite firstn_cons, totalLength_cons.
        specialize (Hf j ltac:(lia)). lia.
Qed.

Lemma walk_beyond (nodeLengths : list nat) :
  forall rank currentPos position,
    currentPos + totalLength nodeLengths < position ->
    walkTextNodes nodeLengths rank currentPos position = None.
Proof.
  induction nodeLengths as [|n l IH]; intros rank cur pos H; [reflexivity|].
  cbn [walkTextNodes]. rewrite totalLength_cons in H.
  pose proof (totalLength_nonneg l).
  replace (cur + Z.of_nat n >=? pos) with false
    by (symmetry; rewrite Z.geb_leb; apply Z.leb_gt; lia).
  apply IH. lia.
Qed.

End CaretFacts.

(** X17: the caret lands where it is asked to.  With at least one text
    node and [0 <= position <= ] the length of all the text, the walk
    picks the first node whose end reaches [position], and the offset in
    that node, added to the text before the node, is [position]; the
    offset lies inside the node.  Beyond the end of the text, or without
    any text node, no node is picked. *)
Theorem setCursorPosition_places (nodeLengths : list nat) (position : Z) :
  (nodeLengths <> [] ->
   0 <= position <= totalLength nodeLengths ->
   exists k nodeLength offset,
     setCursorPosition nodeLengths position = Some (k, offset) /\
     nth_error nodeLengths k = Some nodeLength /\
     0 <= offset <= Z.of_nat nodeLength /\
     totalLength (firstn k nodeLengths) + offset = position /\
     (forall j, (j < k)%nat ->
                totalLength (firstn (S j) nodeLengths) < position)) /\
  (totalLength nodeLengths < position ->
   setCursorPosition nodeLengths position = None) /\
  (nodeLengths = [] -> setCursorPosition nodeLengths position = None).
Proof.
  repeat apply conj.
  - intros Hne Hr.
    destruct (CaretFacts.walk_reaches nodeLengths 0 0 position Hne)
      as (k & len & Hk & Hw & Ho & Hf); [lia|].
    exists k, len, (position - (0 + totalLength (firstn k nodeLengths))).
    unfold setCursorPosition. rewrite Hw. cbn [Nat.add].
    repeat split; auto; try lia.
    all: try (intros j Hj; specialize (Hf j Hj); lia).
  - intros H. apply CaretFacts.walk_beyond. lia.
  - intros ->. reflexivity.
Qed.

Lemma setCursorPosition_places_witness :
  (exists k nodeLength offset,
     setCursorPosition [4; 5; 4]%nat 9 = Some (k, offset) /\
     nth_error [4; 5; 4]%nat k = Some nodeLength /\
     0 <= offset <= Z.of_nat nodeLength /\
     totalLength (firstn k [4; 5; 4]%nat) + offset = 9 /\
     (forall j, (j < k)%nat -> totalLength (firstn (S j) [4; 5; 4]%nat) < 9)) /\
  setCursorPosition [4; 5; 4]%nat 14 = None.
Proof.
  destruct (setCursorPosition_places [4; 5; 4]%nat 9) as (H & _ & _).
  destruct (setCursorPosition_places [4; 5; 4]%nat 14) as (_ & H' & _).
  split.
  - apply H; [discriminate|cbn; lia].
  - apply H'. cbn. lia.
Defined.

(** ** Words *)

Module WordFacts.
Import TrimFacts.

Lemma nonEmpty_rev (piece : jsstring) : nonEmpty [rev piece] = emit piece.
Proof.
  destruct piece as [|c p]; [reflexivity|]. cbn [nonEmpty filter emit].
  unfold JS.length. rewrite List.length_rev. reflexivity.
Qed.

Lemma nonEmpty_cons (x : jsstring) (l : list jsstring) :
  nonEmpty (x :: l) = nonEmpty [x] ++ nonEmpty l.
Proof.
  unfold nonEmpty. cbn [filter]. now destruct (0 <? JS.length x).
Qed.

Lemma split_tokens (s : jsstring) :
  forall piece inSeparator,
    (inSeparator = true -> piece = []) ->
    nonEmpty (split_from piece inSeparator s) = tokens piece s.
Proof.
  induction s as [|c r IH]; intros piece inSep Hs; cbn [split_from tokens].
  - apply nonEmpty_rev.
  - destruct (isWhiteSpace c).
    + destruct inSep.
      * rewrite (Hs eq_refl). cbn [emit app]. now apply IH.
      * rewrite nonEmpty_cons, nonEmpty_rev. f_equal. now apply IH.
    + apply IH. discriminate.
Qed.

Lemma tokens_trimStart (s : jsstring) : tokens [] (trimStart s) = tokens [] s.
Proof.
  induction s as [|c r IH]; cbn; [reflexivity|].
  destruct (isWhiteSpace c) eqn:Hc; [exact IH|]. cbn. now rewrite Hc.
Qed.

Lemma tokens_app_ws (a : jsstring) (c : ascii) (b : jsstring) :
  isWhiteSpace c = true ->
  forall piece, tokens piece (a ++ c :: b) = tokens piece a ++ tokens [] b.
Proof.
  intros Hc. induction a as [|d a IH]; intros piece; cbn.
  - now rewrite Hc.
  - destruct (isWhiteSpace d); [|apply IH].
    rewrite IH. now rewrite app_assoc.
Qed.

Lemma tokens_snoc_ws (a : jsstring) (c : ascii) :
  isWhiteSpace c = true ->
  forall piece, tokens piece (a ++ [c]) = tokens piece a.
Proof.
  intros Hc piece. rewrite (tokens_app_ws a c [] Hc). cbn. apply app_nil_r.
Qed.

(** What [trimStart] cuts off is white space. *)
Lemma trimStart_split (s : jsstring) :
  exists t, s = t ++ trimStart s /\ blank t = true.
Proof.
  induction s as [|c r IH]; cbn.
  - exists []. auto.
  - destruct (isWhiteSpace c) eqn:Hc.
    + destruct IH as (t & Ht & Hb). exists (c :: t).
      split; [cbn; now f_equal|]. unfold blank in *. cbn. now rewrite Hc, Hb.
    + exists []. auto.
Qed.

Lemma tokens_app_blank (t : jsstring) :
  blank t = true -> forall a piece, tokens piece (a ++ t) = tokens piece a.
Proof.
  induction t as [|c t IH] using rev_ind; intros Hb a piece.
  - now rewrite app_nil_r.
  - unfold blank in *. rewrite forallb_app in Hb. cbn in Hb.
    apply andb_true_iff in Hb. destruct Hb as [Hb Hc].
    rewrite andb_true_r in Hc.
    rewrite app_assoc, (tokens_snoc_ws _ c Hc). now apply IH.
Qed.

Lemma blank_rev (t : jsstring) : blank (rev t) = blank t.
Proof.
  unfold blank. apply eq_true_iff_eq. rewrite !forallb_forall.
  split; intros H c Hc; apply H;
    [exact (proj1 (in_rev t c) Hc)|exact (proj2 (in_rev t c) Hc)].
Qed.

Lemma tokens_trimEnd (s : jsstring) : tokens [] (trimEnd s) = tokens [] s.
Proof.
  unfold trimEnd.
  destruct (trimStart_split (rev s)) as (t & Ht & Hb).
  assert (Hs : s = rev (trimStart (rev s)) ++ rev t).
  { rewrite <- rev_app_distr, <- Ht. now rewrite rev_involutive. }
  rewrite Hs at 2. symmetry. apply tokens_app_blank. now rewrite blank_rev.
Qed.

(** The words of a text, read without [trim] and [split]. *)
Lemma words_tokens (text : jsstring) : words text = tokens [] text.
Proof.
  unfold words, splitWhiteSpace.
  change (filter (fun word => 0 <? JS.length word)) with nonEmpty.
  rewrite split_tokens by discriminate.
  unfold trim. now rewrite tokens_trimEnd, tokens_trimStart.
Qed.

Lemma tokens_noWhiteSpace (s : jsstring) :
  noWhiteSpace s = true ->
  forall piece, tokens piece s = emit (rev s ++ piece).
Proof.
  unfold noWhiteSpace.
  induction s as [|c r IH]; intros H piece; cbn in *; [reflexivity|].
  apply andb_true_iff in H. destruct H as [Hc Hr].
  destruct (isWhiteSpace c); [discriminate|].
  rewrite (IH Hr). now rewrite <- app_assoc.
Qed.

Lemma tokens_blank (s : jsstring) :
  tokens [] s = [] <-> blank s = true.
Proof.
  unfold blank. induction s as [|c r IH]; cbn; [tauto|].
  destruct (isWhiteSpace c) eqn:Hc; cbn.
  - exact IH.
  - split; [|discriminate]. intros H. exfalso.
    assert (Hne : forall s piece, piece <> [] -> tokens piece s <> []).
    { clear. induction s as [|d s IH]; intros piece Hp; cbn.
      - destruct piece; [congruence|discriminate].
      - destruct (isWhiteSpace d).
        + destruct piece; [congruence|discriminate].
        + apply IH. discriminate. }
    apply (Hne r [c]); [discriminate|assumption].
Qed.

Lemma tokens_wellformed (s : jsstring) :
  forall piece,
    noWhiteSpace piece = true ->
    Forall (fun w => w <> [] /\ noWhiteSpace w = true) (tokens piece s).
Proof.
  assert (He : forall piece, noWhiteSpace piece = true ->
                 Forall (fun w => w <> [] /\ noWhiteSpace w = true) (emit piece)).
  { intros [|c p] Hp; cbn [emit]; constructor; [|constructor]. split.
    - intros H. apply (f_equal (@List.length _)) in H.
      rewrite List.length_rev in H. discriminate.
    - unfold noWhiteSpace in *. rewrite forallb_forall in *.
      intros x Hx. apply Hp. now apply in_rev. }
  induction s as [|c r IH]; intros piece Hp; cbn.
  - now apply He.
  - destruct (isWhiteSpace c) eqn:Hc.
    + apply Forall_app. split; [now apply He|]. now apply IH.
    + apply IH. unfold noWhiteSpace in *. cbn. now rewrite Hc, Hp.
Qed.

End WordFacts.

(** X18: how the editor counts words.  The words of a text are its
    maximal runs of code units that are not white space: each is
    non-empty and free of white space; white space at the join of two
    texts keeps their words apart, so that the words of [a], a white
    space and [b] are the words of [a] followed by those of [b]; and a
    non-empty text without white space is one word. *)
Theorem words_of_text (a b : jsstring) (c : ascii) :
  Forall (fun w => w <> [] /\ noWhiteSpace w = true) (words a) /\
  (isWhiteSpace c = true -> words (a ++ c :: b) = words a ++ words b) /\
  (a <> [] -> noWhiteSpace a = true -> words a = [a]).
Proof.
  rewrite !WordFacts.words_tokens. repeat apply conj.
  - now apply WordFacts.tokens_wellformed.
  - intros Hc. now apply WordFacts.tokens_app_ws.
  - intros Hne Hn. rewrite (WordFacts.tokens_noWhiteSpace a Hn).
    rewrite app_nil_r. destruct a as [|x a]; [congruence|].
    unfold emit.
    destruct (rev (x :: a)) as [|y r] eqn:Hr.
    + apply (f_equal (@List.length _)) in Hr. rewrite List.length_rev in Hr.
      discriminate.
    + now rewrite <- Hr, rev_involutive.
Qed.

Lemma words_of_text_witness :
  words (str " The  quick" ++ " "%char :: str "fox ")
  = words (str " The  quick") ++ words (str "fox ") /\
  words (str "fox") = [str "fox"].
Proof.
  destruct (words_of_text (str " The  quick") (str "fox ") " "%char)
    as (_ & H & _).
  destruct (words_of_text (str "fox") [] " "%char) as (_ & _ & H').
  split.
  - apply H. reflexivity.
  - apply H'; [discriminate|reflexivity].
Defined.

(** X19: the word count is zero exactly for a text of white space only
    (the empty text included), and then both the hook and the editor
    stay away from the remote check: [checkText] never reaches the call,
    and the editor's effect does not call [checkText]. *)
Theorem wordCount_zero (text : jsstring) (st : CheckState) (user docId completed : bool) :
  (wordCount text = 0 <-> blank text = true) /\
  (blank text = true ->
   checkText_guards st text <> Analyze /\
   callsCheckText text user docId completed = false).
Proof.
  assert (Hz : wordCount text = 0 <-> blank text = true).
  { unfold wordCount. rewrite WordFacts.words_tokens.
    rewrite <- WordFacts.tokens_blank.
    destruct (tokens [] text); cbn; split; intros H;
      try reflexivity; try discriminate; lia. }
  split; [exact Hz|]. intros Hb. apply Hz in Hb. split.
  - unfold checkText_guards.
    destruct (isProcessingSuggestions st); [discriminate|].
    destruct (_ && _); [discriminate|].
    destruct (_ || _); [discriminate|].
    rewrite Hb. cbn. discriminate.
  - unfold callsCheckText. rewrite Hb. cbn. apply andb_false_r.
Qed.

Lemma wordCount_zero_witness :
  wordCount (str "   ") = 0 /\
  checkText_guards (mkCheckState false [] false) (str "             ") <> Analyze.
Proof.
  destruct (wordCount_zero (str "   ") (mkCheckState false [] false)
              true true false) as [H _].
  destruct (wordCount_zero (str "             ") (mkCheckState false [] false)
              true true false) as [_ H'].
  split.
  - apply H. reflexivity.
  - apply H'. reflexivity.
Defined.

(** X20: the editor asks for a check only where the hook would run
    one.  Whenever the editor's effect calls [checkText], the text passes
    the length and word guards of [checkText]: neither clearing branch is
    taken, and the remote function is called unless suggestions are being
    processed. *)
Theorem editor_check_passes_guards (st : CheckState) (content : jsstring)
    (user docId : bool) :
  callsCheckText content user docId (hasCompletedAnalysis st) = true ->
  checkText_guards st content
  = if isProcessingSuggestions st then Skip else Analyze.
Proof.
  unfold callsCheckText, checkText_guards. intros H.
  rewrite !andb_true_iff in H.
  destruct H as [[[[[Ht Hl] _] _] Hc] Hw].
  apply negb_true_iff in Hc. rewrite Hc, andb_false_r.
  rewrite Z.gtb_ltb in Hl. apply Z.ltb_lt in Hl.
  rewrite Z.geb_leb in Hw. apply Z.leb_le in Hw.
  rewrite Ht. cbn [negb orb].
  replace (JS.length (trim content) <? 10) with false
    by (symmetry; apply Z.ltb_ge; lia).
  replace (wordCount content <? 3) with false
    by (symmetry; apply Z.ltb_ge; lia).
  reflexivity.
Qed.

Lemma editor_check_passes_guards_witness :
  checkText_guards (mkCheckState false [] false)
    (str "This are a sentence with mistakes")
  = Analyze.
Proof.
  apply (editor_check_passes_guards (mkCheckState false [] false)
           (str "This are a sentence with mistakes") true true).
  reflexivity.
Defined.

(** X21: when text is added behind a white space, the editor resets
    the analysis exactly when the added text has more than three words;
    an unchanged text never resets it. *)
Theorem resetsAnalysis_appended (text added : jsstring) (c : ascii) :
  (isWhiteSpace c = true ->
   resetsAnalysis (text ++ c :: added) text = (wordCount added >? 3)) /\
  resetsAnalysis text text = false.
Proof.
  unfold resetsAnalysis, wordCount. split.
  - intros Hc. rewrite !WordFacts.words_tokens.
    rewrite (WordFacts.tokens_app_ws text c added Hc), List.length_app.
    f_equal. lia.
  - now rewrite Z.sub_diag.
Qed.

Lemma resetsAnalysis_appended_witness :
  resetsAnalysis (str "One two" ++ " "%char :: str "three four five six")
                 (str "One two")
  = true.
Proof.
  destruct (resetsAnalysis_appended (str "One two")
              (str "three four five six") " "%char) as [H _].
  rewrite H; reflexivity.
Defined.

(** ** The age of the last save *)

(** X22: the label of the last save by the milliseconds gone by.
    Under a minute, a save in the future included, it is "Just saved";
    from one minute "1 minute ago"; from two minutes the whole minutes,
    between 2 and 59; from one hour "1 hour ago"; from two hours on the
    whole hours, [diffMs / 3600000], without any upper limit. *)
Theorem formatLastSaved_label (saved now : Z) :
  let diffMs := now - saved in
  (diffMs < 60000 -> formatLastSaved (Some saved) now = str "Just saved") /\
  (60000 <= diffMs < 120000 ->
   formatLastSaved (Some saved) now = str "1 minute ago") /\
  (120000 <= diffMs < 3600000 ->
   formatLastSaved (Some saved) now
   = showNumber (diffMs / 60000) ++ str " minutes ago" /\
   2 <= diffMs / 60000 <= 59) /\
  (3600000 <= diffMs < 7200000 ->
   formatLastSaved (Some saved) now = str "1 hour ago") /\
  (7200000 <= diffMs ->
   formatLastSaved (Some saved) now
   = showNumber (diffMs / 3600000) ++ str " hours ago" /\
   2 <= diffMs / 3600000).
Proof.
  intros diffMs. unfold formatLastSaved. fold diffMs.
  assert (Hh : diffMs / 60000 / 60 = diffMs / 3600000)
    by (rewrite Z.div_div by lia; reflexivity).
  repeat apply conj.
  - intros H. assert (diffMs / 60000 < 1) by (apply Z.div_lt_upper_bound; lia).
    replace (diffMs / 60000 <? 1) with true by (symmetry; apply Z.ltb_lt; lia).
    reflexivity.
  - intros H.
    assert (diffMs / 60000 = 1).
    { assert (1 <= diffMs / 60000) by (apply Z.div_le_lower_bound; lia).
      assert (diffMs / 60000 < 2) by (apply Z.div_lt_upper_bound; lia). lia. }
    replace (diffMs / 60000 <? 1) with false by (symmetry; apply Z.ltb_ge; lia).
    replace (diffMs / 60000 =? 1) with true by (symmetry; apply Z.eqb_eq; lia).
    reflexivity.
  - intros H.
    assert (2 <= diffMs / 60000) by (apply Z.div_le_lower_bound; lia).
    assert (diffMs / 60000 < 60) by (apply Z.div_lt_upper_bound; lia).
    replace (diffMs / 60000 <? 1) with false by (symmetry; apply Z.ltb_ge; lia).
    replace (diffMs / 60000 =? 1) with false by (symmetry; apply Z.eqb_neq; lia).
    replace (diffMs / 60000 <? 60) with true by (symmetry; apply Z.ltb_lt; lia).
    split; [reflexivity|lia].
  - intros H.
    assert (60 <= diffMs / 60000) by (apply Z.div_le_lower_bound; lia).
    assert (diffMs / 3600000 = 1).
    { assert (1 <= diffMs / 3600000) by (apply Z.div_le_lower_bound; lia).
      assert (diffMs / 3600000 < 2) by (apply Z.div_lt_upper_bound; lia). lia. }
    replace (diffMs / 60000 <? 1) with false by (symmetry; apply Z.ltb_ge; lia).
    replace (diffMs / 60000 =? 1) with false by (symmetry; apply Z.eqb_neq; lia).
    replace (diffMs / 60000 <? 60) with false by (symmetry; apply Z.ltb_ge; lia).
    cbv zeta. rewrite Hh.
    replace (diffMs / 3600000 =? 1) with true by (symmetry; apply Z.eqb_eq; lia).
    reflexivity.
  - intros H.
    assert (60 <= diffMs / 60000) by (apply Z.div_le_lower_bound; lia).
    assert (2 <= diffMs / 3600000) by (apply Z.div_le_lower_bound; lia).
    replace (diffMs / 60000 <? 1) with false by (symmetry; apply Z.ltb_ge; lia).
    replace (diffMs / 60000 =? 1) with false by (symmetry; apply Z.eqb_neq; lia).
    replace (diffMs / 60000 <? 60) with false by (symmetry; apply Z.ltb_ge; lia).
    cbv zeta. rewrite Hh.
    replace (diffMs / 3600000 =? 1) with false by (symmetry; apply Z.eqb_neq; lia).
    split; [reflexivity|lia].
Qed.

Lemma formatLastSaved_label_witness :
  formatLastSaved (Some 1000) 500 = str "Just saved" /\
  formatLastSaved (Some 0) 3599999 = str "59 minutes ago" /\
  formatLastSaved (Some 0) 360000000 = str "100 hours ago".
Proof.
  destruct (formatLastSaved_label 1000 500) as (H1 & _).
  destruct (formatLastSaved_label 0 3599999) as (_ & _ & H3 & _).
  destruct (formatLastSaved_label 0 360000000) as (_ & _ & _ & _ & H5).
  split; [|split].
  - apply H1. lia.
  - destruct H3 as [H _]; [lia|]. rewrite H. reflexivity.
  - destruct H5 as [H _]; [lia|]. rewrite H. reflexivity.
Defined.

(** X23: the caret that accepting a suggestion asks for can be placed.
    When a suggestion is applied and the text nodes of the editing
    surface hold the new text, the offset handed to [setCursorPosition]
    picks a node, and the place picked is right behind the correction:
    the text before it has the length of the part before the replaced
    text plus that of [correction]. *)
Theorem accept_caret_is_placed (fuel : nat) (ed ed' : Editor) (s : Suggestion)
    (nodeLengths : list nat) :
  handleAcceptSuggestion fuel ed s = Done (ed', SuggestionApplied) ->
  nodeLengths <> [] ->
  totalLength nodeLengths = JS.length (content ed') ->
  exists position k offset pre,
    caret ed' = Some position /\
    setCursorPosition nodeLengths position = Some (k, offset) /\
    totalLength (firstn k nodeLengths) + offset = position /\
    firstn (Z.to_nat position) (content ed') = pre ++ correction s /\
    firstn (List.length pre) (content ed) = pre.
Proof.
  intros Ha Hne Htot. unfold handleAcceptSuggestion in Ha.
  destruct (_ || _) eqn:Hg; [discriminate|].
  rewrite !orb_false_iff in Hg. destruct Hg as [[Hg1 Hg2] Hg3].
  apply Z.ltb_ge in Hg1. rewrite Z.gtb_ltb in Hg2. apply Z.ltb_ge in Hg2.
  rewrite Z.geb_leb in Hg3. apply Z.leb_gt in Hg3.
  destruct (reconcile fuel (content ed) s) as [[p|]| |] eqn:Hr;
    cbn [bind] in Ha; try discriminate.
  inversion Ha; subst ed'. clear Ha. cbn [content caret] in *.
  destruct (reconcile_Some fuel (content ed) s p Hg1 Hg3 Hg2 Hr)
    as (Hp0 & Hplt & Hpe & _).
  unfold substring_from in *. rewrite !JSFacts.substring_slice in * by lia.
  fold (slice (content ed) 0 (start p)) in *.
  fold (slice (content ed) (end_ p) (JS.length (content ed))) in *.
  set (pre := slice (content ed) 0 (start p)) in *.
  assert (Hpre : JS.length pre = start p)
    by (unfold pre; rewrite slice_length; lia).
  set (position := start p + JS.length (correction s)).
  pose proof (JSFacts.length_nonneg (correction s)) as Hc.
  pose proof (JSFacts.length_nonneg
                (slice (content ed) (end_ p) (JS.length (content ed)))) as Hpost.
  assert (Hrange : 0 <= position <= totalLength nodeLengths).
  { rewrite Htot, !JSFacts.length_app. unfold position. lia. }
  destruct (CaretFacts.walk_reaches nodeLengths 0 0 position Hne)
    as (k & len & Hk & Hw & Ho & _); [lia|].
  exists position, k, (position - (0 + totalLength (firstn k nodeLengths))), pre.
  unfold setCursorPosition. rewrite Hw. cbn [Nat.add].
  repeat split; try lia.
  - rewrite app_assoc. rewrite firstn_app.
    replace (Z.to_nat position - List.length (pre ++ correction s))%nat with O
      by (unfold position, JS.length in *; rewrite List.length_app; lia).
    rewrite firstn_all2, firstn_O, app_nil_r; [reflexivity|].
    unfold position, JS.length in *. rewrite List.length_app. lia.
  - unfold pre, slice. rewrite Z.sub_0_r. cbn [Z.to_nat skipn].
    rewrite List.length_firstn. f_equal. unfold JS.length in *. lia.
Qed.

Lemma accept_caret_is_placed_witness :
  exists position k offset pre,
    Some 9 = Some position /\
    setCursorPosition [4; 5; 4]%nat position = Some (k, offset) /\
    totalLength (firstn k [4; 5; 4]%nat) + offset = position /\
    firstn (Z.to_nat position) (str "The quick fox") = pre ++ str "quick" /\
    firstn (List.length pre) (str "The qick fox") = pre.
Proof.
  apply (accept_caret_is_placed 0
           (mkEditor (str "The qick fox") [] None)
           (mkEditor (str "The quick fox") [] (Some 9))
           (mkSuggestion (mkId 0 0) (Some spelling) (mkPosition 4 8) (str "qick")
                         (str "quick") (str "Spelling"))
           [4; 5; 4]%nat).
  - reflexivity.
  - discriminate.
  - reflexivity.
Defined.

(** ** The remote function *)

Module ServerFacts.
Import JSFacts TrimFacts IncludesFacts SortFacts.

Lemma indexOf_from_found (sub : jsstring) (s : jsstring) :
  forall i,
    0 <= i ->
    indexOf_from s sub i <> -1 ->
    exists k,
      indexOf_from s sub i = i + Z.of_nat k /\
      (k <= List.length s)%nat /\
      startsWith (skipn k s) sub = true /\
      (forall j, (j < k)%nat -> startsWith (skipn j s) sub = false).
Proof.
  induction s as [|c r IH]; intros i Hi Hne; cbn [indexOf_from] in *.
  - destruct (startsWith [] sub) eqn:Hs; [|congruence].
    exists O. cbn [skipn List.length]. split; [lia|]. split; [lia|].
    split; [exact Hs|]. intros j Hj; lia.
  - destruct (startsWith (c :: r) sub) eqn:Hs.
    + exists O. cbn [skipn]. split; [lia|]. split; [lia|].
      split; [exact Hs|]. intros j Hj; lia.
    + destruct (IH (i + 1)) as (k & Hk & Hlen & Hst & Hfirst); auto; try lia.
      exists (S k). cbn [skipn List.length]. split; [lia|]. split; [lia|].
      split; [exact Hst|].
      intros [|j] Hj; [exact Hs|]. cbn [skipn]. apply Hfirst. lia.
Qed.

Lemma indexOf_from_range (sub : jsstring) (s : jsstring) :
  forall i, 0 <= i -> indexOf_from s sub i = -1 \/ i <= indexOf_from s sub i.
Proof.
  induction s as [|c r IH]; intros i Hi; cbn [indexOf_from].
  - destruct (startsWith [] sub); [right; lia|now left].
  - destruct (startsWith (c :: r) sub); [right; lia|].
    destruct (IH (i + 1)) as [H|H]; [lia|now left|right; lia].
Qed.

Lemma startsWith_firstn (s sub : jsstring) :
  startsWith s sub = true ->
  (List.length sub <= List.length s)%nat /\ firstn (List.length sub) s = sub.
Proof.
  rewrite startsWith_iff. intros [post ->]. split.
  - rewrite List.length_app. lia.
  - rewrite firstn_app, Nat.sub_diag, firstn_all. cbn. apply app_nil_r.
Qed.



Lemma serverFilter_Thrown (text : jsstring) (entry : option ModelEntry) :
  serverFilter text entry = Thrown <-> entry = None.
Proof.
  split; [|intros ->; reflexivity].
  unfold serverFilter. destruct entry as [e|]; [|reflexivity].
  destruct (e_position e) as [[[s|] [en|]]|]; try discriminate.
  destruct (_ || _); [discriminate|].
  destruct (_ || _); [discriminate|]. cbv zeta.
  destruct (if negb _ then _ else _); [|discriminate].
  destruct (JS.eqb _ _); discriminate.
Qed.


Lemma filterM_Thrown {A B : Type} (f : A -> run (option B)) (l : list A) (x : A) :
  (forall y, f y <> OutOfFuel) ->
  In x l -> f x = Thrown -> filterM f l = Thrown.
Proof.
  intros Hf. induction l as [|y r IH]; intros Hin Hx; [destruct Hin|]. cbn.
  destruct Hin as [->|Hin].
  - now rewrite Hx.
  - destruct (f y) as [z| |] eqn:Hy; cbn; [|reflexivity|now apply Hf in Hy].
    now rewrite (IH Hin Hx).
Qed.

Lemma serverFilter_not_OutOfFuel (text : jsstring) (entry : option ModelEntry) :
  serverFilter text entry <> OutOfFuel.
Proof.
  unfold serverFilter. destruct entry as [e|]; [|discriminate].
  destruct (e_position e) as [[[s|] [en|]]|]; try discriminate.
  destruct (_ || _); [discriminate|].
  destruct (_ || _); [discriminate|]. cbv zeta.
  destruct (if negb _ then _ else _); [|discriminate].
  destruct (JS.eqb _ _); discriminate.
Qed.








End ServerFacts.


(** X25: one [null] in the array costs the whole answer.  The first
    filter throws on it, the handler of the surrounding [try] takes over,
    and the remote function answers with the empty list, whatever else
    the array holds. *)
Theorem serverSuggestions_null_entry (text : jsstring)
    (entries : list (option ModelEntry)) :
  In None entries -> serverSuggestions text entries = [].
Proof.
  intros Hin. unfold serverSuggestions.
  rewrite (ServerFacts.filterM_Thrown (serverFilter text) entries None).
  - reflexivity.
  - apply ServerFacts.serverFilter_not_OutOfFuel.
  - exact Hin.
  - reflexivity.
Qed.

Lemma serverSuggestions_null_entry_witness :
  serverSuggestions (str "I goed home")
    [Some (mkEntry (str "grammar") (Some (mkRawPosition (Some 2) (Some 6)))
                   (str "goed") (str "went") (str "Past tense"));
     None]
  = [].
Proof.
  apply serverSuggestions_null_entry. right. now left.
Defined.

(** X26: how the remote function settles a span.  A stated span whose
    text is [original] up to case and surrounding white space is kept as
    it is.  Any other is replaced by the first place where the
    lower-cased, trimmed [original] stands in the lower-cased text, word
    boundaries playing no part: a word inside a longer word will do. *)
Theorem serverFilter_settles_span (text : jsstring) (e : ModelEntry)
    (s en : Z) (c : Checked) :
  e_position e = Some (mkRawPosition (Some s) (Some en)) ->
  serverFilter text (Some e) = Done (Some c) ->
  let w := trim (toLowerCase (e_original e)) in
  (trim (toLowerCase (substring text s en)) = w ->
   c_position c = mkPosition s en) /\
  (trim (toLowerCase (substring text s en)) <> w ->
   exists k : nat,
     c_position c = mkPosition (Z.of_nat k) (Z.of_nat k + JS.length w) /\
     firstn (List.length w) (skipn k (toLowerCase text)) = w /\
     (forall j post, (j < k)%nat -> skipn j (toLowerCase text) <> w ++ post)).
Proof.
  intros Hp H w. unfold serverFilter in H. rewrite Hp in H.
  destruct (_ || _); [discriminate|].
  destruct (_ || _); [discriminate|].
  cbv zeta in H. fold w in H. split.
  - intros Hm. apply JSFacts.eqb_eq in Hm. rewrite Hm in H. cbn [negb] in H.
    destruct (JS.eqb w _); [discriminate|]. now inversion H.
  - intros Hm. apply JSFacts.eqb_neq in Hm. rewrite Hm in H. cbn [negb] in H.
    destruct (indexOf (toLowerCase text) w =? -1) eqn:Hi; cbn [negb] in H;
      [discriminate|].
    destruct (JS.eqb w _); [discriminate|].
    inversion H; subst c. clear H. apply Z.eqb_neq in Hi.
    destruct (ServerFacts.indexOf_from_found w (toLowerCase text) 0)
      as (k & Hk & _ & Hst & Hfirst); [lia|exact Hi|].
    fold (indexOf (toLowerCase text) w) in Hk. rewrite Hk, Z.add_0_l.
    exists k. cbn [c_position]. split; [reflexivity|]. split.
    + now apply ServerFacts.startsWith_firstn in Hst.
    + intros j post Hj Heq. specialize (Hfirst j Hj).
      assert (startsWith (skipn j (toLowerCase text)) w = true)
        by (apply IncludesFacts.startsWith_iff; eauto).
      congruence.
Qed.

Lemma serverFilter_settles_span_witness :
  exists k : nat,
    mkPosition 0 3 = mkPosition (Z.of_nat k) (Z.of_nat k + JS.length (str "cat")) /\
    firstn 3 (skipn k (str "category cat")) = str "cat" /\
    (forall j post, (j < k)%nat -> skipn j (str "category cat") <> str "cat" ++ post).
Proof.
  destruct (serverFilter_settles_span (str "Category cat")
    (mkEntry (str "spelling") (Some (mkRawPosition (Some 8) (Some 11)))
             (str " Cat") (str "dog") (str "Wrong animal"))
    8 11
    (mkChecked (str "spelling") (mkPosition 0 3) (str " Cat") (str "dog")
               (str "Wrong animal"))
    eq_refl eq_refl) as [_ H].
  apply H. vm_compute. discriminate.
Defined.

Module PipelineFacts.
Import ValidatorFacts ValidatorMore SortFacts.








End PipelineFacts.

